(** * aithesaurus: caching and semantic-retrieval core

    A shallow embedding of the TypeScript services of the repository
    ([services/ollama.ts], [services/embedding.ts], [services/word2vec.ts],
    [services/mongodb.ts], [utils/cache.ts]) together with the properties
    the specification states about them.

    Conventions of the embedding:
    - a JavaScript [number] is an IEEE 754 binary64 value, i.e. a primitive
      [float]; [===] on numbers is [PrimFloat.eqb], [>=] is [PrimFloat.leb]
      with the arguments swapped;
    - a JavaScript string is a [string] whose characters are code units
      below 256;
    - a promise that resolves or rejects is an [outcome]; code that reads and
      writes the shared cache threads the cache store explicitly;
    - the language model, the embedding model, [JSON.parse], the number
      printer and the database are external: they are [Variable]s of the
      sections that use them. *)

From Stdlib Require Import ZArith List String Ascii Bool Lia Floats.
From Stdlib Require Import Sorted Permutation.
From Stdlib Require Reals Lra.
From stdpp Require Import gmap strings.

Set Warnings "-inexact-float".

Local Open Scope string_scope.
Local Open Scope list_scope.

(** ** JavaScript primitives *)

Module JS.

Definition number := float.

(** An [Error] object; only its message is observable in this code base. *)
Inductive JsError : Type := MkError (message : string).

Definition message (e : JsError) : string :=
  match e with MkError m => m end.

(** [`${error}`] for an [Error] value. *)
Definition errorToString (e : JsError) : string := "Error: " +:+ message e.

(** The completion of a call: a returned value (a resolved promise) or a
    thrown error (a rejected promise). *)
Inductive outcome (A : Type) : Type :=
| Ok (a : A)
| Throw (e : JsError).
Arguments Ok {A} a.
Arguments Throw {A} e.

Definition obind {A B} (x : outcome A) (f : A -> outcome B) : outcome B :=
  match x with
  | Ok a => f a
  | Throw e => Throw e
  end.

(** [xs.map(f)] where [f] may throw: the first throw aborts the map. *)
Fixpoint mapThrowing {A B} (f : A -> outcome B) (xs : list A)
  : outcome (list B) :=
  match xs with
  | [] => Ok []
  | x :: xs' =>
      obind (f x) (fun y =>
      obind (mapThrowing f xs') (fun ys => Ok (y :: ys)))
  end.

(** *** Strings *)

Definition charCode (c : ascii) : nat := nat_of_ascii c.

(** The characters matched by [\s] and removed by [trim()], below 256. *)
Definition isWhiteSpace (c : ascii) : bool :=
  existsb (Nat.eqb (charCode c)) [9; 10; 11; 12; 13; 32; 160]%nat.

Definition isUpperLatin (c : ascii) : bool :=
  let n := charCode c in
  ((65 <=? n) && (n <=? 90)
   || (192 <=? n) && (n <=? 214)
   || (216 <=? n) && (n <=? 222))%nat.

Definition toLowerChar (c : ascii) : ascii :=
  if isUpperLatin c then ascii_of_nat (charCode c + 32) else c.

Fixpoint toLowerCase (s : string) : string :=
  match s with
  | EmptyString => EmptyString
  | String c s' => String (toLowerChar c) (toLowerCase s')
  end.

Definition isEmpty (s : string) : bool :=
  match s with EmptyString => true | _ => false end.

Fixpoint trimStart (s : string) : string :=
  match s with
  | EmptyString => EmptyString
  | String c s' => if isWhiteSpace c then trimStart s' else s
  end.

Fixpoint trimEnd (s : string) : string :=
  match s with
  | EmptyString => EmptyString
  | String c s' =>
      let t := trimEnd s' in
      if isWhiteSpace c && isEmpty t then EmptyString else String c t
  end.

Definition trim (s : string) : string := trimEnd (trimStart s).

(** [s.split(sep)] for a separator that matches exactly one character
    (the string [' '] or the class [/[,\n]/]): always a non-empty list. *)
Fixpoint splitBy (sep : ascii -> bool) (s : string) : list string :=
  match s with
  | EmptyString => [EmptyString]
  | String c s' =>
      if sep c then EmptyString :: splitBy sep s'
      else match splitBy sep s' with
           | w :: ws => String c w :: ws
           | [] => [String c EmptyString]
           end
  end.

Fixpoint allChars (p : ascii -> bool) (s : string) : bool :=
  match s with
  | EmptyString => true
  | String c s' => p c && allChars p s'
  end.

(** [xs[0]] for an array of strings ([undefined] on the empty array; every
    array indexed this way here comes from [split] and is non-empty). *)
Definition first (xs : list string) : string :=
  match xs with
  | x :: _ => x
  | [] => EmptyString
  end.

(** *** Numbers *)

Definition isNaN (x : number) : bool := negb (PrimFloat.eqb x x).

(** [a >= b] *)
Definition geb (a b : number) : bool := PrimFloat.leb b a.

(** [a > b] *)
Definition gtb (a b : number) : bool := PrimFloat.ltb b a.

(** [ToIntegerOrInfinity], as applied by [Array.prototype.slice] to its
    arguments: [NaN] becomes 0, finite values are truncated toward zero. *)
Inductive IntegerOrInfinity : Type :=
| NegInfinity
| Finite (k : Z)
| PosInfinity.

Definition toIntegerOrInfinity (x : number) : IntegerOrInfinity :=
  match Prim2SF x with
  | S754_nan => Finite 0
  | S754_zero _ => Finite 0
  | S754_infinity s => if s then NegInfinity else PosInfinity
  | S754_finite s m e =>
      let magnitude :=
        match e with
        | Zneg p => (Z.pos m / 2 ^ Z.pos p)%Z
        | _ => (Z.pos m * 2 ^ e)%Z
        end in
      Finite (if s then - magnitude else magnitude)%Z
  end.

(** [xs.slice(0, end)]: a negative [end] counts from the end of the array. *)
Definition slice0 {A} (xs : list A) (end_ : number) : list A :=
  match toIntegerOrInfinity end_ with
  | NegInfinity => []
  | PosInfinity => xs
  | Finite k =>
      if (k <? 0)%Z
      then firstn (Z.to_nat (Z.max (Z.of_nat (length xs) + k) 0)) xs
      else firstn (Z.to_nat k) xs
  end.

(** [xs.sort(compareFn)]: the sort is stable, and [b] is moved before [a]
    exactly when [compareFn(a, b) > 0] (a [NaN] result counts as 0). *)
Section Sort.
Context {A : Type} (compareFn : A -> A -> number).

Fixpoint insertSorted (x : A) (sorted : list A) : list A :=
  match sorted with
  | [] => [x]
  | y :: ys =>
      if gtb (compareFn x y) 0%float then y :: insertSorted x ys
      else x :: y :: ys
  end.

Definition sort (xs : list A) : list A := fold_right insertSorted [] xs.
End Sort.

(** The number nearest to the integer [z] (the integer itself below 2^53). *)
Definition ofZ (z : Z) : number :=
  SF2Prim (binary_normalize prec emax z 0 false).

(** A length or a count as a number. *)
Definition ofNat (n : nat) : number := ofZ (Z.of_nat n).

(** [Math.round]: the integer nearest to [x], ties toward +infinity. *)
Definition mathRound (x : number) : number :=
  match Prim2SF x with
  | S754_finite s m (Zneg p) =>
      let v := if s then Z.neg m else Z.pos m in
      let r := ((2 * v + 2 ^ Z.pos p) / 2 ^ (Z.pos p + 1))%Z in
      if (r =? 0)%Z && s then (-0)%float else ofZ r
  | _ => x
  end.

(** A JavaScript value used as a condition: [undefined] and the empty
    string are falsy, every other string is truthy. *)
Definition truthy (s : option string) : bool :=
  match s with
  | Some s => negb (isEmpty s)
  | None => false
  end.

(** [s || fallback] *)
Definition orElse (s : option string) (fallback : string) : string :=
  match s with
  | Some s => if isEmpty s then fallback else s
  | None => fallback
  end.

(** The double-quote and line-feed characters, as one-character strings. *)
Definition dq : string := String "034" EmptyString.
Definition nl : string := String "010" EmptyString.

End JS.
Export JS.

(** ** Shared types ([types/index.ts]) *)

Record EmbeddingResult : Type := mkEmbeddingResult {
  er_embedding : list number;
  er_dimension : nat;
  er_model : string
}.

Record RelatedWord : Type := mkRelatedWord {
  rw_word : string;
  rw_confidence : number
}.

Record ContextualMeaning : Type := mkContextualMeaning {
  cm_context : string;
  cm_meaning : string;
  cm_domain : option string;
  cm_sentiment : option number;
  cm_examples : option (list string)
}.

Record WordAnalysis : Type := mkWordAnalysis {
  wa_word : string;
  wa_definition : string;
  wa_partOfSpeech : string;
  wa_synonyms : list RelatedWord;
  wa_antonyms : list RelatedWord;
  wa_contexts : list ContextualMeaning;
  wa_confidence : number
}.

Record SemanticSearchResult : Type := mkSemanticSearchResult {
  ssr_word : string;
  ssr_similarity : number;
  ssr_definition : option string;
  ssr_partOfSpeech : option string
}.

(** ** Cosine similarity ([EmbeddingService.calculateCosineSimilarity]) *)

Module Cosine.
Local Open Scope float_scope.

(** The three accumulators of the [for] loop, [i] running over [vecA]. *)
Fixpoint accumulate (vecA vecB : list number)
         (dotProduct normA normB : number) : number * number * number :=
  match vecA, vecB with
  | a :: vecA', b :: vecB' =>
      accumulate vecA' vecB'
        (dotProduct + a * b) (normA + a * a) (normB + b * b)
  | _, _ => (dotProduct, normA, normB)
  end.

Definition lengthError : JsError :=
  MkError "Vectors must have the same length".

Definition calculateCosineSimilarity (vecA vecB : list number)
  : outcome number :=
  if negb (Nat.eqb (length vecA) (length vecB)) then Throw lengthError
  else
    let '(dotProduct, normA, normB) := accumulate vecA vecB 0 0 0 in
    let normA := sqrt normA in
    let normB := sqrt normB in
    if PrimFloat.eqb normA 0 || PrimFloat.eqb normB 0 then Ok 0
    else Ok (dotProduct / (normA * normB)).

End Cosine.
Export Cosine.

(** ** The cache service ([utils/cache.ts]) *)

(** The payloads the services store in the cache. *)
Inductive CacheValue : Type :=
| VEmbedding (r : EmbeddingResult)
| VRelated (ws : list RelatedWord)
| VText (s : string)
| VContexts (cs : list ContextualMeaning)
| VAnalysis (a : WordAnalysis)
| VSearch (rs : list SemanticSearchResult).

Module Cache.

(** The store behind [CacheService] is the [node-cache] package. It is
    taken here as a finite map from keys to entries that record the value
    and the time to live it was stored with, refusing a write once
    [maxKeys] keys are held; the passing of time is not part of the model. *)
Record Entry : Type := mkEntry {
  value : CacheValue;
  ttl : Z
}.

Record CacheService : Type := mkCacheService {
  store : gmap string Entry;
  defaultTTL : Z
}.

Definition maxKeys : nat := Z.to_nat 10000.

(** [new CacheService()], with [CACHE_TTL_SECONDS] read from the
    environment (3600 when unset). *)
Definition create (cacheTtlSeconds : option Z) : CacheService :=
  {| store := ∅; defaultTTL := default 3600%Z cacheTtlSeconds |}.

(** [set(key, value, ttl)]: [ttl || this.defaultTTL] is the stored time to
    live; a refused write is caught and reported as [false]. *)
Definition set (key : string) (v : CacheValue) (ttl_ : Z)
           (c : CacheService) : bool * CacheService :=
  if (maxKeys <=? size (store c))%nat then (false, c)
  else
    let t := if (ttl_ =? 0)%Z then defaultTTL c else ttl_ in
    (true, {| store := <[key := mkEntry v t]> (store c);
              defaultTTL := defaultTTL c |}).

Definition get (key : string) (c : CacheService) : option CacheValue :=
  value <$> store c !! key.

Definition getTTL (key : string) (c : CacheService) : option Z :=
  ttl <$> store c !! key.

Definition keys (c : CacheService) : list string :=
  (map_to_list (store c)).*1.

(** *** Approximate key lookup *)

(** [calculateLevenshteinDistance] fills a matrix of [str2.length + 1] rows
    and [str1.length + 1] columns: row 0 is [0, 1, ..., str1.length], column
    0 of row [j] is [j], and every other cell is computed row by row, left
    to right, from the cell to its left, the cell above and the cell above
    left. A cell is written once and read only after that, so a row is
    given here as a function of the row above it.

    One row of the matrix: [matrix[j][i]] for [i >= 1], given the row above
    ([diag] is [matrix[j-1][i-1]], [ups] starts at [matrix[j-1][i]]) and
    the cell to the left; [c2] is [str2[j-1]] and the characters of [str1]
    are the [str1[i-1]]. *)
Fixpoint fillRow (c2 : ascii) (str1 : string) (diag : nat) (ups : list nat)
         (left : nat) : list nat :=
  match str1, ups with
  | String c1 str1', up :: ups' =>
      let indicator := if Ascii.eqb c1 c2 then 0 else 1 in
      let cell :=
        Nat.min (Nat.min (left + 1) (up + 1)) (diag + indicator) in
      cell :: fillRow c2 str1' up ups' cell
  | _, _ => []
  end.

(** Row [j] of the matrix from row [j - 1]; [matrix[j][0] = j]. *)
Definition nextRow (c2 : ascii) (str1 : string) (above : list nat)
           (j : nat) : list nat :=
  match above with
  | diag :: ups => j :: fillRow c2 str1 diag ups j
  | [] => [j]
  end.

(** The rows [j], [j + 1], ... of the matrix, one per character of [str2],
    returning the last one. *)
Fixpoint lastRow (str1 str2 : string) (above : list nat) (j : nat)
  : list nat :=
  match str2 with
  | EmptyString => above
  | String c2 str2' => lastRow str1 str2' (nextRow c2 str1 above j) (S j)
  end.

(** [matrix[str2.length][str1.length]]; row 0 is [0, 1, ..., str1.length]. *)
Definition calculateLevenshteinDistance (str1 str2 : string) : nat :=
  List.last (lastRow str1 str2 (seq 0 (S (String.length str1))) 1) 0.

Definition longerOf (str1 str2 : string) : string :=
  if (String.length str2 <? String.length str1)%nat then str1 else str2.

Definition shorterOf (str1 str2 : string) : string :=
  if (String.length str2 <? String.length str1)%nat then str2 else str1.

Definition calculateStringSimilarity (str1 str2 : string) : number :=
  let longer := longerOf str1 str2 in
  let shorter := shorterOf str1 str2 in
  if (String.length longer =? 0)%nat then 1%float
  else
    let editDistance := calculateLevenshteinDistance longer shorter in
    ((ofNat (String.length longer) - ofNat editDistance)
     / ofNat (String.length longer))%float.

(** [findSimilarKeys(key, threshold)]; [threshold] defaults to 0.8. *)
Definition findSimilarKeys (key : string) (threshold : option number)
           (c : CacheService) : list string :=
  let threshold := default 0.8%float threshold in
  List.filter
    (fun cacheKey =>
       geb (calculateStringSimilarity key cacheKey) threshold
       && negb (String.eqb cacheKey key))
    (keys c).

(** *** Removal *)

(** [del(key)]: the number of entries removed. *)
Definition del (key : string) (c : CacheService) : nat * CacheService :=
  match store c !! key with
  | Some _ =>
      (1%nat, {| store := delete key (store c); defaultTTL := defaultTTL c |})
  | None => (0%nat, c)
  end.

Definition has (key : string) (c : CacheService) : bool :=
  match store c !! key with
  | Some _ => true
  | None => false
  end.

Definition flush (c : CacheService) : CacheService :=
  {| store := ∅; defaultTTL := defaultTTL c |}.

(** [this.cache.del(keys)] for an array of keys: the entries are removed
    one after the other and counted. *)
Fixpoint delMany (keys_ : list string) (c : CacheService)
  : nat * CacheService :=
  match keys_ with
  | [] => (0%nat, c)
  | key :: keys' =>
      let '(n, c1) := del key c in
      let '(m, c2) := delMany keys' c1 in
      ((n + m)%nat, c2)
  end.

Section Patterns.
(** [new RegExp(pattern)]: the [test] method of the expression, or [None]
    when the constructor throws because [pattern] is no regular
    expression. *)
Variable regExp : string -> option (string -> bool).

Definition deletePattern (pattern : string) (c : CacheService)
  : nat * CacheService :=
  let keys_ := keys c in
  match regExp pattern with
  | None => (0%nat, c)
  | Some regex =>
      let matchingKeys := List.filter regex keys_ in
      if (0 <? length matchingKeys)%nat then delMany matchingKeys c
      else (0%nat, c)
  end.
End Patterns.

(** *** Cache warming *)

(** [warmup(keys, dataLoader)]. Every callback of [keys.map] runs up to its
    [await] before any of them resumes, so each [has] reads the cache as it
    is when [warmup] is called and each key that is missing then is loaded.
    The loaded values are stored as the loads settle, here in the order of
    the keys; a load that fails is logged and stores nothing, and the
    promise of [warmup] always resolves. *)
Definition warmup (keys_ : list string)
           (dataLoader : string -> outcome CacheValue) (c : CacheService)
  : CacheService :=
  let missing := List.filter (fun key => negb (has key c)) keys_ in
  fold_left
    (fun c' key =>
       match dataLoader key with
       | Ok data => snd (set key data 0 c')
       | Throw _ => c'
       end)
    missing c.

End Cache.

(** ** The language-model service ([services/ollama.ts]) *)

Module Ollama.
Import Cache.

(** The argument of [ollama.generate]. *)
Record GenerateRequest : Type := mkGenerateRequest {
  gr_model : string;
  gr_prompt : string;
  gr_temperature : number;
  gr_top_p : number;
  gr_num_predict : option number
}.

(** An element of a parsed JSON array, as [parseSynonyms] reads it. *)
Record JsonItem : Type := mkJsonItem {
  ji_word : string;
  ji_confidence : option number
}.

Definition quoted (s : string) : string := dq +:+ s +:+ dq.

Definition lines (ls : list string) : string := String.concat nl ls.

(** *** Prompts *)

Definition contextPart (context : option string) : string :=
  if truthy context
  then nl +:+ "Context: " +:+ quoted (orElse context "")
  else "".

Definition buildSynonymPrompt (word : string) (context : option string)
  : string :=
  lines [
    "You are a linguistic expert. Find synonyms for the word "
      +:+ quoted word +:+ "." +:+ contextPart context;
    "";
    "Instructions:";
    "- Provide 8-12 high-quality synonyms";
    "- Include confidence score (0.0-1.0) for each synonym";
    "- Consider the context if provided";
    "- Format as JSON array with word and confidence";
    "- Only include words that are true synonyms";
    "";
    "Example format:";
    "[";
    "  {" +:+ quoted "word" +:+ ": " +:+ quoted "happy" +:+ ", "
      +:+ quoted "confidence" +:+ ": 0.9},";
    "  {" +:+ quoted "word" +:+ ": " +:+ quoted "joyful" +:+ ", "
      +:+ quoted "confidence" +:+ ": 0.85}";
    "]";
    "";
    "Word: " +:+ quoted word;
    "Synonyms:" ].

Definition buildAntonymPrompt (word : string) (context : option string)
  : string :=
  lines [
    "You are a linguistic expert. Find antonyms for the word "
      +:+ quoted word +:+ "." +:+ contextPart context;
    "";
    "Instructions:";
    "- Provide 6-10 high-quality antonyms";
    "- Include confidence score (0.0-1.0) for each antonym";
    "- Consider the context if provided";
    "- Format as JSON array with word and confidence";
    "- Only include words that are true antonyms";
    "";
    "Example format:";
    "[";
    "  {" +:+ quoted "word" +:+ ": " +:+ quoted "sad" +:+ ", "
      +:+ quoted "confidence" +:+ ": 0.9},";
    "  {" +:+ quoted "word" +:+ ": " +:+ quoted "unhappy" +:+ ", "
      +:+ quoted "confidence" +:+ ": 0.8}";
    "]";
    "";
    "Word: " +:+ quoted word;
    "Antonyms:" ].

Definition buildContextAnalysisPrompt (word context : string) : string :=
  lines [
    "Analyze the contextual meaning of " +:+ quoted word
      +:+ " in this context: " +:+ quoted context;
    "";
    "Instructions:";
    "- Determine the specific meaning in this context";
    "- Identify the domain (if applicable): medical, legal, technical, casual, etc.";
    "- Assess sentiment (-1.0 to 1.0): negative to positive";
    "- Provide 2-3 similar usage examples";
    "- Format as JSON";
    "";
    "Example format:";
    "[";
    "  {";
    "    " +:+ quoted "context" +:+ ": " +:+ quoted "original context" +:+ ",";
    "    " +:+ quoted "meaning" +:+ ": "
      +:+ quoted "specific meaning in this context" +:+ ",";
    "    " +:+ quoted "domain" +:+ ": " +:+ quoted "domain category" +:+ ",";
    "    " +:+ quoted "sentiment" +:+ ": 0.5,";
    "    " +:+ quoted "examples" +:+ ": [" +:+ quoted "example 1" +:+ ", "
      +:+ quoted "example 2" +:+ "]";
    "  }";
    "]";
    "";
    "Analyze:" ].

Definition buildDefinitionPrompt (word : string)
           (partOfSpeech : option string) : string :=
  let posConstraint :=
    if truthy partOfSpeech then " (" +:+ orElse partOfSpeech "" +:+ ")"
    else "" in
  lines [
    "Provide a clear, concise definition for " +:+ quoted word
      +:+ posConstraint +:+ ".";
    "";
    "Instructions:";
    "- Give the most common/primary definition";
    "- Keep it under 50 words";
    "- Be precise and clear";
    "- Do not include examples in the definition";
    "";
    "Word: " +:+ quoted word;
    "Definition:" ].

(** *** Parsing the model's answer *)

Definition isAsciiLetter (c : ascii) : bool :=
  let n := charCode c in
  ((65 <=? n) && (n <=? 90) || (97 <=? n) && (n <=? 122))%nat.

(** The class [[a-zA-Z\s-]]. *)
Definition isWordListChar (c : ascii) : bool :=
  isAsciiLetter c || isWhiteSpace c || Ascii.eqb c "-".

(** The separator class [[,\n]]. *)
Definition isCommaOrNewline (c : ascii) : bool :=
  Ascii.eqb c "," || Ascii.eqb c "010".

(** [/^[a-zA-Z\s-]+$/.test(w)] *)
Definition isWordList (w : string) : bool :=
  negb (isEmpty w) && allChars isWordListChar w.

Definition fallbackParseWords (response : string) : list RelatedWord :=
  let words :=
    firstn 10
      (List.filter (fun w => negb (isEmpty w) && isWordList w)
         (List.map trim (splitBy isCommaOrNewline response))) in
  List.map
    (fun word => {| rw_word := toLowerCase word;
                    rw_confidence := 0.6%float |})
    words.

(** The suffix of [s] that starts at the first occurrence of [c0]. *)
Fixpoint fromFirst (c0 : ascii) (s : string) : option string :=
  match s with
  | EmptyString => None
  | String c s' => if Ascii.eqb c c0 then Some s else fromFirst c0 s'
  end.

(** The longest prefix of [s] that ends with [c0]. *)
Fixpoint uptoLast (c0 : ascii) (s : string) : option string :=
  match s with
  | EmptyString => None
  | String c s' =>
      match uptoLast c0 s' with
      | Some p => Some (String c p)
      | None => if Ascii.eqb c c0 then Some (String c EmptyString) else None
      end
  end.

(** [response.match(/\[[\s\S]*\]/)]: from the first opening bracket to the
    last closing bracket after it. *)
Definition matchJsonArray (response : string) : option string :=
  match fromFirst "[" response with
  | Some (String c rest) => String c <$> uptoLast "]" rest
  | _ => None
  end.

(** [item.confidence || 0.5] *)
Definition confidenceOrDefault (c : option number) : number :=
  match c with
  | Some x => if PrimFloat.eqb x 0 || isNaN x then 0.5%float else x
  | None => 0.5%float
  end.

(** [response.trim().replace(/^Definition:\s*/i, '').split('\n')[0]] *)
Fixpoint stripPrefixCI (prefix s : string) : option string :=
  match prefix, s with
  | EmptyString, _ => Some s
  | String p prefix', String c s' =>
      if Ascii.eqb (toLowerChar c) (toLowerChar p)
      then stripPrefixCI prefix' s'
      else None
  | String _ _, EmptyString => None
  end.

Definition parseDefinition (response : string) : string :=
  let trimmed := trim response in
  let replaced :=
    match stripPrefixCI "Definition:" trimmed with
    | Some rest => trimStart rest
    | None => trimmed
    end in
  first (splitBy (Ascii.eqb "010") replaced).

Definition isWordChar (c : ascii) : bool :=
  let n := charCode c in
  (isAsciiLetter c || (48 <=? n) && (n <=? 57) || (n =? 95))%nat.

Definition partsOfSpeech : list string :=
  [ "noun"; "verb"; "adjective"; "adverb"; "preposition"; "conjunction";
    "interjection" ].

(** One alternative of the pattern, matched at the start of [s] and
    followed by a word boundary. *)
Definition matchesWordAt (s w : string) : bool :=
  match stripPrefixCI w s with
  | Some EmptyString => true
  | Some (String c _) => negb (isWordChar c)
  | None => false
  end.

(** The leftmost match of
    [/\b(noun|verb|adjective|adverb|preposition|conjunction|interjection)\b/i]. *)
Fixpoint searchPartOfSpeech (afterWordChar : bool) (s : string)
  : option string :=
  match s with
  | EmptyString => None
  | String c s' =>
      let here :=
        if afterWordChar then None
        else List.find (matchesWordAt s) partsOfSpeech in
      match here with
      | Some w => Some w
      | None => searchPartOfSpeech (isWordChar c) s'
      end
  end.

Definition extractPartOfSpeech (definition : string) : string :=
  default "unknown" (searchPartOfSpeech false definition).

Definition calculateOverallConfidence (synonyms antonyms : list RelatedWord)
  : number :=
  let allWords := synonyms ++ antonyms in
  if (length allWords =? 0)%nat then 0%float
  else
    let avgConfidence :=
      (fold_left (fun sum word => sum + rw_confidence word) allWords 0
       / ofNat (length allWords))%float in
    (mathRound (avgConfidence * 100) / 100)%float.

(** *** [hashString] *)

Definition toInt32 (z : Z) : Z :=
  let m := (z mod 2 ^ 32)%Z in
  if (2 ^ 31 <=? m)%Z then (m - 2 ^ 32)%Z else m.

(** One iteration: [hash = ((hash << 5) - hash) + char; hash = hash & hash]. *)
Definition hashStep (hash : Z) (c : ascii) : Z :=
  toInt32 (toInt32 (hash * 32) - hash + Z.of_nat (charCode c)).

Fixpoint hashLoop (str : string) (hash : Z) : Z :=
  match str with
  | EmptyString => hash
  | String c str' => hashLoop str' (hashStep hash c)
  end.

Definition digit36 (d : Z) : ascii :=
  if (d <? 10)%Z then ascii_of_nat (48 + Z.to_nat d)
  else ascii_of_nat (87 + Z.to_nat d).

(** [n.toString(36)] for an integer [0 <= n <= 2^31]. *)
Fixpoint toBase36 (fuel : nat) (n : Z) (acc : string) : string :=
  match fuel with
  | O => acc
  | S fuel' =>
      let acc' := String (digit36 (n mod 36)) acc in
      if (n / 36 =? 0)%Z then acc' else toBase36 fuel' (n / 36)%Z acc'
  end.

Definition hashString (str : string) : string :=
  toBase36 7 (Z.abs (hashLoop str 0)) EmptyString.

(** *** The service *)

(** An [async] method: it runs against the shared cache and settles. *)
Definition async (A : Type) : Type :=
  CacheService -> outcome A * CacheService.

(** [Promise.all] over the four settled sub-operations: the values in
    order, or a rejection. When several promises reject, the one that
    rejects first in time wins; the model reports the first in array
    order. *)
Definition promiseAll4 {A B C D} (a : outcome A) (b : outcome B)
           (c : outcome C) (d : outcome D) : outcome (A * B * C * D) :=
  obind a (fun x => obind b (fun y => obind c (fun z => obind d (fun w =>
    Ok (x, y, z, w))))).

Section Service.
(** [OLLAMA_MODEL] and [OLLAMA_EMBEDDING_MODEL], as the constructor
    reads them. *)
Variable languageModel : string.
Variable embeddingModel : string.
(** The model server: [ollama.generate(...)] (its [response] field) and
    [ollama.embeddings(...)] (its [embedding] field). *)
Variable generate : GenerateRequest -> outcome string.
Variable embeddings : string -> string -> outcome (list number).
(** [JSON.parse] on the matched text, read as an array of word items or
    of contextual meanings; [None] when it (or the mapping over its
    result) throws. *)
Variable jsonParseItems : string -> option (list JsonItem).
Variable jsonParseContexts : string -> option (list ContextualMeaning).
(** [ollama.list()], which answers when the model server is reachable. *)
Variable listModels : outcome unit.

Definition parseSynonyms (response : string) : list RelatedWord :=
  match matchJsonArray response with
  | Some text =>
      match jsonParseItems text with
      | Some parsed =>
          List.map
            (fun item => {| rw_word := ji_word item;
                            rw_confidence :=
                              confidenceOrDefault (ji_confidence item) |})
            parsed
      | None => fallbackParseWords response
      end
  | None => fallbackParseWords response
  end.

Definition parseAntonyms (response : string) : list RelatedWord :=
  parseSynonyms response.

Definition parseContextualMeaning (response : string)
  : list ContextualMeaning :=
  match matchJsonArray response with
  | Some text => default [] (jsonParseContexts text)
  | None => []
  end.

(** [cache.get<T>(key)] followed by [if (cached) return cached]: an array
    or an object is truthy, the empty string is not. Entries of another
    shape are never stored under the key prefix of the reader. *)
Definition cachedRelated (key : string) (c : CacheService)
  : option (list RelatedWord) :=
  match Cache.get key c with Some (VRelated ws) => Some ws | _ => None end.

Definition cachedContexts (key : string) (c : CacheService)
  : option (list ContextualMeaning) :=
  match Cache.get key c with Some (VContexts cs) => Some cs | _ => None end.

Definition cachedText (key : string) (c : CacheService) : option string :=
  match Cache.get key c with
  | Some (VText s) => if isEmpty s then None else Some s
  | _ => None
  end.

Definition cachedAnalysis (key : string) (c : CacheService)
  : option WordAnalysis :=
  match Cache.get key c with Some (VAnalysis a) => Some a | _ => None end.

Definition cachedEmbedding (key : string) (c : CacheService)
  : option EmbeddingResult :=
  match Cache.get key c with Some (VEmbedding r) => Some r | _ => None end.

Definition embeddingTTL : Z := 3600.

Definition generateEmbedding (text : string) : async EmbeddingResult :=
  fun c =>
  let cacheKey := "embedding:" +:+ embeddingModel +:+ ":" +:+ text in
  match cachedEmbedding cacheKey c with
  | Some cached => (Ok cached, c)
  | None =>
      match embeddings embeddingModel text with
      | Ok embedding =>
          let result :=
            {| er_embedding := embedding;
               er_dimension := length embedding;
               er_model := embeddingModel |} in
          (Ok result, snd (Cache.set cacheKey (VEmbedding result) embeddingTTL c))
      | Throw error =>
          (Throw (MkError ("Failed to generate embedding: "
                           +:+ errorToString error)), c)
      end
  end.

Definition synonymsKey (word : string) (context : option string) : string :=
  "synonyms:" +:+ word +:+ ":" +:+ orElse context "default".

Definition findSynonyms (word : string) (context : option string)
  : async (list RelatedWord) :=
  fun c =>
  let prompt := buildSynonymPrompt word context in
  let cacheKey := synonymsKey word context in
  match cachedRelated cacheKey c with
  | Some cached => (Ok cached, c)
  | None =>
      match generate {| gr_model := languageModel; gr_prompt := prompt;
                        gr_temperature := 0.3%float; gr_top_p := 0.9%float;
                        gr_num_predict := Some 500%float |} with
      | Ok response =>
          let synonyms := parseSynonyms response in
          (Ok synonyms, snd (Cache.set cacheKey (VRelated synonyms) 1800 c))
      | Throw error =>
          (Throw (MkError ("Failed to find synonyms: "
                           +:+ errorToString error)), c)
      end
  end.

Definition antonymsKey (word : string) (context : option string) : string :=
  "antonyms:" +:+ word +:+ ":" +:+ orElse context "default".

Definition findAntonyms (word : string) (context : option string)
  : async (list RelatedWord) :=
  fun c =>
  let prompt := buildAntonymPrompt word context in
  let cacheKey := antonymsKey word context in
  match cachedRelated cacheKey c with
  | Some cached => (Ok cached, c)
  | None =>
      match generate {| gr_model := languageModel; gr_prompt := prompt;
                        gr_temperature := 0.3%float; gr_top_p := 0.9%float;
                        gr_num_predict := Some 500%float |} with
      | Ok response =>
          let antonyms := parseAntonyms response in
          (Ok antonyms, snd (Cache.set cacheKey (VRelated antonyms) 1800 c))
      | Throw error =>
          (Throw (MkError ("Failed to find antonyms: "
                           +:+ errorToString error)), c)
      end
  end.

Definition contextKey (word context : string) : string :=
  "context:" +:+ word +:+ ":" +:+ hashString context.

Definition analyzeContextualMeaning (word context : string)
  : async (list ContextualMeaning) :=
  fun c =>
  let prompt := buildContextAnalysisPrompt word context in
  let cacheKey := contextKey word context in
  match cachedContexts cacheKey c with
  | Some cached => (Ok cached, c)
  | None =>
      match generate {| gr_model := languageModel; gr_prompt := prompt;
                        gr_temperature := 0.4%float; gr_top_p := 0.8%float;
                        gr_num_predict := None |} with
      | Ok response =>
          let contextualMeanings := parseContextualMeaning response in
          (Ok contextualMeanings,
           snd (Cache.set cacheKey (VContexts contextualMeanings) 2400 c))
      | Throw error =>
          (Throw (MkError ("Failed to analyze contextual meaning: "
                           +:+ errorToString error)), c)
      end
  end.

Definition definitionKey (word : string) (partOfSpeech : option string)
  : string :=
  "definition:" +:+ word +:+ ":" +:+ orElse partOfSpeech "any".

Definition getDefinition (word : string) (partOfSpeech : option string)
  : async string :=
  fun c =>
  let prompt := buildDefinitionPrompt word partOfSpeech in
  let cacheKey := definitionKey word partOfSpeech in
  match cachedText cacheKey c with
  | Some cached => (Ok cached, c)
  | None =>
      match generate {| gr_model := languageModel; gr_prompt := prompt;
                        gr_temperature := 0.2%float; gr_top_p := 0.7%float;
                        gr_num_predict := None |} with
      | Ok response =>
          let definition := parseDefinition response in
          (Ok definition, snd (Cache.set cacheKey (VText definition) 7200 c))
      | Throw error =>
          (Throw (MkError ("Failed to get definition: "
                           +:+ errorToString error)), c)
      end
  end.

Definition analysisKey (word : string) (context : option string) : string :=
  "analysis:" +:+ word +:+ ":" +:+ orElse context "default".

(** The four sub-operations are started together and joined by
    [Promise.all]. Each one reads the cache when it is started and
    writes it when its model call returns; the keys they touch are
    pairwise distinct, so the model runs them one after the other. *)
Definition performComprehensiveAnalysis (word : string)
           (context : option string) : async WordAnalysis :=
  fun c =>
  let cacheKey := analysisKey word context in
  match cachedAnalysis cacheKey c with
  | Some cached => (Ok cached, c)
  | None =>
      let '(synonyms, c1) := findSynonyms word context c in
      let '(antonyms, c2) := findAntonyms word context c1 in
      let '(definition, c3) := getDefinition word None c2 in
      let '(contextualMeanings, c4) :=
        if truthy context
        then analyzeContextualMeaning word (orElse context "") c3
        else (Ok [], c3) in
      match promiseAll4 synonyms antonyms definition contextualMeanings with
      | Ok (synonyms, antonyms, definition, contextualMeanings) =>
          let analysis :=
            {| wa_word := word;
               wa_definition := definition;
               wa_partOfSpeech := extractPartOfSpeech definition;
               wa_synonyms := synonyms;
               wa_antonyms := antonyms;
               wa_contexts := contextualMeanings;
               wa_confidence :=
                 calculateOverallConfidence synonyms antonyms |} in
          (Ok analysis, snd (Cache.set cacheKey (VAnalysis analysis) 1800 c4))
      | Throw error =>
          (Throw (MkError ("Failed to perform comprehensive analysis: "
                           +:+ errorToString error)), c4)
      end
  end.

Definition checkModelAvailability : bool :=
  match listModels with
  | Ok _ => true
  | Throw _ => false
  end.

End Service.

End Ollama.

(** ** The local embedding provider ([services/word2vec.ts]) *)

Module Word2Vec.

(** Of [Word2VecConfig] only [vectorSize] is read outside training. *)
Record Word2VecConfig : Type := mkWord2VecConfig {
  vectorSize : option nat
}.

(** The loaded model is a vocabulary table: [model.getVector(word, cb)]
    calls back with the vector of a word it holds and with an error
    otherwise. *)
Record Word2VecService : Type := mkWord2VecService {
  model : option (gmap string (list number));
  isModelLoaded : bool;
  config : Word2VecConfig
}.

Definition modelName : string := "word2vec".
Definition defaultVectorSize : nat := 300.

(** [new Word2VecService(config)]: the defaults, overridden by [config]. *)
Definition create (config_ : Word2VecConfig) : Word2VecService :=
  {| model := None;
     isModelLoaded := false;
     config := {| vectorSize := Some (default 300%nat (vectorSize config_)) |} |}.

(** The exported singleton, [new Word2VecService()]. *)
Definition word2vecService : Word2VecService :=
  create {| vectorSize := None |}.

Definition notLoadedError : JsError :=
  MkError "Word2Vec model not loaded. Call loadPretrainedModel() first.".

Section Loader.
(** [word2vec.loadModel(path, cb)]: the model stored at [path], or the
    error the loader calls back with. *)
Variable loadModel : string -> outcome (gmap string (list number)).

Definition loadPretrainedModel (modelPath : string) (s : Word2VecService)
  : outcome unit * Word2VecService :=
  match loadModel modelPath with
  | Throw error => (Throw error, s)
  | Ok m =>
      (Ok tt, {| model := Some m; isModelLoaded := true;
                 config := config s |})
  end.
End Loader.

(** [text.toLowerCase().trim().split(' ')[0]] *)
Definition lookupWord (text : string) : string :=
  first (splitBy (Ascii.eqb " ") (trim (toLowerCase text))).

Definition generateEmbedding (text : string) (s : Word2VecService)
  : outcome EmbeddingResult :=
  if negb (isModelLoaded s) then Throw notLoadedError
  else
    let word := lookupWord text in
    match model s with
    | None =>
        Throw (MkError "Cannot read properties of null (reading 'getVector')")
    | Some m =>
        match m !! word with
        | None =>
            let zeroVector := repeat 0%float defaultVectorSize in
            Ok {| er_model := modelName;
                  er_embedding := zeroVector;
                  er_dimension := defaultVectorSize |}
        | Some vector =>
            Ok {| er_model := modelName;
                  er_embedding := vector;
                  er_dimension := length vector |}
        end
    end.

Definition isLoaded (s : Word2VecService) : bool := isModelLoaded s.

Definition getModelName (s : Word2VecService) : string := modelName.

(** [this.config.vectorSize || this.defaultVectorSize] *)
Definition getVectorSize (s : Word2VecService) : nat :=
  match vectorSize (config s) with
  | Some (S n) => S n
  | _ => defaultVectorSize
  end.

End Word2Vec.

(** ** The embedding service ([services/embedding.ts])

    The repository holds two versions of this service: the one that always
    embeds with the model server ([Embedding]), and the one that takes the
    embedding provider as an option ([ProviderEmbedding]). The similarity
    search itself is the same text in both. *)

Module Embedding.
Import Cache.

(** A row of [word_embeddings] with the word it belongs to. *)
Record WordEmbedding : Type := mkWordEmbedding {
  we_wordId : Z;
  we_model : string;
  we_embedding : list number;
  we_dimension : nat;
  we_word : string;
  we_definition : option string;
  we_partOfSpeech : option string
}.

(** [prisma.wordEmbedding.findMany({ where: { model }, ..., take: 1000 })]
    over the stored rows. *)
Definition findMany (model : string) (rows : list WordEmbedding)
  : list WordEmbedding :=
  firstn 1000 (List.filter (fun e => String.eqb (we_model e) model) rows).

Definition score (queryEmbedding : list number) (embedding : WordEmbedding)
  : outcome SemanticSearchResult :=
  obind (calculateCosineSimilarity queryEmbedding (we_embedding embedding))
    (fun similarity =>
       Ok {| ssr_word := we_word embedding;
             ssr_similarity := similarity;
             ssr_definition := we_definition embedding;
             ssr_partOfSpeech := we_partOfSpeech embedding |}).

(** The comparator [(a, b) => b.similarity - a.similarity]. *)
Definition bySimilarityDesc (a b : SemanticSearchResult) : number :=
  (ssr_similarity b - ssr_similarity a)%float.

Definition fallbackSimilaritySearch (queryEmbedding : list number)
           (model : string) (limit threshold : number)
           (rows : list WordEmbedding)
  : outcome (list SemanticSearchResult) :=
  let embeddings := findMany model rows in
  obind (mapThrowing (score queryEmbedding) embeddings) (fun scored =>
    Ok (slice0
          (sort bySimilarityDesc
             (List.filter (fun result => geb (ssr_similarity result) threshold)
                scored))
          limit)).

Section Service.
(** The rows the raw pgvector query answers with (their similarity
    column read by [parseFloat]), or the error it fails with. *)
Variable queryRaw :
  list number -> string -> number -> number ->
  outcome (list SemanticSearchResult).
(** The stored embeddings. *)
Variable rows : list WordEmbedding.
(** A number inside a template literal. *)
Variable numberToString : number -> string.
(** The model server behind [ollamaService]. *)
Variable embeddingModel : string.
Variable embeddings : string -> string -> outcome (list number).

Definition findSimilarEmbeddings (queryEmbedding : list number)
           (model : string) (limit threshold : number)
  : outcome (list SemanticSearchResult) :=
  match queryRaw queryEmbedding model threshold limit with
  | Ok results => Ok results
  | Throw _ =>
      fallbackSimilaritySearch queryEmbedding model limit threshold rows
  end.

Definition searchTTL : Z := 1800.

Definition cachedSearch (key : string) (c : CacheService)
  : option (list SemanticSearchResult) :=
  match Cache.get key c with Some (VSearch rs) => Some rs | _ => None end.

Definition failedToFind (error : JsError) : JsError :=
  MkError ("Failed to find similar words: " +:+ errorToString error).

(** [findSimilarWords(queryText, limit = 10, threshold = 0.7)] *)
Definition searchKey (queryText : string) (limit threshold : number)
  : string :=
  "semantic_search:" +:+ queryText +:+ ":" +:+ numberToString limit
    +:+ ":" +:+ numberToString threshold.

Definition findSimilarWords (queryText : string)
           (limit threshold : option number)
  : Ollama.async (list SemanticSearchResult) :=
  fun c =>
  let limit := default 10%float limit in
  let threshold := default 0.7%float threshold in
  let cacheKey := searchKey queryText limit threshold in
  match cachedSearch cacheKey c with
  | Some cached => (Ok cached, c)
  | None =>
      match Ollama.generateEmbedding embeddingModel embeddings queryText c with
      | (Throw error, c1) => (Throw (failedToFind error), c1)
      | (Ok queryEmbedding, c1) =>
          match findSimilarEmbeddings (er_embedding queryEmbedding)
                  (er_model queryEmbedding) limit threshold with
          | Throw error => (Throw (failedToFind error), c1)
          | Ok similarWords =>
              (Ok similarWords,
               snd (Cache.set cacheKey (VSearch similarWords) searchTTL c1))
          end
      end
  end.

End Service.

(** *** Batches of words to embed *)

(** An element of the [words] argument of [batchGenerateEmbeddings]. *)
Record WordInput : Type := mkWordInput {
  wi_id : Z;
  wi_word : string;
  wi_definition : option string
}.

Definition batchSize : nat := 10.

(** [xs.slice(start, end)] for indices [0 <= start <= end]. *)
Definition slice {A} (xs : list A) (start end_ : nat) : list A :=
  firstn (end_ - start) (skipn start xs).

(** The loop [for (let i = 0; i < words.length; i += batchSize)
    batches.push(words.slice(i, i + batchSize))] from the index [i] on, run
    for [fuel] iterations at most. *)
Fixpoint batchesFrom {A} (fuel i : nat) (words : list A) : list (list A) :=
  match fuel with
  | O => []
  | S fuel' =>
      if (i <? length words)%nat
      then slice words i (i + batchSize)
           :: batchesFrom fuel' (i + batchSize) words
      else []
  end.

(** The index grows by [batchSize] at each iteration, so the loop ends
    within [words.length] iterations. *)
Definition batches {A} (words : list A) : list (list A) :=
  batchesFrom (length words) 0 words.

(** [word.definition ? `${word.word}: ${word.definition}` : word.word] *)
Definition embeddingText (word : WordInput) : string :=
  if truthy (wi_definition word)
  then wi_word word +:+ ": " +:+ orElse (wi_definition word) ""
  else wi_word word.

End Embedding.

(** ** The embedding service with selectable providers *)

Module ProviderEmbedding.
Import Cache Embedding.

(** ['ollama' | 'word2vec']; a value outside the declared type reaches the
    [default] branches. *)
Inductive EmbeddingProvider : Type :=
| ollama
| word2vec
| otherProvider (name : string).

Definition providerName (p : EmbeddingProvider) : string :=
  match p with
  | ollama => "ollama"
  | word2vec => "word2vec"
  | otherProvider name => name
  end.

Record EmbeddingOptions : Type := mkEmbeddingOptions {
  provider : EmbeddingProvider;
  model : option string
}.

Definition defaultOptions : EmbeddingOptions :=
  {| provider := ollama; model := None |}.

Section Service.
Variable queryRaw :
  list number -> string -> number -> number ->
  outcome (list SemanticSearchResult).
Variable rows : list WordEmbedding.
Variable numberToString : number -> string.
Variable embeddingModel : string.
Variable embeddings : string -> string -> outcome (list number).

(** The private [generateEmbedding(text, options)]. [ollamaService]'s
    method takes the text alone, so the model option passed to it has no
    effect there. *)
Definition generateEmbedding (text : string) (options : EmbeddingOptions)
           (w2v : Word2Vec.Word2VecService)
  : Ollama.async EmbeddingResult :=
  fun c =>
  match provider options with
  | ollama => Ollama.generateEmbedding embeddingModel embeddings text c
  | word2vec =>
      if negb (Word2Vec.isLoaded w2v)
      then (Throw (MkError
                     "Word2Vec model not loaded. Please load a model first."), c)
      else (Word2Vec.generateEmbedding text w2v, c)
  | otherProvider name =>
      (Throw (MkError ("Unsupported embedding provider: " +:+ name)), c)
  end.

Definition searchKey (queryText : string) (limit threshold : number)
           (options : EmbeddingOptions) : string :=
  "semantic_search:" +:+ queryText +:+ ":" +:+ numberToString limit
    +:+ ":" +:+ numberToString threshold
    +:+ ":" +:+ providerName (provider options)
    +:+ ":" +:+ orElse (model options) "default".

(** [findSimilarWords(queryText, limit = 10, threshold = 0.7,
    options = { provider: 'ollama' })] *)
Definition findSimilarWords (queryText : string)
           (limit threshold : option number)
           (options : option EmbeddingOptions)
           (w2v : Word2Vec.Word2VecService)
  : Ollama.async (list SemanticSearchResult) :=
  fun c =>
  let limit := default 10%float limit in
  let threshold := default 0.7%float threshold in
  let options := default defaultOptions options in
  let cacheKey := searchKey queryText limit threshold options in
  match cachedSearch cacheKey c with
  | Some cached => (Ok cached, c)
  | None =>
      match generateEmbedding queryText options w2v c with
      | (Throw error, c1) => (Throw (failedToFind error), c1)
      | (Ok queryEmbedding, c1) =>
          match findSimilarEmbeddings queryRaw rows
                  (er_embedding queryEmbedding)
                  (er_model queryEmbedding) limit threshold with
          | Throw error => (Throw (failedToFind error), c1)
          | Ok similarWords =>
              (Ok similarWords,
               snd (Cache.set cacheKey (VSearch similarWords) searchTTL c1))
          end
      end
  end.

End Service.

Definition getAvailableProviders : list EmbeddingProvider :=
  [ollama; word2vec].

Definition isProviderAvailable (provider : EmbeddingProvider)
           (w2v : Word2Vec.Word2VecService) : bool :=
  match provider with
  | ollama => true
  | word2vec => Word2Vec.isLoaded w2v
  | otherProvider _ => false
  end.

End ProviderEmbedding.

(** ** The document store ([services/mongodb.ts]) *)

Module Mongo.
Local Open Scope float_scope.

(** A document of the [word_embeddings] collection. *)
Record WordEmbeddingDocument : Type := mkWordEmbeddingDocument {
  wed_word : string;
  wed_model : string;
  wed_embedding : list number;
  wed_dimension : nat
}.

Record SimilarWord : Type := mkSimilarWord {
  sw_word : string;
  sw_similarity : number
}.

(** [MongoDBService.calculateCosineSimilarity]: vectors of different
    lengths have similarity 0. *)
Definition calculateCosineSimilarity (vecA vecB : list number) : number :=
  if negb (Nat.eqb (length vecA) (length vecB)) then 0
  else
    let '(dotProduct, normA, normB) := accumulate vecA vecB 0 0 0 in
    let normA := sqrt normA in
    let normB := sqrt normB in
    if PrimFloat.eqb normA 0 || PrimFloat.eqb normB 0 then 0
    else dotProduct / (normA * normB).

(** [findSimilarWords(queryEmbedding, model, limit = 10, threshold = 0.7)]
    over the documents of the collection:
    [find({ model }).limit(1000).toArray()], then the same pipeline as the
    brute-force search of the embedding service. *)
Definition findSimilarWords (queryEmbedding : list number) (model : string)
           (limit threshold : option number)
           (documents : list WordEmbeddingDocument) : list SimilarWord :=
  let limit := default 10 limit in
  let threshold := default 0.7 threshold in
  let embeddings :=
    firstn 1000
      (List.filter (fun doc => String.eqb (wed_model doc) model) documents) in
  slice0
    (sort (fun a b => sw_similarity b - sw_similarity a)
       (List.filter (fun result => geb (sw_similarity result) threshold)
          (List.map
             (fun doc =>
                {| sw_word := wed_word doc;
                   sw_similarity :=
                     calculateCosineSimilarity queryEmbedding
                       (wed_embedding doc) |})
             embeddings)))
    limit.

End Mongo.

(** * Notions used by the specification *)

(** ** Tokens, prefixes and character classes *)

(** The longest prefix of [s] that holds no character satisfying [p]. *)
Fixpoint untilChar (p : ascii -> bool) (s : string) : string :=
  match s with
  | EmptyString => EmptyString
  | String c s' => if p c then EmptyString else String c (untilChar p s')
  end.

(** The first whitespace-delimited token of a text. *)
Definition firstWhitespaceToken (s : string) : string :=
  untilChar isWhiteSpace (trimStart s).

(** The first token of the trimmed text when only the space character
    U+0020 delimits tokens. *)
Definition firstSpaceToken (s : string) : string :=
  untilChar (Ascii.eqb " ") (trim s).

(** The operation prefix of a key: the text before its first colon. *)
Definition operationPrefix (key : string) : string :=
  untilChar (Ascii.eqb ":") key.

(** [part] starts [s]. *)
Fixpoint isPrefixOf (part s : string) : bool :=
  match part, s with
  | EmptyString, _ => true
  | String a part', String b s' => Ascii.eqb a b && isPrefixOf part' s'
  | String _ _, EmptyString => false
  end.

(** [part] occurs in [s]. *)
Fixpoint isInfixOf (part s : string) : bool :=
  isPrefixOf part s
  || match s with
     | EmptyString => false
     | String _ s' => isInfixOf part s'
     end.

(** A letter, the space character or a hyphen. *)
Definition isLetterSpaceHyphen (c : ascii) : bool :=
  Ollama.isAsciiLetter c || Ascii.eqb c " " || Ascii.eqb c "-".

Definition isLowerLetter (c : ascii) : bool :=
  ((97 <=? charCode c) && (charCode c <=? 122))%nat.

(** A lowercase letter, a whitespace character or a hyphen. *)
Definition isLowerWhitespaceHyphen (c : ascii) : bool :=
  isLowerLetter c || isWhiteSpace c || Ascii.eqb c "-".

(** The horizontal tab, as a one-character string. *)
Definition tab : string := String "009" EmptyString.

(** Decimal digits of a natural number, most significant first. *)
Fixpoint digitsOf (fuel : nat) (n : Z) (acc : string) : string :=
  match fuel with
  | O => acc
  | S fuel' =>
      let acc' := String (ascii_of_nat (48 + Z.to_nat (n mod 10))) acc in
      if (n / 10 =? 0)%Z then acc' else digitsOf fuel' (n / 10)%Z acc'
  end.

(** How JavaScript prints a number whose value is an integer below 10^21;
    it stands for the number printer in the examples, which print such
    numbers only. *)
Definition showInteger (x : number) : string :=
  match toIntegerOrInfinity x with
  | Finite k =>
      if (k <? 0)%Z then "-" +:+ digitsOf 21 (- k) EmptyString
      else digitsOf 21 k EmptyString
  | PosInfinity => "Infinity"
  | NegInfinity => "-Infinity"
  end.

(** ** Providers *)

(** The states the exported [word2vecService] can be in: as constructed, and
    after any number of calls of [loadPretrainedModel]. *)
Inductive reachable (loadModel : string -> outcome (gmap string (list number)))
  : Word2Vec.Word2VecService -> Prop :=
| reachable_new : reachable loadModel Word2Vec.word2vecService
| reachable_load (modelPath : string) (s : Word2Vec.Word2VecService) :
    reachable loadModel s ->
    reachable loadModel (snd (Word2Vec.loadPretrainedModel loadModel modelPath s)).

(** What is currently the case for a provider: the model server answers,
    or the local service holds a model. *)
Definition currentlyAvailable (serverAnswers : bool)
           (w2v : Word2Vec.Word2VecService)
           (p : ProviderEmbedding.EmbeddingProvider) : bool :=
  match p with
  | ProviderEmbedding.ollama => serverAnswers
  | ProviderEmbedding.word2vec => bool_decide (is_Some (Word2Vec.model w2v))
  | ProviderEmbedding.otherProvider _ => false
  end.

(** The providers of the declared type ['ollama' | 'word2vec']. *)
Definition declaredProvider (p : ProviderEmbedding.EmbeddingProvider) : Prop :=
  p = ProviderEmbedding.ollama \/ p = ProviderEmbedding.word2vec.

(** ** Cache entries and sub-operations *)

(** The entry under [key] holds [v] with time to live [seconds]. *)
Definition storedWith (key : string) (v : CacheValue) (seconds : Z)
           (c : Cache.CacheService) : Prop :=
  Cache.store c !! key = Some (Cache.mkEntry v seconds).

(** A sub-operation fails when its promise is rejected. *)
Definition rejected {A} (o : outcome A) : bool :=
  match o with
  | Ok _ => false
  | Throw _ => true
  end.

(** The contextual-meaning sub-operation as the analysis issues it: a model
    call when a context is given, an already resolved empty list otherwise. *)
Definition contextualPart (languageModel : string)
           (generate : Ollama.GenerateRequest -> outcome string)
           (jsonParseContexts : string -> option (list ContextualMeaning))
           (word : string) (context : option string)
  : Ollama.async (list ContextualMeaning) :=
  fun c =>
  if truthy context
  then Ollama.analyzeContextualMeaning languageModel generate jsonParseContexts
         word (orElse context "") c
  else (Ok [], c).

(** ** Vectors *)

(** The value [calculateCosineSimilarity] returns when it does not throw. *)
Definition cosineValue (vecA vecB : list number) : number :=
  let '(dotProduct, normA, normB) :=
    Cosine.accumulate vecA vecB 0%float 0%float 0%float in
  let normA := PrimFloat.sqrt normA in
  let normB := PrimFloat.sqrt normB in
  if PrimFloat.eqb normA 0 || PrimFloat.eqb normB 0 then 0%float
  else (dotProduct / (normA * normB))%float.

(** A vector all of whose components are zero ([x === 0]). *)
Definition allZero (v : list number) : bool :=
  forallb (fun x => PrimFloat.eqb x 0) v.

(** The sum of the squares of the components, accumulated from the left as
    the loop does. *)
Definition sumOfSquares (v : list number) : number :=
  fold_left (fun norm x => (norm + x * x)%float) v 0%float.

(** The dot product the loop accumulates. *)
Definition dotProduct (vecA vecB : list number) : number :=
  fst (fst (Cosine.accumulate vecA vecB 0%float 0%float 0%float)).

(** A stored vector whose length differs from the query vector's. *)
Definition dimensionMismatch (queryEmbedding : list number)
           (e : Embedding.WordEmbedding) : bool :=
  negb (Nat.eqb (length queryEmbedding) (length (Embedding.we_embedding e))).

(** The scored row of a stored vector of the right length. *)
Definition scored (queryEmbedding : list number) (e : Embedding.WordEmbedding)
  : SemanticSearchResult :=
  {| ssr_word := Embedding.we_word e;
     ssr_similarity := cosineValue queryEmbedding (Embedding.we_embedding e);
     ssr_definition := Embedding.we_definition e;
     ssr_partOfSpeech := Embedding.we_partOfSpeech e |}.

(** ** Edit distance *)

(** [edits s t n]: [s] is turned into [t] by single-character deletions,
    insertions and substitutions, [n] of them in all. *)
Inductive edits : string -> string -> nat -> Prop :=
| edits_done : edits EmptyString EmptyString 0
| edits_delete (a : ascii) (s t : string) (n : nat) :
    edits s t n -> edits (String a s) t (S n)
| edits_insert (b : ascii) (s t : string) (n : nat) :
    edits s t n -> edits s (String b t) (S n)
| edits_keep (a : ascii) (s t : string) (n : nat) :
    edits s t n -> edits (String a s) (String a t) n
| edits_substitute (a b : ascii) (s t : string) (n : nat) :
    edits s t n -> edits (String a s) (String b t) (S n).

(** [d] is the Levenshtein distance of [s] and [t]: the least number of
    edits that turn [s] into [t]. *)
Definition levenshteinDistance (s t : string) (d : nat) : Prop :=
  edits s t d /\ forall n, edits s t n -> (d <= n)%nat.

(** The textbook recursion, on the first characters. *)
Fixpoint lev (s t : string) : nat :=
  match s with
  | EmptyString => String.length t
  | String a s' =>
      (fix inner (t : string) : nat :=
         match t with
         | EmptyString => S (String.length s')
         | String b t' =>
             Nat.min (Nat.min (lev s' t + 1) (inner t' + 1))
                     (lev s' t' + (if Ascii.eqb a b then 0 else 1))
         end) t
  end.

Fixpoint reverseOnto (s acc : string) : string :=
  match s with
  | EmptyString => acc
  | String c s' => reverseOnto s' (String c acc)
  end.

Definition reverse (s : string) : string := reverseOnto s EmptyString.

(** The row of the matrix that belongs to a prefix of [str2], [p2] being
    that prefix reversed: one cell per prefix of [str1], [acc] being the
    prefix of [str1] read so far, reversed, and [s] the rest of [str1]. *)
Fixpoint specRow (s acc p2 : string) : list nat :=
  lev acc p2 ::
  match s with
  | EmptyString => []
  | String c s' => specRow s' (String c acc) p2
  end.

(** ** The order of floating-point numbers *)

(** A result that is above zero: [0 < r]. *)
Definition SFpositive (r : spec_float) : bool :=
  match r with
  | S754_finite false _ _ | S754_infinity false => true
  | _ => false
  end.

(** The integer a finite float stands for over the exponent [ez]. *)
Definition alignedValue (ez : Z) (s : bool) (m : positive) (e : Z) : Z :=
  cond_Zopp s (Z.pos (fst (shl_align m e ez))).

(** A position on the number line that grows with the float. *)
Definition rank (x : spec_float) : Z :=
  match x with
  | S754_zero _ => 0
  | S754_nan => 0
  | S754_infinity s => cond_Zopp s ((emax - emin + 1) * 2 ^ prec)
  | S754_finite s m e => cond_Zopp s ((e - emin) * 2 ^ prec + Z.pos m)
  end.

(** [x] is a number, not [NaN]. *)
Definition isNumber (x : number) : Prop := Prim2SF x <> S754_nan.

(** ** The real value of a floating-point number *)

Module Dyadic.
Import Reals.
Local Open Scope R_scope.

(** The real number [m * 2^e]. *)
Definition F2R (m e : Z) : R := IZR m * powerRZ 2 e.

(** The relative error of one rounding in the normal range, [2^-52]. *)
Definition eps : R := powerRZ 2 (-52).

End Dyadic.

(** ** Rounding to nearest *)

(** Where a remainder [rem] of a division by [unit] lies: at 0, below the
    middle, at the middle or above it. *)
Definition locationOf (rem unit : Z) : location :=
  if (rem =? 0)%Z then loc_Exact else loc_Inexact (2 * rem ?= unit)%Z.

(** [mrs] holds the integer [N] shifted right by [k] bits: its quotient by
    [2^k] and the place of the remainder. *)
Definition shifted (N k : Z) (mrs : shr_record) : Prop :=
  shr_m mrs = (N / 2 ^ k)%Z
  /\ loc_of_shr_record mrs = locationOf (N mod 2 ^ k) (2 ^ k).

(** ** The reference pipeline of the brute-force search *)

(** At most [limit] elements of [xs], from the front. *)
Definition atMost {A} (limit : number) (xs : list A) : list A :=
  match toIntegerOrInfinity limit with
  | NegInfinity => []
  | Finite k => firstn (Z.to_nat k) xs
  | PosInfinity => xs
  end.

(** Insertion into a list in descending order of similarity; an entry goes
    behind the entries of greater similarity and in front of the others. *)
Fixpoint insertDescending (x : SemanticSearchResult)
         (sorted : list SemanticSearchResult) : list SemanticSearchResult :=
  match sorted with
  | [] => [x]
  | y :: ys =>
      if PrimFloat.ltb (ssr_similarity x) (ssr_similarity y)
      then y :: insertDescending x ys
      else x :: y :: ys
  end.

Definition sortDescending (xs : list SemanticSearchResult)
  : list SemanticSearchResult :=
  fold_right insertDescending [] xs.

(** The pipeline of the specification: the stored vectors of the model,
    1000 at most; the cosine similarity of the query against each; those of
    similarity at least [threshold]; in descending order of similarity; at
    most [limit] of them. *)
Definition referenceSearch (queryEmbedding : list number) (model : string)
           (limit threshold : number) (rows : list Embedding.WordEmbedding)
  : outcome (list SemanticSearchResult) :=
  let stored :=
    firstn 1000
      (List.filter (fun e => String.eqb (Embedding.we_model e) model) rows) in
  obind
    (mapThrowing
       (fun e =>
          obind (calculateCosineSimilarity queryEmbedding
                   (Embedding.we_embedding e))
            (fun similarity =>
               Ok {| ssr_word := Embedding.we_word e;
                     ssr_similarity := similarity;
                     ssr_definition := Embedding.we_definition e;
                     ssr_partOfSpeech := Embedding.we_partOfSpeech e |}))
       stored)
    (fun scoredRows =>
       let kept :=
         List.filter
           (fun r => PrimFloat.leb threshold (ssr_similarity r)) scoredRows in
       Ok (atMost limit (sortDescending kept))).

(** The similarity of [r] is a number. *)
Definition numbered (r : SemanticSearchResult) : Prop :=
  isNumber (ssr_similarity r).

(** [a] is at least as similar as [b]. *)
Definition atLeastAsSimilar (a b : SemanticSearchResult) : Prop :=
  PrimFloat.leb (ssr_similarity b) (ssr_similarity a) = true.

(** ** Cache warming *)

(** What [dataLoader] makes of a key: the entry stored for it. *)
Definition loadedEntry (dataLoader : string -> outcome CacheValue)
           (seconds : Z) (key : string) : option Cache.Entry :=
  match dataLoader key with
  | Ok data => Some (Cache.mkEntry data seconds)
  | Throw _ => None
  end.

(** One step of [warmup]: the loader's answer for a missing key is stored;
    a failure of the loader is logged and leaves the cache alone. *)
Definition warmStep (dataLoader : string -> outcome CacheValue)
           (c' : Cache.CacheService) (key : string) : Cache.CacheService :=
  match dataLoader key with
  | Ok data => snd (Cache.set key data 0 c')
  | Throw _ => c'
  end.

(** ** The hash of a context *)

(** The digits of base 36: [0-9] and [a-z]. *)
Definition isBase36Digit (c : ascii) : bool :=
  let n := charCode c in
  ((48 <=? n) && (n <=? 57) || (97 <=? n) && (n <=? 122))%nat.

Definition digitValue (c : ascii) : Z :=
  let n := Z.of_nat (charCode c) in
  if (n <? 58)%Z then (n - 48)%Z else (n - 87)%Z.

(** The number a string of base-36 digits stands for, [acc] being the
    number read so far. *)
Fixpoint fromBase36 (s : string) (acc : Z) : Z :=
  match s with
  | EmptyString => acc
  | String c s' => fromBase36 s' (acc * 36 + digitValue c)%Z
  end.

(** The polynomial [c0 * 31^(n-1) + c1 * 31^(n-2) + ... + c(n-1)] of the
    character codes of a string, by Horner's rule from [acc]; no
    wrap-around. *)
Fixpoint polynomial31 (str : string) (acc : Z) : Z :=
  match str with
  | EmptyString => acc
  | String c str' => polynomial31 str' (31 * acc + Z.of_nat (charCode c))%Z
  end.

(** ** Requests to the language model *)

(** The requests the service sends to the language model. *)
Definition synonymRequest (languageModel word : string)
           (context : option string) : Ollama.GenerateRequest :=
  {| Ollama.gr_model := languageModel;
     Ollama.gr_prompt := Ollama.buildSynonymPrompt word context;
     Ollama.gr_temperature := 0.3%float;
     Ollama.gr_top_p := 0.9%float;
     Ollama.gr_num_predict := Some 500%float |}.

Definition antonymRequest (languageModel word : string)
           (context : option string) : Ollama.GenerateRequest :=
  {| Ollama.gr_model := languageModel;
     Ollama.gr_prompt := Ollama.buildAntonymPrompt word context;
     Ollama.gr_temperature := 0.3%float;
     Ollama.gr_top_p := 0.9%float;
     Ollama.gr_num_predict := Some 500%float |}.

Definition definitionRequest (languageModel word : string)
           (partOfSpeech : option string) : Ollama.GenerateRequest :=
  {| Ollama.gr_model := languageModel;
     Ollama.gr_prompt := Ollama.buildDefinitionPrompt word partOfSpeech;
     Ollama.gr_temperature := 0.2%float;
     Ollama.gr_top_p := 0.7%float;
     Ollama.gr_num_predict := None |}.

Definition contextRequest (languageModel word context : string)
  : Ollama.GenerateRequest :=
  {| Ollama.gr_model := languageModel;
     Ollama.gr_prompt := Ollama.buildContextAnalysisPrompt word context;
     Ollama.gr_temperature := 0.4%float;
     Ollama.gr_top_p := 0.8%float;
     Ollama.gr_num_predict := None |}.

(** The error an operation throws when its call of the model fails. *)
Definition failureOf (what : string) (cause : JsError) : JsError :=
  MkError ("Failed to " +:+ what +:+ ": " +:+ errorToString cause).

(** ** A cache at its limit *)

(** [n] times the letter k. *)
Fixpoint unaryKey (n : nat) : string :=
  match n with
  | O => EmptyString
  | S n' => String "k" (unaryKey n')
  end.

(** A cache that holds [Cache.maxKeys] entries. *)
Definition fullCache : Cache.CacheService :=
  {| Cache.store :=
       list_to_map
         (List.map (fun n => (unaryKey n, Cache.mkEntry (VText "held") 60))
            (seq 0 Cache.maxKeys));
     Cache.defaultTTL := 3600 |}.

(** * Properties *)

(** ** Strings *)

Lemma append_inj_l (p a b : string) : p +:+ a = p +:+ b -> a = b.
Proof.
  induction p as [|c p IH]; simpl; intros H; [exact H|].
  injection H as H. auto.
Qed.

(** ** Cache keys of the sub-operations *)

Section CacheKeys.
Import Ollama.

(** C6, as stated, fails: for the word "happy" the synonym request without
    a context and the one with the context "default" are cached under the
    same key. *)
Lemma no_context_collides_with_default :
  ~ (synonymsKey "happy" None <> synonymsKey "happy" (Some "default")).
Proof. intros H. apply H. reflexivity. Qed.

(** C6 (amended): a missing context is keyed as the context "default", for
    every word and every keyed operation; apart from that substitution
    the key of a word determines the context, so two requests for one word
    share a key exactly when their contexts, after the substitution, are
    the same string. *)
Theorem context_key_policy (word : string) (c1 c2 : option string) :
  synonymsKey word None = synonymsKey word (Some "default")
  /\ antonymsKey word None = antonymsKey word (Some "default")
  /\ analysisKey word None = analysisKey word (Some "default")
  /\ (synonymsKey word c1 = synonymsKey word c2
      <-> orElse c1 "default" = orElse c2 "default")
  /\ (antonymsKey word c1 = antonymsKey word c2
      <-> orElse c1 "default" = orElse c2 "default")
  /\ (analysisKey word c1 = analysisKey word c2
      <-> orElse c1 "default" = orElse c2 "default").
Proof.
  unfold synonymsKey, antonymsKey, analysisKey.
  repeat split; try reflexivity; intros H;
    try (rewrite H; reflexivity);
    repeat (apply append_inj_l in H); exact H.
Qed.

End CacheKeys.

(** ** The local embedding provider *)

Section Word2VecProperties.
Import Word2Vec.
Variable loadModel : string -> outcome (gmap string (list number)).

Lemma first_splitBy (sep : ascii -> bool) (s : string) :
  first (splitBy sep s) = untilChar sep s.
Proof.
  induction s as [|c s IH]; simpl; [reflexivity|].
  destruct (sep c); [reflexivity|].
  destruct (splitBy sep s) as [|w ws]; simpl in *; congruence.
Qed.

Lemma lookupWord_spec (text : string) :
  lookupWord text = firstSpaceToken (toLowerCase text).
Proof. apply first_splitBy. Qed.

(** The flag and the model go together, and the configuration stays the
    one of the constructor. *)
Lemma reachable_inv (s : Word2VecService) :
  reachable loadModel s ->
  (isModelLoaded s = true <-> is_Some (model s))
  /\ (isModelLoaded s = false <-> model s = None)
  /\ config s = config word2vecService.
Proof.
  induction 1 as [|modelPath s Hs IH].
  - split; [|split]; simpl.
    + split; [discriminate|]. intros [m Hm]; discriminate.
    + split; reflexivity.
    + reflexivity.
  - unfold loadPretrainedModel. destruct (loadModel modelPath); simpl; [|exact IH].
    split; [|split]; [| |apply IH].
    + split; eauto.
    + split; discriminate.
Qed.

(** C8, as stated, fails: with "big" in the vocabulary, the first
    whitespace-delimited token of the lowercased text "Big<TAB>cat" is
    "big", yet the word looked up is "big<TAB>cat" and the zero vector is
    returned. *)
Lemma tab_is_not_a_delimiter :
  let m : gmap string (list number) := {[ "big" := [1%float] ]} in
  let s := {| model := Some m; isModelLoaded := true;
              config := config word2vecService |} in
  let text := "Big" +:+ tab +:+ "cat" in
  m !! firstWhitespaceToken (toLowerCase text) = Some [1%float]
  /\ lookupWord text <> firstWhitespaceToken (toLowerCase text)
  /\ generateEmbedding text s
     = Ok {| er_model := "word2vec";
             er_embedding := repeat 0%float 300;
             er_dimension := 300 |}.
Proof.
  split; [|split].
  - vm_compute. reflexivity.
  - vm_compute. discriminate.
  - vm_compute. reflexivity.
Qed.

(** C8 (amended): before a model is loaded [generateEmbedding] fails with
    the model-not-loaded error. Once one is loaded, the word looked up is
    the first token of the lowercased and trimmed text, tokens being
    delimited by the space character only; a word of the vocabulary gets
    its stored vector, and any other word gets the all-zero vector of the
    configured dimension (300) instead of an error. *)
Theorem word2vec_generateEmbedding (s : Word2VecService) (text : string) :
  reachable loadModel s ->
  match model s with
  | None => generateEmbedding text s = Throw notLoadedError
  | Some m =>
      lookupWord text = firstSpaceToken (toLowerCase text)
      /\ getVectorSize s = 300%nat
      /\ generateEmbedding text s =
         Ok (match m !! firstSpaceToken (toLowerCase text) with
             | Some vector =>
                 {| er_model := "word2vec";
                    er_embedding := vector;
                    er_dimension := length vector |}
             | None =>
                 {| er_model := "word2vec";
                    er_embedding := repeat 0%float (getVectorSize s);
                    er_dimension := getVectorSize s |}
             end)
  end.
Proof.
  intros Hs. destruct (reachable_inv s Hs) as (Hloaded & Hnot & Hcfg).
  assert (Hsize : getVectorSize s = 300%nat)
    by (unfold getVectorSize; rewrite Hcfg; reflexivity).
  unfold generateEmbedding. destruct (model s) as [m|] eqn:Hm.
  - assert (Hl : isModelLoaded s = true) by (apply Hloaded; eauto).
    rewrite Hl, Hsize, <- lookupWord_spec. simpl.
    split; [reflexivity|]. split; [reflexivity|].
    destruct (m !! lookupWord text); reflexivity.
  - assert (Hl : isModelLoaded s = false) by (apply Hnot; reflexivity).
    rewrite Hl. reflexivity.
Qed.

End Word2VecProperties.

(** The theorem at the singleton after one successful load of a one-word
    vocabulary. *)
Lemma word2vec_generateEmbedding_witness :
  let load := fun _ : string =>
    Ok ({[ "cat" := [1%float; 2%float] ]} : gmap string (list number)) in
  let s := snd (Word2Vec.loadPretrainedModel load "model.bin"
                  Word2Vec.word2vecService) in
  reachable load s
  /\ match Word2Vec.model s with
     | None => Word2Vec.generateEmbedding "Dog house" s
               = Throw Word2Vec.notLoadedError
     | Some m =>
         Word2Vec.lookupWord "Dog house"
         = firstSpaceToken (toLowerCase "Dog house")
         /\ Word2Vec.getVectorSize s = 300%nat
         /\ Word2Vec.generateEmbedding "Dog house" s =
            Ok (match m !! firstSpaceToken (toLowerCase "Dog house") with
                | Some vector =>
                    {| er_model := "word2vec";
                       er_embedding := vector;
                       er_dimension := length vector |}
                | None =>
                    {| er_model := "word2vec";
                       er_embedding := repeat 0%float (Word2Vec.getVectorSize s);
                       er_dimension := Word2Vec.getVectorSize s |}
                end)
     end.
Proof.
  intros load s.
  assert (Hs : reachable load s) by (apply reachable_load, reachable_new).
  split; [exact Hs|].
  exact (word2vec_generateEmbedding load s "Dog house" Hs).
Defined.

(** ** Provider availability *)

Section ProviderAvailability.
Import Word2Vec ProviderEmbedding.
Variable loadModel : string -> outcome (gmap string (list number)).

(** C9, as stated, fails: with the model server refusing connections, so
    that [checkModelAvailability] answers false, the provider ['ollama'] is
    still reported available. *)
Lemma ollama_reported_available_when_unreachable :
  let refused : outcome unit :=
    Throw (MkError "connect ECONNREFUSED 127.0.0.1:11434") in
  ~ (isProviderAvailable ollama word2vecService
     = currentlyAvailable (Ollama.checkModelAvailability refused)
         word2vecService ollama).
Proof. vm_compute. discriminate. Qed.

(** C9 (amended): for the local provider the answer is the current state,
    true exactly when the service holds a loaded model; for the model-server
    provider the answer is always true, whether or not the server can be
    reached; for any other provider it is false. *)
Theorem provider_availability (s : Word2VecService) :
  reachable loadModel s ->
  (isProviderAvailable word2vec s = true <-> is_Some (Word2Vec.model s))
  /\ isProviderAvailable word2vec s = currentlyAvailable true s word2vec
  /\ isProviderAvailable word2vec s = currentlyAvailable false s word2vec
  /\ isProviderAvailable ollama s = true
  /\ (forall name, isProviderAvailable (otherProvider name) s = false).
Proof.
  intros Hs. destruct (reachable_inv loadModel s Hs) as (Hloaded & Hnot & _).
  assert (Hw : isProviderAvailable word2vec s = bool_decide (is_Some (Word2Vec.model s))).
  { simpl. unfold isLoaded. destruct (isModelLoaded s) eqn:Hl.
    - symmetry. apply bool_decide_eq_true. apply Hloaded. reflexivity.
    - symmetry. apply bool_decide_eq_false. intros [m Hm].
      destruct Hnot as [Hnot _]. rewrite Hnot in Hm by reflexivity. discriminate. }
  repeat split; try exact Hw; try reflexivity.
  - intros H. apply Hloaded. exact H.
  - intros H. apply Hloaded. exact H.
Qed.

End ProviderAvailability.

(** The theorem at the singleton after a failed load followed by a
    successful one. *)
Lemma provider_availability_witness :
  let load := fun path : string =>
    if String.eqb path "missing.bin" then Throw (MkError "ENOENT")
    else Ok (∅ : gmap string (list number)) in
  let s := snd (Word2Vec.loadPretrainedModel load "model.bin"
             (snd (Word2Vec.loadPretrainedModel load "missing.bin"
                     Word2Vec.word2vecService))) in
  reachable load s
  /\ ((ProviderEmbedding.isProviderAvailable ProviderEmbedding.word2vec s = true
       <-> is_Some (Word2Vec.model s))
      /\ ProviderEmbedding.isProviderAvailable ProviderEmbedding.word2vec s
         = currentlyAvailable true s ProviderEmbedding.word2vec
      /\ ProviderEmbedding.isProviderAvailable ProviderEmbedding.word2vec s
         = currentlyAvailable false s ProviderEmbedding.word2vec
      /\ ProviderEmbedding.isProviderAvailable ProviderEmbedding.ollama s = true
      /\ (forall name,
            ProviderEmbedding.isProviderAvailable
              (ProviderEmbedding.otherProvider name) s = false)).
Proof.
  intros load s.
  assert (Hs : reachable load s) by (do 2 apply reachable_load; apply reachable_new).
  split; [exact Hs|].
  exact (provider_availability load s Hs).
Defined.

(** ** The permissive word parser *)

Section FallbackParser.
Import Ollama.

Lemma toLowerChar_wordListChar (c : ascii) :
  isWordListChar c = true ->
  isLowerWhitespaceHyphen (toLowerChar c) = true
  /\ toLowerChar (toLowerChar c) = toLowerChar c.
Proof.
  destruct c as [[] [] [] [] [] [] [] []]; vm_compute; intros H;
    first [discriminate H | split; reflexivity].
Qed.

Lemma toLowerCase_wordList (w : string) :
  allChars isWordListChar w = true ->
  allChars isLowerWhitespaceHyphen (toLowerCase w) = true
  /\ toLowerCase (toLowerCase w) = toLowerCase w.
Proof.
  induction w as [|c w IH]; simpl; [split; reflexivity|].
  intros H. apply andb_true_iff in H as [Hc Hw].
  destruct (toLowerChar_wordListChar c Hc) as [H1 H2].
  destruct (IH Hw) as [H3 H4].
  rewrite H1, H2, H3, H4. split; reflexivity.
Qed.

Lemma toLowerCase_nonempty (w : string) :
  isEmpty w = false -> toLowerCase w <> EmptyString.
Proof. destruct w; simpl; [discriminate|]. intros _. discriminate. Qed.

(** C10, as stated, fails: the answer "a<TAB>b" yields the single word
    "a<TAB>b", which holds a character that is no letter, space or hyphen. *)
Lemma fallback_word_with_tab :
  fallbackParseWords ("a" +:+ tab +:+ "b")
  = [ {| rw_word := "a" +:+ tab +:+ "b"; rw_confidence := 0.6%float |} ]
  /\ ~ Forall (fun entry => allChars isLetterSpaceHyphen (rw_word entry) = true)
         (fallbackParseWords ("a" +:+ tab +:+ "b")).
Proof.
  split; [vm_compute; reflexivity|].
  intros H. apply Forall_inv in H. vm_compute in H. discriminate H.
Qed.

(** C10 (amended): for every input the permissive parser returns at most 10
    entries; every returned word is non-empty, is its own lowercase form
    and consists only of lowercase letters, whitespace characters (the
    class [\s], which holds the space and also the tab) and hyphens; every
    returned confidence is exactly 0.6. *)
Theorem fallbackParseWords_shape (response : string) :
  (length (fallbackParseWords response) <= 10)%nat
  /\ Forall
       (fun entry =>
          rw_word entry <> EmptyString
          /\ toLowerCase (rw_word entry) = rw_word entry
          /\ allChars isLowerWhitespaceHyphen (rw_word entry) = true
          /\ rw_confidence entry = 0.6%float)
       (fallbackParseWords response).
Proof.
  unfold fallbackParseWords.
  set (candidates := List.filter _ _).
  split.
  - rewrite length_map. apply firstn_le_length.
  - apply List.Forall_forall. intros entry Hin.
    apply in_map_iff in Hin as (w & <- & Hw). simpl.
    assert (Hc : In w candidates).
    { revert Hw. generalize 10%nat. induction candidates as [|x xs IH];
        intros [|n]; simpl; try tauto. intros [->|H]; [now left|right; eauto]. }
    apply filter_In in Hc as [_ Hc].
    apply andb_true_iff in Hc as [Hne Hc].
    apply andb_true_iff in Hc as [_ Hc].
    apply negb_true_iff in Hne.
    destruct (toLowerCase_wordList w Hc) as [H1 H2].
    repeat split; auto using toLowerCase_nonempty.
Qed.

End FallbackParser.

(** ** The cache store *)

Section CacheStore.
Import Cache.

Lemma set_stores (key : string) (v : CacheValue) (t : Z) (c : CacheService) :
  (size (store c) < maxKeys)%nat -> t <> 0%Z ->
  storedWith key v t (snd (Cache.set key v t c)).
Proof.
  intros Hroom Ht. unfold Cache.set, storedWith.
  destruct (Nat.leb_spec maxKeys (size (store c))) as [Hfull|_]; [lia|].
  simpl. destruct (Z.eqb_spec t 0) as [->|_]; [contradiction|].
  apply lookup_insert_eq.
Qed.

Lemma set_other (key key' : string) (v : CacheValue) (t : Z) (c : CacheService) :
  key <> key' ->
  store (snd (Cache.set key v t c)) !! key' = store c !! key'.
Proof.
  intros Hne. unfold Cache.set.
  destruct (maxKeys <=? size (store c))%nat; simpl; [reflexivity|].
  apply lookup_insert_ne. exact Hne.
Qed.

Lemma set_size (key : string) (v : CacheValue) (t : Z) (c : CacheService) :
  (size (store (snd (Cache.set key v t c))) <= S (size (store c)))%nat.
Proof.
  unfold Cache.set.
  destruct (maxKeys <=? size (store c))%nat; simpl; [lia|].
  destruct (store c !! key) as [e|] eqn:He.
  - rewrite map_size_insert_Some by eauto. lia.
  - rewrite map_size_insert_None by exact He. lia.
Qed.

Lemma get_set_other (key key' : string) (v : CacheValue) (t : Z)
      (c : CacheService) :
  key <> key' ->
  Cache.get key' (snd (Cache.set key v t c)) = Cache.get key' c.
Proof. intros Hne. unfold Cache.get. now rewrite set_other. Qed.

End CacheStore.

(** ** Dimension mismatch in the brute-force search *)

Section DimensionMismatch.
Import Embedding.

Lemma calculateCosineSimilarity_eq (vecA vecB : list number) :
  calculateCosineSimilarity vecA vecB =
  if negb (Nat.eqb (length vecA) (length vecB)) then Throw lengthError
  else Ok (cosineValue vecA vecB).
Proof.
  unfold calculateCosineSimilarity, cosineValue.
  destruct (negb _); [reflexivity|].
  destruct (accumulate vecA vecB 0%float 0%float 0%float) as [[d a] b].
  destruct (_ || _); reflexivity.
Qed.

Lemma score_eq (q : list number) (e : WordEmbedding) :
  score q e = if dimensionMismatch q e then Throw lengthError
              else Ok (scored q e).
Proof.
  unfold score, dimensionMismatch. rewrite calculateCosineSimilarity_eq.
  destruct (negb _); reflexivity.
Qed.

Lemma mapThrowing_score (q : list number) (es : list WordEmbedding) :
  mapThrowing (score q) es =
  if existsb (dimensionMismatch q) es then Throw lengthError
  else Ok (List.map (scored q) es).
Proof.
  induction es as [|e es IH]; simpl; [reflexivity|].
  rewrite score_eq. destruct (dimensionMismatch q e); simpl; [reflexivity|].
  rewrite IH. destruct (existsb _ es); reflexivity.
Qed.

(** C2, as stated, fails: with one stored vector of length 1 and one of
    length 2 under the model, the search for a query of length 2 returns no
    result at all: it throws. *)
Lemma dimension_mismatch_is_fatal :
  let rows :=
    [ mkWordEmbedding 1 "nomic-embed-text" [1%float] 1 "short" None None;
      mkWordEmbedding 2 "nomic-embed-text" [1%float; 0%float] 2 "cat" None None ] in
  ~ exists results,
      fallbackSimilaritySearch [1%float; 0%float] "nomic-embed-text"
        10%float 0.5%float rows = Ok results.
Proof. intros rows [results H]. vm_compute in H. discriminate H. Qed.

(** C2 (amended): the brute-force search throws "Vectors must have the same
    length" as soon as one of the (at most 1000) vectors loaded for the
    model has a length different from the query vector's; it completes, over
    all the loaded vectors, exactly when none has. *)
Theorem fallback_dimension_mismatch (queryEmbedding : list number)
        (model : string) (limit threshold : number)
        (rows : list WordEmbedding) :
  fallbackSimilaritySearch queryEmbedding model limit threshold rows =
  if existsb (dimensionMismatch queryEmbedding) (findMany model rows)
  then Throw lengthError
  else Ok (slice0
             (sort bySimilarityDesc
                (List.filter (fun result => geb (ssr_similarity result) threshold)
                   (List.map (scored queryEmbedding) (findMany model rows))))
             limit).
Proof.
  unfold fallbackSimilaritySearch. rewrite mapThrowing_score.
  destruct (existsb _ _); reflexivity.
Qed.

End DimensionMismatch.

(** ** Failure of a sub-operation of the comprehensive analysis *)

Section Analysis.
Import Cache Ollama.
Variable languageModel : string.
Variable generate : GenerateRequest -> outcome string.
Variable jsonParseItems : string -> option (list JsonItem).
Variable jsonParseContexts : string -> option (list ContextualMeaning).

Local Abbreviation findSynonyms :=
  (findSynonyms languageModel generate jsonParseItems).
Local Abbreviation findAntonyms :=
  (findAntonyms languageModel generate jsonParseItems).
Local Abbreviation getDefinition := (getDefinition languageModel generate).
Local Abbreviation analyzeContextualMeaning :=
  (analyzeContextualMeaning languageModel generate jsonParseContexts).
Local Abbreviation contextual :=
  (contextualPart languageModel generate jsonParseContexts).
Local Abbreviation performComprehensiveAnalysis :=
  (performComprehensiveAnalysis languageModel generate jsonParseItems
     jsonParseContexts).

(** The keys of the sub-operations differ from one another. *)
Lemma sub_keys_distinct (word : string) (context : option string)
      (word' pos ctx : string) :
  synonymsKey word context <> antonymsKey word' context
  /\ synonymsKey word context <> definitionKey word' (Some pos)
  /\ synonymsKey word context <> definitionKey word' None
  /\ synonymsKey word context <> contextKey word' ctx
  /\ antonymsKey word context <> definitionKey word' (Some pos)
  /\ antonymsKey word context <> definitionKey word' None
  /\ antonymsKey word context <> contextKey word' ctx
  /\ definitionKey word None <> contextKey word' ctx.
Proof.
  unfold synonymsKey, antonymsKey, definitionKey, contextKey; simpl.
  repeat split; discriminate.
Qed.

(** Each sub-operation leaves the entries of the other keys as they were. *)
Lemma findSynonyms_frame (word : string) (context : option string)
      (c : CacheService) (key : string) :
  key <> synonymsKey word context ->
  Cache.get key (snd (findSynonyms word context c)) = Cache.get key c.
Proof.
  intros Hne. unfold Ollama.findSynonyms.
  destruct (cachedRelated _ c); [reflexivity|].
  destruct (generate _); [|reflexivity].
  simpl. apply get_set_other. congruence.
Qed.

Lemma findAntonyms_frame (word : string) (context : option string)
      (c : CacheService) (key : string) :
  key <> antonymsKey word context ->
  Cache.get key (snd (findAntonyms word context c)) = Cache.get key c.
Proof.
  intros Hne. unfold Ollama.findAntonyms.
  destruct (cachedRelated _ c); [reflexivity|].
  destruct (generate _); [|reflexivity].
  simpl. apply get_set_other. congruence.
Qed.

Lemma getDefinition_frame (word : string) (pos : option string)
      (c : CacheService) (key : string) :
  key <> definitionKey word pos ->
  Cache.get key (snd (getDefinition word pos c)) = Cache.get key c.
Proof.
  intros Hne. unfold Ollama.getDefinition.
  destruct (cachedText _ c); [reflexivity|].
  destruct (generate _); [|reflexivity].
  simpl. apply get_set_other. congruence.
Qed.

(** The outcome of a sub-operation depends on the cache through the entry
    of its own key only. *)
Lemma findAntonyms_local (word : string) (context : option string)
      (c c' : CacheService) :
  Cache.get (antonymsKey word context) c' = Cache.get (antonymsKey word context) c ->
  fst (findAntonyms word context c') = fst (findAntonyms word context c).
Proof.
  intros H. unfold Ollama.findAntonyms, cachedRelated. rewrite H.
  destruct (Cache.get _ c) as [[]|]; try reflexivity;
    destruct (generate _); reflexivity.
Qed.

Lemma getDefinition_local (word : string) (pos : option string)
      (c c' : CacheService) :
  Cache.get (definitionKey word pos) c' = Cache.get (definitionKey word pos) c ->
  fst (getDefinition word pos c') = fst (getDefinition word pos c).
Proof.
  intros H. unfold Ollama.getDefinition, cachedText. rewrite H.
  destruct (Cache.get _ c) as [[]|]; try reflexivity;
    try (destruct (generate _); reflexivity).
  destruct (isEmpty s); [|reflexivity]. destruct (generate _); reflexivity.
Qed.

Lemma contextualPart_local (word : string) (context : option string)
      (c c' : CacheService) :
  (forall ctx, Cache.get (contextKey word ctx) c' = Cache.get (contextKey word ctx) c) ->
  fst (contextual word context c') = fst (contextual word context c).
Proof.
  intros H. unfold contextualPart. destruct (truthy context); [|reflexivity].
  unfold Ollama.analyzeContextualMeaning, cachedContexts. rewrite H.
  destruct (Cache.get _ c) as [[]|]; try reflexivity;
    destruct (generate _); reflexivity.
Qed.

(** The outcome of the analysis on a miss of its own key: the join of the
    four sub-operations, each run against the cache the analysis started
    with. *)
Lemma analysis_outcome (word : string) (context : option string)
      (c : CacheService) :
  cachedAnalysis (analysisKey word context) c = None ->
  fst (performComprehensiveAnalysis word context c) =
  match promiseAll4 (fst (findSynonyms word context c))
          (fst (findAntonyms word context c))
          (fst (getDefinition word None c))
          (fst (contextual word context c)) with
  | Ok (synonyms, antonyms, definition, contextualMeanings) =>
      Ok {| wa_word := word;
            wa_definition := definition;
            wa_partOfSpeech := extractPartOfSpeech definition;
            wa_synonyms := synonyms;
            wa_antonyms := antonyms;
            wa_contexts := contextualMeanings;
            wa_confidence := calculateOverallConfidence synonyms antonyms |}
  | Throw error =>
      Throw (MkError ("Failed to perform comprehensive analysis: "
                      +:+ errorToString error))
  end.
Proof.
  intros Hmiss. unfold Ollama.performComprehensiveAnalysis. rewrite Hmiss.
  destruct (sub_keys_distinct word context word "" "") as (K1 & _ & K3 & _ & _ & K6 & _ & _).
  destruct (findSynonyms word context c) as [syn c1] eqn:Hsyn.
  assert (F1 : forall key, key <> synonymsKey word context ->
                           Cache.get key c1 = Cache.get key c).
  { intros key Hk. replace c1 with (snd (findSynonyms word context c))
      by (rewrite Hsyn; reflexivity). now apply findSynonyms_frame. }
  destruct (findAntonyms word context c1) as [ant c2] eqn:Hant.
  assert (Hant' : ant = fst (findAntonyms word context c)).
  { replace ant with (fst (findAntonyms word context c1))
      by (rewrite Hant; reflexivity).
    apply findAntonyms_local, F1. congruence. }
  assert (F2 : forall key, key <> synonymsKey word context ->
                           key <> antonymsKey word context ->
                           Cache.get key c2 = Cache.get key c).
  { intros key Hk1 Hk2. replace c2 with (snd (findAntonyms word context c1))
      by (rewrite Hant; reflexivity).
    rewrite findAntonyms_frame by exact Hk2. now apply F1. }
  destruct (getDefinition word None c2) as [def c3] eqn:Hdef.
  assert (Hdef' : def = fst (getDefinition word None c)).
  { replace def with (fst (getDefinition word None c2))
      by (rewrite Hdef; reflexivity).
    apply getDefinition_local, F2; congruence. }
  assert (Hctx : fst (contextual word context c3)
                 = fst (contextual word context c)).
  { apply contextualPart_local. intros ctx.
    destruct (sub_keys_distinct word context word "" ctx)
      as (_ & _ & _ & K4 & _ & _ & K7 & K8).
    replace c3 with (snd (getDefinition word None c2))
      by (rewrite Hdef; reflexivity).
    rewrite getDefinition_frame by congruence. apply F2; congruence. }
  unfold contextualPart in Hctx at 1.
  destruct (if truthy context
            then analyzeContextualMeaning word (orElse context "") c3
            else (Ok [], c3)) as [ctx c4] eqn:Hc4.
  simpl in Hctx. subst ant def ctx. simpl.
  destruct (promiseAll4 _ _ _ _) as [[[[s0 a0] d0] m0]|e]; reflexivity.
Qed.

(** C1 (amended): on a miss of the analysis key, the analysis fails as soon
    as one of the sub-operations it issues fails, with a single error that
    wraps the failure; it returns a result exactly when every sub-operation
    succeeds, and the result then carries what the sub-operations returned.
    No failed sub-operation is replaced by an empty list or string. *)
Theorem analysis_fails_with_any_part (word : string) (context : option string)
        (c : CacheService) :
  cachedAnalysis (analysisKey word context) c = None ->
  rejected (fst (performComprehensiveAnalysis word context c))
  = rejected (fst (findSynonyms word context c))
    || rejected (fst (findAntonyms word context c))
    || rejected (fst (getDefinition word None c))
    || rejected (fst (contextual word context c))
  /\ (forall analysis,
        fst (performComprehensiveAnalysis word context c) = Ok analysis ->
        fst (findSynonyms word context c) = Ok (wa_synonyms analysis)
        /\ fst (findAntonyms word context c) = Ok (wa_antonyms analysis)
        /\ fst (getDefinition word None c) = Ok (wa_definition analysis)
        /\ fst (contextual word context c) = Ok (wa_contexts analysis))
  /\ (forall error,
        fst (performComprehensiveAnalysis word context c) = Throw error ->
        exists cause,
          error = MkError ("Failed to perform comprehensive analysis: "
                           +:+ errorToString cause)
          /\ (fst (findSynonyms word context c) = Throw cause
              \/ fst (findAntonyms word context c) = Throw cause
              \/ fst (getDefinition word None c) = Throw cause
              \/ fst (contextual word context c) = Throw cause)).
Proof.
  intros Hmiss. rewrite (analysis_outcome word context c Hmiss).
  destruct (fst (findSynonyms word context c)) as [syn|e1];
    destruct (fst (findAntonyms word context c)) as [ant|e2];
    destruct (fst (getDefinition word None c)) as [def|e3];
    destruct (fst (contextual word context c)) as [ctx|e4];
    simpl;
    (split; [reflexivity|
     split;
     [ intros analysis H;
       first [ discriminate H
             | injection H as <-; simpl; repeat split; reflexivity ]
     | intros error H;
       first [ discriminate H
             | injection H as <-; eexists; split; [reflexivity|]; auto ] ]]).
Qed.

End Analysis.

(** The theorem on an empty cache, with a model that answers every prompt. *)
Lemma analysis_fails_with_any_part_witness :
  let generate := fun _ : Ollama.GenerateRequest => Ok "glad, joyful" in
  let json := fun _ : string => @None (list Ollama.JsonItem) in
  let jsonc := fun _ : string => @None (list ContextualMeaning) in
  let c := Cache.create None in
  Ollama.cachedAnalysis (Ollama.analysisKey "happy" None) c = None
  /\ rejected (fst (Ollama.performComprehensiveAnalysis "qwen2.5:14b" generate
                      json jsonc "happy" None c)) = false.
Proof.
  intros generate json jsonc c.
  assert (Hmiss : Ollama.cachedAnalysis (Ollama.analysisKey "happy" None) c = None)
    by reflexivity.
  split; [exact Hmiss|].
  destruct (analysis_fails_with_any_part "qwen2.5:14b" generate json jsonc
              "happy" None c Hmiss) as [H _].
  rewrite H. reflexivity.
Defined.

(** C1, as stated, fails: on an empty cache, with a model that answers the
    synonym and definition prompts and times out on the antonym prompt, one
    sub-operation out of three fails and the analysis returns no result. *)
Lemma one_failed_part_fails_the_analysis :
  let generate := fun request : Ollama.GenerateRequest =>
    if String.eqb (Ollama.gr_prompt request)
                  (Ollama.buildAntonymPrompt "happy" None)
    then Throw (MkError "timeout") else Ok "glad, joyful" in
  let json := fun _ : string => @None (list Ollama.JsonItem) in
  let jsonc := fun _ : string => @None (list ContextualMeaning) in
  let c := Cache.create None in
  (rejected (fst (Ollama.findSynonyms "qwen2.5:14b" generate json "happy" None c)) = false
   /\ rejected (fst (Ollama.findAntonyms "qwen2.5:14b" generate json "happy" None c)) = true
   /\ rejected (fst (Ollama.getDefinition "qwen2.5:14b" generate "happy" None c)) = false)
  /\ ~ exists analysis c',
         Ollama.performComprehensiveAnalysis "qwen2.5:14b" generate json jsonc
           "happy" None c = (Ok analysis, c').
Proof.
  intros generate json jsonc c. split.
  - repeat split; vm_compute; reflexivity.
  - intros (analysis & c' & H).
    assert (E : fst (Ollama.performComprehensiveAnalysis "qwen2.5:14b" generate
                       json jsonc "happy" None c) = Ok analysis)
      by (rewrite H; reflexivity).
    vm_compute in E. discriminate E.
Qed.

(** ** Caching of the ranked result list *)

Section SearchCaching.
Import Cache.
Variable queryRaw :
  list number -> string -> number -> number -> outcome (list SemanticSearchResult).
Variable rows : list Embedding.WordEmbedding.
Variable numberToString : number -> string.
Variable embeddingModel : string.
Variable embeddings : string -> string -> outcome (list number).

(** The result comes from one of the two execution paths. *)
Lemma findSimilarEmbeddings_paths (q : list number) (model : string)
      (limit threshold : number) (results : list SemanticSearchResult) :
  Embedding.findSimilarEmbeddings queryRaw rows q model limit threshold = Ok results
  <-> queryRaw q model threshold limit = Ok results
      \/ (exists error, queryRaw q model threshold limit = Throw error)
         /\ Embedding.fallbackSimilaritySearch q model limit threshold rows = Ok results.
Proof.
  unfold Embedding.findSimilarEmbeddings.
  destruct (queryRaw q model threshold limit) as [rs|e]; split.
  - intros H. left. exact H.
  - intros [H|[[e' He'] _]]; [exact H|discriminate He'].
  - intros H. right. split; [eauto|exact H].
  - intros [H|[_ H]]; [discriminate H|exact H].
Qed.

(** An embedding computed by the model server is cached for an hour. *)
Lemma embedding_cached_for_an_hour (text : string) (c c1 : CacheService)
      (r : EmbeddingResult) :
  (size (store c) < maxKeys)%nat ->
  Ollama.cachedEmbedding ("embedding:" +:+ embeddingModel +:+ ":" +:+ text) c = None ->
  Ollama.generateEmbedding embeddingModel embeddings text c = (Ok r, c1) ->
  storedWith ("embedding:" +:+ embeddingModel +:+ ":" +:+ text) (VEmbedding r)
    3600 c1.
Proof.
  intros Hroom Hmiss. unfold Ollama.generateEmbedding. rewrite Hmiss.
  destruct (embeddings embeddingModel text) as [v|e]; [|discriminate].
  intros H. injection H as <- <-. now apply set_stores.
Qed.

Lemma generateEmbedding_size (text : string) (c : CacheService) :
  (size (store (snd (Ollama.generateEmbedding embeddingModel embeddings text c)))
   <= S (size (store c)))%nat.
Proof.
  unfold Ollama.generateEmbedding.
  destruct (Ollama.cachedEmbedding _ c); simpl; [lia|].
  destruct (embeddings embeddingModel text); simpl; [apply set_size|lia].
Qed.

Lemma provider_generateEmbedding_size (text : string)
      (options : ProviderEmbedding.EmbeddingOptions)
      (w2v : Word2Vec.Word2VecService) (c : CacheService) :
  (size (store (snd (ProviderEmbedding.generateEmbedding embeddingModel
                       embeddings text options w2v c)))
   <= S (size (store c)))%nat.
Proof.
  unfold ProviderEmbedding.generateEmbedding.
  destruct (ProviderEmbedding.provider options); simpl.
  - apply generateEmbedding_size.
  - destruct (negb _); simpl; lia.
  - lia.
Qed.

(** The provider and the model are read back from the key, for the
    providers of the declared type. *)
Lemma searchKey_provider_model (queryText : string) (limit threshold : number)
      (o o' : ProviderEmbedding.EmbeddingOptions) :
  declaredProvider (ProviderEmbedding.provider o) ->
  declaredProvider (ProviderEmbedding.provider o') ->
  ProviderEmbedding.searchKey numberToString queryText limit threshold o
  = ProviderEmbedding.searchKey numberToString queryText limit threshold o' ->
  ProviderEmbedding.provider o = ProviderEmbedding.provider o'
  /\ orElse (ProviderEmbedding.model o) "default"
     = orElse (ProviderEmbedding.model o') "default".
Proof.
  unfold ProviderEmbedding.searchKey, declaredProvider.
  destruct o as [p m], o' as [p' m']; simpl. intros Hp Hp' H.
  do 7 apply append_inj_l in H.
  destruct Hp as [-> | ->], Hp' as [-> | ->]; simpl in H;
    try discriminate H; split; try reflexivity;
    repeat (injection H as H); exact H.
Qed.

(** A write at the limit of the cache is refused and changes nothing. *)
Lemma set_refused (key : string) (v : CacheValue) (t : Z) (c : CacheService) :
  (maxKeys <= size (store c))%nat -> snd (Cache.set key v t c) = c.
Proof.
  intros Hfull. unfold Cache.set.
  destruct (Nat.leb_spec maxKeys (size (store c))); [reflexivity|lia].
Qed.

(** Embedding the query leaves the entries of the search keys alone. *)
Lemma generateEmbedding_search_frame (text key : string) (c : CacheService) :
  Embedding.cachedSearch ("semantic_search:" +:+ key)
    (snd (Ollama.generateEmbedding embeddingModel embeddings text c))
  = Embedding.cachedSearch ("semantic_search:" +:+ key) c.
Proof.
  unfold Ollama.generateEmbedding, Embedding.cachedSearch.
  destruct (Ollama.cachedEmbedding _ c); [reflexivity|].
  destruct (embeddings embeddingModel text); [|reflexivity].
  simpl. rewrite get_set_other; [reflexivity|discriminate].
Qed.

Lemma provider_generateEmbedding_search_frame (text key : string)
      (options : ProviderEmbedding.EmbeddingOptions)
      (w2v : Word2Vec.Word2VecService) (c : CacheService) :
  Embedding.cachedSearch ("semantic_search:" +:+ key)
    (snd (ProviderEmbedding.generateEmbedding embeddingModel embeddings text
            options w2v c))
  = Embedding.cachedSearch ("semantic_search:" +:+ key) c.
Proof.
  unfold ProviderEmbedding.generateEmbedding.
  destruct (ProviderEmbedding.provider options); simpl.
  - apply generateEmbedding_search_frame.
  - destruct (negb _); reflexivity.
  - reflexivity.
Qed.

(** C5 (amended): in both versions of the service, whichever path produced
    the ranked list, the list is cached for 1800 seconds, strictly less than
    the 3600 seconds of a cached embedding, whenever the cache holds fewer
    than its limit of 10000 entries at the moment the list is written; this
    is so whenever it held at most 9998 entries when the search began. At
    the limit the write is refused: the list is returned all the same, it is
    not cached, and the next search computes it again. The same holds for
    the embedding. The service with selectable providers keys the list by
    the query text, the limit, the threshold, the provider and the requested
    model (the token "default" when none is requested); the
    model-server-only service keys it by the query text, the limit and the
    threshold alone. *)
Theorem search_results_cached (queryText : string)
        (limit threshold : option number)
        (options : option ProviderEmbedding.EmbeddingOptions)
        (w2v : Word2Vec.Word2VecService) (c : CacheService) :
  let l := default 10%float limit in
  let t := default 0.7%float threshold in
  let o := default ProviderEmbedding.defaultOptions options in
  let embedded :=
    snd (Ollama.generateEmbedding embeddingModel embeddings queryText c) in
  let embedded' :=
    snd (ProviderEmbedding.generateEmbedding embeddingModel embeddings
           queryText o w2v c) in
  (forall results c',
      Embedding.cachedSearch
        (Embedding.searchKey numberToString queryText l t) c = None ->
      Embedding.findSimilarWords queryRaw rows numberToString embeddingModel
        embeddings queryText limit threshold c = (Ok results, c') ->
      ((size (store embedded) < maxKeys)%nat ->
       storedWith (Embedding.searchKey numberToString queryText l t)
         (VSearch results) Embedding.searchTTL c')
      /\ ((size (store c) + 2 <= maxKeys)%nat ->
          storedWith (Embedding.searchKey numberToString queryText l t)
            (VSearch results) Embedding.searchTTL c')
      /\ ((maxKeys <= size (store embedded))%nat ->
          c' = embedded
          /\ Embedding.cachedSearch
               (Embedding.searchKey numberToString queryText l t) c' = None))
  /\ (forall results c',
      Embedding.cachedSearch
        (ProviderEmbedding.searchKey numberToString queryText l t o) c = None ->
      ProviderEmbedding.findSimilarWords queryRaw rows numberToString
        embeddingModel embeddings queryText limit threshold options w2v c
      = (Ok results, c') ->
      ((size (store embedded') < maxKeys)%nat ->
       storedWith (ProviderEmbedding.searchKey numberToString queryText l t o)
         (VSearch results) Embedding.searchTTL c')
      /\ ((size (store c) + 2 <= maxKeys)%nat ->
          storedWith
            (ProviderEmbedding.searchKey numberToString queryText l t o)
            (VSearch results) Embedding.searchTTL c')
      /\ ((maxKeys <= size (store embedded'))%nat ->
          c' = embedded'
          /\ Embedding.cachedSearch
               (ProviderEmbedding.searchKey numberToString queryText l t o) c'
             = None))
  /\ ProviderEmbedding.searchKey numberToString queryText l t o
     = "semantic_search:" +:+ queryText +:+ ":" +:+ numberToString l
       +:+ ":" +:+ numberToString t
       +:+ ":" +:+ ProviderEmbedding.providerName (ProviderEmbedding.provider o)
       +:+ ":" +:+ orElse (ProviderEmbedding.model o) "default"
  /\ (forall o',
        declaredProvider (ProviderEmbedding.provider o) ->
        declaredProvider (ProviderEmbedding.provider o') ->
        ProviderEmbedding.searchKey numberToString queryText l t o
        = ProviderEmbedding.searchKey numberToString queryText l t o' ->
        ProviderEmbedding.provider o = ProviderEmbedding.provider o'
        /\ orElse (ProviderEmbedding.model o) "default"
           = orElse (ProviderEmbedding.model o') "default")
  /\ Embedding.searchKey numberToString queryText l t
     = "semantic_search:" +:+ queryText +:+ ":" +:+ numberToString l
       +:+ ":" +:+ numberToString t
  /\ (Embedding.searchTTL = 1800 /\ Ollama.embeddingTTL = 3600
      /\ Embedding.searchTTL < Ollama.embeddingTTL)%Z
  /\ (forall text r c1,
        Ollama.cachedEmbedding
          ("embedding:" +:+ embeddingModel +:+ ":" +:+ text) c = None ->
        Ollama.generateEmbedding embeddingModel embeddings text c = (Ok r, c1) ->
        ((size (store c) < maxKeys)%nat ->
         storedWith ("embedding:" +:+ embeddingModel +:+ ":" +:+ text)
           (VEmbedding r) Ollama.embeddingTTL c1)
        /\ ((maxKeys <= size (store c))%nat -> c1 = c))
  /\ (forall q model results,
        Embedding.findSimilarEmbeddings queryRaw rows q model l t = Ok results
        <-> queryRaw q model t l = Ok results
            \/ (exists error, queryRaw q model t l = Throw error)
               /\ Embedding.fallbackSimilaritySearch q model l t rows
                  = Ok results).
Proof.
  intros l t o embedded embedded'.
  split; [|split; [|split; [reflexivity|split;
    [apply searchKey_provider_model|split; [reflexivity|split;
      [repeat split; reflexivity|split;
        [|intros q model results; apply findSimilarEmbeddings_paths]]]]]]].
  - intros results c' Hmiss. unfold Embedding.findSimilarWords.
    fold l t. rewrite Hmiss.
    pose proof (generateEmbedding_size queryText c) as Hsize.
    pose proof (generateEmbedding_search_frame queryText
                  (queryText +:+ ":" +:+ numberToString l +:+ ":"
                   +:+ numberToString t) c) as Hframe.
    fold embedded in Hsize, Hframe. subst embedded.
    destruct (Ollama.generateEmbedding embeddingModel embeddings queryText c)
      as [[qe|e] c1]; [|discriminate].
    destruct (Embedding.findSimilarEmbeddings _ _ _ _ _ _) as [rs|e];
      [|discriminate].
    intros H. injection H as <- <-. simpl in Hsize, Hframe |- *.
    split; [|split].
    + intros Hroom. apply set_stores; [exact Hroom|discriminate].
    + intros Hroom. apply set_stores; [lia|discriminate].
    + intros Hfull. rewrite set_refused by exact Hfull.
      split; [reflexivity|]. unfold Embedding.searchKey.
      rewrite Hframe. exact Hmiss.
  - intros results c' Hmiss. unfold ProviderEmbedding.findSimilarWords.
    fold l t o. rewrite Hmiss.
    pose proof (provider_generateEmbedding_size queryText o w2v c) as Hsize.
    pose proof (provider_generateEmbedding_search_frame queryText
                  (queryText +:+ ":" +:+ numberToString l +:+ ":"
                   +:+ numberToString t +:+ ":"
                   +:+ ProviderEmbedding.providerName
                         (ProviderEmbedding.provider o)
                   +:+ ":" +:+ orElse (ProviderEmbedding.model o) "default")
                  o w2v c) as Hframe.
    fold embedded' in Hsize, Hframe. subst embedded'.
    destruct (ProviderEmbedding.generateEmbedding _ _ queryText o w2v c)
      as [[qe|e] c1]; [|discriminate].
    destruct (Embedding.findSimilarEmbeddings _ _ _ _ _ _) as [rs|e];
      [|discriminate].
    intros H. injection H as <- <-. simpl in Hsize, Hframe |- *.
    split; [|split].
    + intros Hroom. apply set_stores; [exact Hroom|discriminate].
    + intros Hroom. apply set_stores; [lia|discriminate].
    + intros Hfull. rewrite set_refused by exact Hfull.
      split; [reflexivity|]. unfold ProviderEmbedding.searchKey.
      rewrite Hframe. exact Hmiss.
  - intros text r c1 Hmiss Hgen. split.
    + intros Hroom. now apply (embedding_cached_for_an_hour text c c1 r).
    + intros Hfull. revert Hgen. unfold Ollama.generateEmbedding.
      rewrite Hmiss. destruct (embeddings embeddingModel text) as [v|e];
        [|discriminate].
      intros H. injection H as _ <-. now apply set_refused.
Qed.

End SearchCaching.

(** The theorem on an empty cache, for a search that the raw query fails and
    the brute-force path answers. *)
Lemma search_results_cached_witness :
  let queryRaw := fun (_ : list number) (_ : string) (_ _ : number) =>
    @Throw (list SemanticSearchResult) (MkError "operator does not exist") in
  let rows :=
    [ Embedding.mkWordEmbedding 1 "nomic-embed-text" [1%float; 0%float] 2
        "feline" None None;
      Embedding.mkWordEmbedding 2 "nomic-embed-text" [0%float; 1%float] 2
        "engine" None None ] in
  let embeddings := fun _ _ : string => Ok [2%float; 0%float] in
  let c := Cache.create None in
  (size (Cache.store c) + 2 <= Cache.maxKeys)%nat
  /\ storedWith "semantic_search:cat:10:1:ollama:default"
       (VSearch [ mkSemanticSearchResult "feline" 1%float None None ])
       1800
       (snd (ProviderEmbedding.findSimilarWords queryRaw rows showInteger
               "nomic-embed-text" embeddings "cat" (Some 10%float)
               (Some 1%float) None Word2Vec.word2vecService c)).
Proof.
  intros queryRaw rows embeddings c.
  assert (Hroom : (size (Cache.store c) + 2 <= Cache.maxKeys)%nat)
    by (apply Nat.leb_le; vm_compute; reflexivity).
  split; [exact Hroom|].
  destruct (search_results_cached queryRaw rows showInteger "nomic-embed-text"
              embeddings "cat" (Some 10%float) (Some 1%float) None
              Word2Vec.word2vecService c) as (_ & H & _).
  refine (proj1 (proj2 (H _ _ eq_refl _)) Hroom).
  vm_compute. reflexivity.
Defined.

(** C5, as stated, fails: the service that always embeds with the model
    server caches the list under a key that holds neither the provider nor
    the model, so two services set up with different embedding models
    cache their lists under one and the same key. *)
Lemma search_key_without_provider_and_model :
  let queryRaw := fun (_ : list number) (_ : string) (_ _ : number) =>
    @Throw (list SemanticSearchResult) (MkError "operator does not exist") in
  let rows :=
    [ Embedding.mkWordEmbedding 1 "nomic-embed-text" [1%float; 0%float] 2
        "feline" None None;
      Embedding.mkWordEmbedding 1 "all-minilm" [0%float; 1%float] 2
        "feline" None None ] in
  let embeddings := fun _ _ : string => Ok [2%float; 0%float] in
  let run := fun embeddingModel : string =>
    snd (Embedding.findSimilarWords queryRaw rows showInteger embeddingModel
           embeddings "cat" (Some 10%float) (Some 0%float) (Cache.create None)) in
  let key := "semantic_search:cat:10:0" in
  storedWith key
    (VSearch [ mkSemanticSearchResult "feline" 1%float None None ]) 1800
    (run "nomic-embed-text")
  /\ storedWith key
       (VSearch [ mkSemanticSearchResult "feline" 0%float None None ]) 1800
       (run "all-minilm")
  /\ isInfixOf "nomic-embed-text" key = false
  /\ isInfixOf "all-minilm" key = false
  /\ isInfixOf "ollama" key = false.
Proof. repeat split; vm_compute; reflexivity. Qed.

(** ** Floating-point facts *)

Section FloatFacts.
Local Open Scope float_scope.

Lemma float_mul_comm (x y : float) : x * y = y * x.
Proof.
  apply Prim2SF_inj. rewrite !mul_spec. unfold SF64mul.
  destruct (Prim2SF x) as [sx|sx| |sx mx ex], (Prim2SF y) as [sy|sy| |sy my ey];
    simpl; try reflexivity; try (rewrite xorb_comm; reflexivity).
  rewrite xorb_comm, Pos.mul_comm, Z.add_comm. reflexivity.
Qed.

Lemma float_eqb_zero (x : float) :
  PrimFloat.eqb x 0 = true -> x = 0 \/ x = (-0).
Proof.
  rewrite FloatAxioms.eqb_spec. intros H.
  assert (Hx : exists s, Prim2SF x = S754_zero s).
  { destruct (Prim2SF x) as [s|s| |s m e]; [eauto|..];
      try discriminate H; destruct s; discriminate H. }
  destruct Hx as [s Hs].
  rewrite <- (SF2Prim_Prim2SF x), Hs. destruct s; [right|left]; reflexivity.
Qed.

Lemma float_zero_square (x : float) :
  PrimFloat.eqb x 0 = true -> 0 + x * x = 0.
Proof. intros H. destruct (float_eqb_zero x H) as [-> | ->]; reflexivity. Qed.

End FloatFacts.

Section FloatOrder.
Local Open Scope Z_scope.

Lemma digits2_pos_bounds (m : positive) :
  2 ^ (Z.pos (digits2_pos m) - 1) <= Z.pos m < 2 ^ Z.pos (digits2_pos m).
Proof.
  induction m as [p IH|p IH|]; simpl digits2_pos.
  - rewrite Pos2Z.inj_succ.
    replace (Z.succ (Z.pos (digits2_pos p)) - 1) with (Z.succ (Z.pos (digits2_pos p) - 1)) by lia.
    rewrite !Z.pow_succ_r by lia. lia.
  - rewrite Pos2Z.inj_succ.
    replace (Z.succ (Z.pos (digits2_pos p)) - 1) with (Z.succ (Z.pos (digits2_pos p) - 1)) by lia.
    rewrite !Z.pow_succ_r by lia. lia.
  - simpl. lia.
Qed.

Lemma shr_1_m (mrs : shr_record) :
  0 <= shr_m mrs -> shr_m (shr_1 mrs) = Z.shiftr (shr_m mrs) 1.
Proof.
  destruct mrs as [m r s]. simpl. intros H.
  destruct m as [|p|p]; [reflexivity| |lia].
  destruct p; reflexivity.
Qed.

Lemma iter_pos_shr_1 (p : positive) (mrs : shr_record) :
  0 <= shr_m mrs ->
  shr_m (SpecFloat.iter_pos shr_1 p mrs) = Z.shiftr (shr_m mrs) (Z.pos p).
Proof.
  revert mrs. induction p as [p IH|p IH|]; intros mrs H; simpl SpecFloat.iter_pos.
  - assert (H1 : 0 <= shr_m (shr_1 mrs)) by (rewrite shr_1_m by exact H; now apply Z.shiftr_nonneg).
    assert (H2 : 0 <= shr_m (SpecFloat.iter_pos shr_1 p (shr_1 mrs))) by (rewrite IH by exact H1; now apply Z.shiftr_nonneg).
    rewrite IH by exact H2. rewrite IH by exact H1. rewrite shr_1_m by exact H.
    rewrite !Z.shiftr_shiftr by lia. f_equal. lia.
  - assert (H2 : 0 <= shr_m (SpecFloat.iter_pos shr_1 p mrs)) by (rewrite IH by exact H; now apply Z.shiftr_nonneg).
    rewrite IH by exact H2. rewrite IH by exact H.
    rewrite !Z.shiftr_shiftr by lia. f_equal. lia.
  - apply shr_1_m, H.
Qed.

Lemma shr_record_of_loc_m (m : Z) (l : location) : shr_m (shr_record_of_loc m l) = m.
Proof. destruct l as [|[]]; reflexivity. Qed.

Lemma shr_fexp_pos (m e : Z) (l : location) :
  0 < m -> emin <= e ->
  0 < shr_m (fst (shr_fexp prec emax m e l)) /\ emin <= snd (shr_fexp prec emax m e l).
Proof.
  intros Hm He. destruct m as [|p|p]; try lia.
  unfold shr_fexp, shr. simpl Zdigits2.
  pose proof (digits2_pos_bounds p) as [Hlo _].
  set (dg := Z.pos (digits2_pos p)) in *.
  unfold fexp. fold emin.
  destruct (Z.max (dg + e - prec) emin - e) as [|n|n] eqn:En; simpl fst; simpl snd;
    rewrite ?shr_record_of_loc_m; try (split; lia).
  assert (Hn : Z.pos n = dg - prec) by lia.
  rewrite iter_pos_shr_1 by (rewrite shr_record_of_loc_m; lia).
  rewrite shr_record_of_loc_m, Z.shiftr_div_pow2 by lia.
  split; [|lia].
  apply Z.div_str_pos. split; [apply Z.pow_pos_nonneg; lia|].
  etransitivity; [|exact Hlo]. apply Z.pow_le_mono_r; [lia|].
  rewrite Hn. unfold prec. lia.
Qed.

Lemma SFltb_zero (s : bool) (r : spec_float) : SFltb (S754_zero s) r = SFpositive r.
Proof. destruct r as [s'|[]| |[] m e]; reflexivity. Qed.

Lemma round_nearest_even_pos (m : Z) (l : location) :
  0 < m -> 0 < round_nearest_even m l.
Proof.
  intros H. destruct l as [|[]]; simpl; try lia. destruct (Z.even m); lia.
Qed.

Lemma binary_round_aux_shape (sx : bool) (mx ex : Z) (lx : location) :
  0 < mx -> emin <= ex ->
  exists r, binary_round_aux prec emax sx mx ex lx = r
            /\ match r with
               | S754_finite s _ _ | S754_infinity s => s = sx
               | _ => False
               end.
Proof.
  intros Hm He. unfold binary_round_aux.
  pose proof (shr_fexp_pos mx ex lx Hm He) as [H1 H1'].
  destruct (shr_fexp prec emax mx ex lx) as [mrs' e']. simpl in H1, H1'.
  pose proof (shr_fexp_pos _ e' loc_Exact
                (round_nearest_even_pos _ (loc_of_shr_record mrs') H1) H1') as [H2 _].
  destruct (shr_fexp prec emax _ e' loc_Exact) as [mrs'' e'']. simpl in H2.
  destruct (shr_m mrs'') as [|p|p]; try lia.
  destruct (e'' <=? emax - prec); eexists; split; reflexivity.
Qed.

Lemma binary_round_shape (sx : bool) (mx : positive) (ex : Z) :
  emin <= ex ->
  match binary_round prec emax sx mx ex with
  | S754_finite s _ _ | S754_infinity s => s = sx
  | _ => False
  end.
Proof.
  intros He. unfold binary_round, shl_align.
  set (ex' := fexp prec emax (Z.pos (digits2_pos mx) + ex)).
  assert (He' : emin <= ex') by (unfold ex', fexp; fold emin; lia).
  destruct (ex' - ex) as [|d|d];
    match goal with
    | |- context [binary_round_aux prec emax sx (Z.pos ?m) ?e loc_Exact] =>
        destruct (binary_round_aux_shape sx (Z.pos m) e loc_Exact) as (r & -> & Hr);
          [lia|assumption|exact Hr]
    end.
Qed.

Lemma binary_normalize_positive (d e : Z) :
  emin <= e ->
  SFpositive (binary_normalize prec emax d e false) = (0 <? d).
Proof.
  intros He. destruct d as [|p|p]; simpl; [reflexivity| |].
  - pose proof (binary_round_shape false p e He) as H.
    destruct (binary_round prec emax false p e) as [| | |s m e']; try contradiction; subst; reflexivity.
  - pose proof (binary_round_shape true p e He) as H.
    destruct (binary_round prec emax true p e) as [| | |s m e']; try contradiction; subst; reflexivity.
Qed.

(** Canonical mantissas. *)
Lemma bounded_canonical (m : positive) (e : Z) :
  bounded prec emax m e = true ->
  emin <= e
  /\ Z.pos (digits2_pos m) <= prec
  /\ (emin < e -> Z.pos (digits2_pos m) = prec).
Proof.
  unfold bounded, canonical_mantissa, fexp. fold emin. intros H.
  apply andb_true_iff in H as [H _]. apply Z.eqb_eq in H. lia.
Qed.

Lemma shl_align_fst (m : positive) (e ez : Z) :
  ez <= e -> Z.pos (fst (shl_align m e ez)) = Z.pos m * 2 ^ (e - ez).
Proof.
  intros H. unfold shl_align. destruct (ez - e) as [|d|d] eqn:Ed; simpl fst.
  - replace (e - ez) with 0 by lia. lia.
  - lia.
  - replace (e - ez) with (Z.pos d) by lia.
    change (Pos.iter xO m d) with (shift_pos d m).
    rewrite shift_pos_correct, Z.pow_pos_fold. lia.
Qed.

(** The order of two canonical mantissas with their exponents is the order
    of the integers they stand for over the smaller exponent. *)
Lemma canonical_compare (m1 m2 : positive) (e1 e2 : Z) :
  bounded prec emax m1 e1 = true -> bounded prec emax m2 e2 = true ->
  (Z.pos m1 * 2 ^ (e1 - Z.min e1 e2) ?= Z.pos m2 * 2 ^ (e2 - Z.min e1 e2))
  = match e1 ?= e2 with
    | Lt => Lt
    | Gt => Gt
    | Eq => Pos.compare_cont Eq m1 m2
    end.
Proof.
  intros B1 B2.
  destruct (bounded_canonical m1 e1 B1) as (Hmin1 & Hd1 & Hn1).
  destruct (bounded_canonical m2 e2 B2) as (Hmin2 & Hd2 & Hn2).
  pose proof (digits2_pos_bounds m1) as [Hlo1 Hhi1].
  pose proof (digits2_pos_bounds m2) as [Hlo2 Hhi2].
  assert (Hp : 2 ^ (prec - 1) * 2 = 2 ^ prec) by reflexivity.
  destruct (Z.compare_spec e1 e2) as [->|Hlt|Hgt].
  - rewrite Z.min_id, Z.sub_diag, !Z.mul_1_r. reflexivity.
  - rewrite Z.min_l, Z.sub_diag, Z.mul_1_r by lia.
    apply Z.compare_lt_iff.
    assert (H2 : 2 <= 2 ^ (e2 - e1)).
    { change 2 with (2 ^ 1) at 1. apply Z.pow_le_mono_r; lia. }
    rewrite Hn2 in Hlo2 by lia.
    assert (Z.pos m1 < 2 ^ prec).
    { eapply Z.lt_le_trans; [exact Hhi1|]. apply Z.pow_le_mono_r; lia. }
    nia.
  - rewrite Z.min_r, Z.sub_diag, Z.mul_1_r by lia.
    apply Z.compare_gt_iff.
    assert (H2 : 2 <= 2 ^ (e1 - e2)).
    { change 2 with (2 ^ 1) at 1. apply Z.pow_le_mono_r; lia. }
    rewrite Hn1 in Hlo1 by lia.
    assert (Z.pos m2 < 2 ^ prec).
    { eapply Z.lt_le_trans; [exact Hhi2|]. apply Z.pow_le_mono_r; lia. }
    nia.
Qed.

Lemma SFcompare_finite (s1 s2 : bool) (m1 m2 : positive) (e1 e2 : Z) :
  bounded prec emax m1 e1 = true -> bounded prec emax m2 e2 = true ->
  SFcompare (S754_finite s1 m1 e1) (S754_finite s2 m2 e2)
  = Some (alignedValue (Z.min e1 e2) s1 m1 e1 ?= alignedValue (Z.min e1 e2) s2 m2 e2).
Proof.
  intros B1 B2. unfold alignedValue.
  rewrite !shl_align_fst by lia.
  pose proof (canonical_compare m1 m2 e1 e2 B1 B2) as H.
  assert (P1 : 0 < Z.pos m1 * 2 ^ (e1 - Z.min e1 e2))
    by (apply Z.mul_pos_pos; [lia|apply Z.pow_pos_nonneg; lia]).
  assert (P2 : 0 < Z.pos m2 * 2 ^ (e2 - Z.min e1 e2))
    by (apply Z.mul_pos_pos; [lia|apply Z.pow_pos_nonneg; lia]).
  set (M1 := Z.pos m1 * 2 ^ (e1 - Z.min e1 e2)) in *.
  set (M2 := Z.pos m2 * 2 ^ (e2 - Z.min e1 e2)) in *.
  simpl SFcompare. f_equal. destruct s1, s2; simpl cond_Zopp.
  - rewrite Z.compare_opp, (Z.compare_antisym M1 M2), H.
    destruct (e1 ?= e2); reflexivity.
  - symmetry. apply Z.compare_lt_iff. lia.
  - symmetry. apply Z.compare_gt_iff. lia.
  - symmetry. exact H.
Qed.

Lemma SFsub_positive (x y : spec_float) :
  valid_binary x = true -> valid_binary y = true ->
  x <> S754_nan -> y <> S754_nan ->
  SFpositive (SFsub prec emax y x) = SFltb x y.
Proof.
  intros Vx Vy Nx Ny.
  destruct x as [sx|sx| |sx mx ex], y as [sy|sy| |sy my ey];
    try contradiction; try (destruct sx, sy; reflexivity);
    try (destruct sx; reflexivity); try (destruct sy; reflexivity).
  simpl in Vx, Vy. unfold SFltb. rewrite (SFcompare_finite _ _ _ _ _ _ Vx Vy).
  unfold SFsub.
  destruct (bounded_canonical mx ex Vx) as (Hx & _).
  destruct (bounded_canonical my ey Vy) as (Hy & _).
  rewrite binary_normalize_positive by lia.
  rewrite (Z.min_comm ey ex). unfold alignedValue.
  set (a := cond_Zopp sx _). set (b := cond_Zopp sy _).
  destruct (Z.compare_spec a b); destruct (Z.ltb_spec 0 (b - a)); try reflexivity; lia.
Qed.

Lemma rank_finite (m : positive) (e : Z) :
  bounded prec emax m e = true ->
  0 < (e - emin) * 2 ^ prec + Z.pos m < (emax - emin + 1) * 2 ^ prec
  /\ Z.pos m < 2 ^ prec /\ emin <= e.
Proof.
  intros B. destruct (bounded_canonical m e B) as (He & Hd & _).
  unfold bounded in B. apply andb_true_iff in B as [_ B]. apply Z.leb_le in B.
  pose proof (digits2_pos_bounds m) as [_ Hhi].
  assert (Hm : Z.pos m < 2 ^ prec).
  { eapply Z.lt_le_trans; [exact Hhi|]. apply Z.pow_le_mono_r; lia. }
  assert (HP : 0 < 2 ^ prec) by (apply Z.pow_pos_nonneg; unfold prec; lia).
  repeat split; try assumption; try nia.
Qed.

Lemma SFcompare_rank (x y : spec_float) :
  valid_binary x = true -> valid_binary y = true ->
  x <> S754_nan -> y <> S754_nan ->
  SFcompare x y = Some (rank x ?= rank y).
Proof.
  intros Vx Vy Nx Ny.
  destruct x as [sx|sx| |sx mx ex], y as [sy|sy| |sy my ey];
    try contradiction; simpl in Vx, Vy;
    try pose proof (rank_finite _ _ Vx) as (Rx & Mx & Ex);
    try pose proof (rank_finite _ _ Vy) as (Ry & My & Ey);
    simpl SFcompare; simpl rank; f_equal; symmetry.
  all: try (destruct sx); try (destruct sy); simpl cond_Zopp;
    try reflexivity;
    try (apply Z.compare_lt_iff; lia); try (apply Z.compare_gt_iff; lia).
  all: assert (HP : 0 < 2 ^ prec) by (apply Z.pow_pos_nonneg; unfold prec; lia).
  - rewrite Z.compare_opp.
    destruct (Z.compare_spec ex ey) as [->|H|H].
    + rewrite Z.add_compare_mono_l, Pos.compare_cont_antisym. reflexivity.
    + apply Z.compare_gt_iff. nia.
    + apply Z.compare_lt_iff. nia.
  - destruct (Z.compare_spec ex ey) as [->|H|H].
    + rewrite Z.add_compare_mono_l. reflexivity.
    + apply Z.compare_lt_iff. nia.
    + apply Z.compare_gt_iff. nia.
Qed.

Lemma SFleb_rank (x y : spec_float) :
  valid_binary x = true -> valid_binary y = true ->
  SFleb x y = true <-> x <> S754_nan /\ y <> S754_nan /\ rank x <= rank y.
Proof.
  intros Vx Vy. unfold SFleb. split.
  - intros H.
    assert (Nx : x <> S754_nan) by (intros ->; discriminate H).
    assert (Ny : y <> S754_nan) by (intros ->; destruct x; discriminate H).
    rewrite (SFcompare_rank x y Vx Vy Nx Ny) in H.
    repeat split; try assumption.
    destruct (Z.compare_spec (rank x) (rank y)); try lia; discriminate H.
  - intros (Nx & Ny & H). rewrite (SFcompare_rank x y Vx Vy Nx Ny).
    destruct (Z.compare_spec (rank x) (rank y)); try reflexivity; lia.
Qed.

End FloatOrder.

(** ** Rounding *)

Section Rounding.
Local Open Scope Z_scope.

Lemma digits2_pos_eq (p : positive) (k : Z) :
  2 ^ (k - 1) <= Z.pos p < 2 ^ k -> Z.pos (digits2_pos p) = k.
Proof.
  intros [Hlo Hhi]. pose proof (digits2_pos_bounds p) as [Dlo Dhi].
  assert (Hk : 0 < k).
  { destruct (Z.ltb_spec 0 k) as [H|H]; [exact H|].
    destruct (Z.eqb_spec k 0) as [->|Hne].
    - simpl in Hhi. lia.
    - rewrite Z.pow_neg_r in Hhi by lia. lia. }
  assert (H1 : Z.pos (digits2_pos p) - 1 < k).
  { apply (Z.pow_lt_mono_r_iff 2); lia. }
  assert (H2 : k - 1 < Z.pos (digits2_pos p)).
  { apply (Z.pow_lt_mono_r_iff 2); lia. }
  lia.
Qed.

Lemma round_nearest_even_bounds (m : Z) (l : location) :
  m <= round_nearest_even m l <= m + 1.
Proof.
  destruct l as [|[]]; simpl; try lia. destruct (Z.even m); lia.
Qed.

(** The result of rounding a positive mantissa that neither underflows to
    zero nor overflows: the mantissa truncated to the target exponent, or
    the next one. *)
Lemma binary_round_aux_value (sx : bool) (mx ex : Z) (lx : location) :
  0 < mx ->
  let e0 := Z.max ex (fexp prec emax (Zdigits2 mx + ex)) in
  let m0 := mx / 2 ^ (e0 - ex) in
  0 < m0 ->
  (binary_round_aux prec emax sx mx ex lx = S754_infinity sx
   /\ emax - prec <= e0)
  \/ exists m e r,
       binary_round_aux prec emax sx mx ex lx = S754_finite sx m e
       /\ m0 <= r <= m0 + 1
       /\ e0 <= e <= e0 + 1
       /\ Z.pos m * 2 ^ (e - e0) = r
       /\ (Z.pos m = r \/ Z.pos m = 2 ^ (prec - 1))
       /\ Z.pos m < 2 ^ prec.
Proof.
  intros Hmx e0 m0 Hm0.
  destruct mx as [|p|p]; try lia.
  pose proof (digits2_pos_bounds p) as [Dlo Dhi].
  simpl Zdigits2 in *. set (D := Z.pos (digits2_pos p)) in *.
  assert (Hemin : emin <= e0) by (unfold e0, fexp; fold emin; lia).
  assert (Hm0hi : m0 < 2 ^ prec).
  { unfold m0. apply Z.div_lt_upper_bound; [apply Z.pow_pos_nonneg; lia|].
    rewrite <- Z.pow_add_r by (unfold prec; lia).
    eapply Z.lt_le_trans; [exact Dhi|].
    apply Z.pow_le_mono_r; [lia|]. unfold e0, fexp. lia. }
  unfold binary_round_aux.
  assert (Hfirst : exists mrs,
             shr_fexp prec emax (Z.pos p) ex lx = (mrs, e0)
             /\ shr_m mrs = m0).
  { unfold shr_fexp, shr. simpl Zdigits2. fold D.
    destruct (fexp prec emax (D + ex) - ex) as [|n|n] eqn:En.
    - eexists. split; [f_equal; unfold e0; lia|].
      rewrite shr_record_of_loc_m. unfold m0.
      replace (e0 - ex) with 0 by (unfold e0; lia).
      now rewrite Z.div_1_r.
    - eexists. split; [f_equal; unfold e0; lia|].
      rewrite iter_pos_shr_1 by (rewrite shr_record_of_loc_m; lia).
      rewrite shr_record_of_loc_m, Z.shiftr_div_pow2 by lia.
      unfold m0. f_equal. f_equal. unfold e0. lia.
    - eexists. split; [f_equal; unfold e0; lia|].
      rewrite shr_record_of_loc_m. unfold m0.
      replace (e0 - ex) with 0 by (unfold e0; lia).
      now rewrite Z.div_1_r. }
  destruct Hfirst as (mrs & -> & Hmrs). rewrite Hmrs.
  pose proof (round_nearest_even_bounds m0 (loc_of_shr_record mrs)) as Hr.
  destruct (round_nearest_even m0 (loc_of_shr_record mrs)) as [|pr|pr];
    try lia.
  destruct (Z.ltb_spec (Z.pos pr) (2 ^ prec)) as [Hlt|Hge].
  - (* no carry *)
    assert (Hd : Z.pos (digits2_pos pr) <= prec).
    { pose proof (digits2_pos_bounds pr) as [Rlo Rhi].
      assert (Z.pos (digits2_pos pr) - 1 < prec)
        by (apply (Z.pow_lt_mono_r_iff 2); first [lia|unfold prec; lia]).
      lia. }
    unfold shr_fexp, shr. simpl Zdigits2.
    destruct (fexp prec emax (Z.pos (digits2_pos pr) + e0) - e0)
      as [|n|n] eqn:En;
      try (unfold fexp in En; fold emin in En; lia).
    + simpl shr_m. destruct (Z.leb_spec e0 (emax - prec));
        [|left; split; [reflexivity|lia]].
      right. exists pr, e0, (Z.pos pr). rewrite Z.sub_diag.
      split; [reflexivity|]. split; [lia|]. split; [lia|].
      split; [lia|]. split; [now left|lia].
    + simpl shr_m. destruct (Z.leb_spec e0 (emax - prec));
        [|left; split; [reflexivity|lia]].
      right. exists pr, e0, (Z.pos pr). rewrite Z.sub_diag.
      split; [reflexivity|]. split; [lia|]. split; [lia|].
      split; [lia|]. split; [now left|lia].
  - (* the mantissa is rounded up to 2^prec *)
    assert (Hpr : Z.pos pr = 2 ^ prec) by lia.
    assert (Hd : Z.pos (digits2_pos pr) = prec + 1).
    { apply digits2_pos_eq. rewrite Hpr.
      replace (prec + 1 - 1) with prec by lia. split; [lia|].
      apply Z.pow_lt_mono_r; unfold prec; lia. }
    unfold shr_fexp, shr. simpl Zdigits2. rewrite Hd.
    replace (fexp prec emax (prec + 1 + e0) - e0) with 1
      by (unfold fexp; fold emin; lia).
    simpl SpecFloat.iter_pos.
    assert (Hpr' : pr = (2 ^ 53)%positive).
    { apply Pos2Z.inj. rewrite Hpr. reflexivity. }
    subst pr. simpl shr_m.
    destruct (Z.leb_spec (e0 + 1) (emax - prec));
      [|left; split; [reflexivity|lia]].
    right. eexists _, (e0 + 1), (2 ^ prec). split; [reflexivity|].
    split; [lia|]. split; [lia|].
    replace (e0 + 1 - e0) with 1 by lia.
    split; [reflexivity|]. split; [right; reflexivity|reflexivity].
Qed.

(** The square root of a float, when it is finite and not zero, has an
    exponent of -589 at least. *)
Lemma SFsqrt_core_exponent (mx : positive) (ex : Z) :
  emin <= ex ->
  let '(q, e', l) := SFsqrt_core_binary prec emax (Z.pos mx) ex in
  0 < q /\ -589 <= e'.
Proof.
  intros Hex. unfold SFsqrt_core_binary. simpl Zdigits2.
  pose proof (digits2_pos_bounds mx) as [Dlo Dhi].
  set (D := Z.pos (digits2_pos mx)) in *.
  set (e' := Z.min (fexp prec emax (Z.div2 (D + ex + 1))) (Z.div2 ex)).
  assert (HD : 1 <= D) by (unfold D; lia).
  assert (He' : -589 <= e' /\ 2 * e' <= ex).
  { unfold e', fexp. rewrite !Z.div2_div. unfold emin, prec, emax in *.
    pose proof (Z.div_mod ex 2 ltac:(lia)).
    pose proof (Z.mod_pos_bound ex 2 ltac:(lia)).
    pose proof (Z.div_mod (D + ex + 1) 2 ltac:(lia)).
    pose proof (Z.mod_pos_bound (D + ex + 1) 2 ltac:(lia)).
    lia. }
  destruct He' as [Hlo Hs].
  set (m' := match ex - 2 * e' with
             | 0 => Z.pos mx
             | Z.pos _ => Z.shiftl (Z.pos mx) (ex - 2 * e')
             | Z.neg _ => 0
             end).
  assert (Hm' : 0 < m').
  { unfold m'. destruct (ex - 2 * e') as [|s|s] eqn:Es; [lia| |lia].
    rewrite Z.shiftl_mul_pow2 by lia.
    apply Z.mul_pos_pos; [lia|apply Z.pow_pos_nonneg; lia]. }
  pose proof (Z.sqrtrem_spec m' ltac:(lia)) as Hsq.
  destruct (Z.sqrtrem m') as [q r]. split; [|exact Hlo].
  destruct Hsq as [Hq Hr]. nia.
Qed.

Lemma shr_fexp_exponent (m e : Z) (l : location) :
  e <= snd (shr_fexp prec emax m e l).
Proof.
  unfold shr_fexp, shr.
  destruct (fexp prec emax (Zdigits2 m + e) - e); simpl; lia.
Qed.

Lemma binary_round_aux_exponent (sx : bool) (mx ex : Z) (lx : location) :
  0 < mx -> emin <= ex ->
  match binary_round_aux prec emax sx mx ex lx with
  | S754_finite s _ e => s = sx /\ ex <= e
  | S754_infinity s => s = sx
  | _ => False
  end.
Proof.
  intros Hm He. unfold binary_round_aux.
  pose proof (shr_fexp_pos mx ex lx Hm He) as [H1 H1'].
  pose proof (shr_fexp_exponent mx ex lx) as X1.
  destruct (shr_fexp prec emax mx ex lx) as [mrs' e']. simpl in H1, H1', X1.
  pose proof (shr_fexp_pos _ e' loc_Exact
                (round_nearest_even_pos _ (loc_of_shr_record mrs') H1) H1')
    as [H2 _].
  pose proof (shr_fexp_exponent
                (round_nearest_even (shr_m mrs') (loc_of_shr_record mrs'))
                e' loc_Exact) as X2.
  destruct (shr_fexp prec emax _ e' loc_Exact) as [mrs'' e''].
  simpl in H2, X2.
  destruct (shr_m mrs'') as [|p|p]; try lia.
  destruct (e'' <=? emax - prec); [split; [reflexivity|lia]|reflexivity].
Qed.

Lemma SFsqrt_exponent (x : spec_float) :
  valid_binary x = true ->
  match SFsqrt prec emax x with
  | S754_finite s _ e => s = false /\ -589 <= e
  | S754_infinity s => s = false
  | _ => True
  end.
Proof.
  intros V. destruct x as [s|[]| |[] m e]; simpl; auto.
  simpl in V. destruct (bounded_canonical m e V) as (He & _).
  pose proof (SFsqrt_core_exponent m e He) as H.
  destruct (SFsqrt_core_binary prec emax (Z.pos m) e) as [[q e'] l].
  destruct H as [Hq He'].
  pose proof (binary_round_aux_exponent false q e' l Hq
                ltac:(unfold emin, emax, prec; lia)) as H.
  destruct (binary_round_aux prec emax false q e' l); auto.
  destruct H. split; [assumption|lia].
Qed.

(** The product of two such floats does not underflow to zero. *)
Lemma SFmul_no_underflow (mx my : positive) (ex ey : Z) :
  bounded prec emax mx ex = true -> bounded prec emax my ey = true ->
  -589 <= ex -> -589 <= ey ->
  match SFmul prec emax (S754_finite false mx ex) (S754_finite false my ey) with
  | S754_finite _ _ _ | S754_infinity _ => True
  | _ => False
  end.
Proof.
  intros Bx By Hx Hy. simpl.
  destruct (bounded_canonical mx ex Bx) as (_ & _ & Nx).
  destruct (bounded_canonical my ey By) as (_ & _ & Ny).
  pose proof (digits2_pos_bounds mx) as [Xlo _].
  pose proof (digits2_pos_bounds my) as [Ylo _].
  rewrite Nx in Xlo by (unfold emin, emax, prec; lia).
  rewrite Ny in Ylo by (unfold emin, emax, prec; lia).
  pose proof (digits2_pos_bounds (mx * my)) as [Dlo Dhi].
  destruct (binary_round_aux_value false (Z.pos (mx * my)) (ex + ey) loc_Exact)
    as [[-> _]|(m & e & r & -> & _)]; try exact I; [lia|].
  simpl Zdigits2. set (D := Z.pos (digits2_pos (mx * my))) in *.
  set (e0 := Z.max (ex + ey) (fexp prec emax (D + (ex + ey)))).
  apply Z.div_str_pos. split; [apply Z.pow_pos_nonneg; lia|].
  assert (H104 : 2 ^ 104 <= Z.pos (mx * my)).
  { rewrite Pos2Z.inj_mul. change (2 ^ 104) with (2 ^ (prec - 1) * 2 ^ (prec - 1)).
    apply Z.mul_le_mono_nonneg; try lia; apply Z.pow_nonneg; lia. }
  assert (HD : 105 <= D).
  { assert (104 < D); [|lia]. apply (Z.pow_lt_mono_r_iff 2); lia. }
  destruct (Z.max_spec (ex + ey) (fexp prec emax (D + (ex + ey))))
    as [[_ He0]|[_ He0]]; fold e0 in He0.
  - unfold fexp in He0. fold emin in He0.
    destruct (Z.max_spec (D + (ex + ey) - prec) emin) as [[_ Hf]|[_ Hf]];
      rewrite Hf in He0.
    + etransitivity; [|exact H104].
      apply Z.pow_le_mono_r; [lia|]. unfold emin, emax, prec in *. lia.
    + etransitivity; [|exact Dlo].
      apply Z.pow_le_mono_r; [lia|]. unfold prec in *. lia.
  - rewrite He0, Z.sub_diag. simpl. lia.
Qed.

Lemma sqrt_product_nonzero (x y : float) :
  PrimFloat.eqb (PrimFloat.sqrt x) 0 = false ->
  PrimFloat.eqb (PrimFloat.sqrt y) 0 = false ->
  PrimFloat.eqb (PrimFloat.sqrt x * PrimFloat.sqrt y) 0 = false.
Proof.
  rewrite !FloatAxioms.eqb_spec, mul_spec, !sqrt_spec.
  pose proof (SFsqrt_exponent (Prim2SF x) (Prim2SF_valid x)) as Hx.
  pose proof (SFsqrt_exponent (Prim2SF y) (Prim2SF_valid y)) as Hy.
  pose proof (Prim2SF_valid (PrimFloat.sqrt x)) as Vx.
  pose proof (Prim2SF_valid (PrimFloat.sqrt y)) as Vy.
  rewrite sqrt_spec in Vx, Vy.
  change (Prim2SF 0) with (S754_zero false).
  unfold SF64mul, SF64sqrt in *.
  destruct (SFsqrt prec emax (Prim2SF x)) as [sx|sx| |sx mx ex];
    destruct (SFsqrt prec emax (Prim2SF y)) as [sy|sy| |sy my ey];
    intros H1 H2; try discriminate H1; try discriminate H2;
    try reflexivity; simpl in Hx, Hy.
  - subst sx sy. reflexivity.
  - destruct Hy as [-> _]. subst sx. reflexivity.
  - destruct Hx as [-> _]. subst sy. reflexivity.
  - destruct Hx as [-> Hx], Hy as [-> Hy]. simpl in Vx, Vy.
    pose proof (SFmul_no_underflow mx my ex ey Vx Vy Hx Hy) as H.
    destruct (SFmul prec emax _ _) as [s|s| |s m e]; try contradiction;
      destruct s; reflexivity.
Qed.

Lemma div_mod_step (N k : Z) :
  0 <= k ->
  N / 2 ^ (k + 1) = (N / 2 ^ k) / 2
  /\ N mod 2 ^ (k + 1) = N mod 2 ^ k + 2 ^ k * ((N / 2 ^ k) mod 2).
Proof.
  intros Hk. assert (Hp : 0 < 2 ^ k) by (apply Z.pow_pos_nonneg; lia).
  rewrite Z.pow_add_r, Z.pow_1_r by lia. split.
  - rewrite Z.div_div by lia. reflexivity.
  - apply Z.rem_mul_r; lia.
Qed.

Lemma shifted_start (N : Z) : shifted N 0 (shr_record_of_loc N loc_Exact).
Proof.
  unfold shifted. simpl. rewrite Z.div_1_r, Z.mod_1_r. split; reflexivity.
Qed.

Lemma shifted_shr_1 (N k : Z) (mrs : shr_record) :
  0 <= N -> 0 <= k -> shifted N k mrs -> shifted N (k + 1) (shr_1 mrs).
Proof.
  intros HN Hk [Hm Hl].
  destruct (div_mod_step N k Hk) as [Hdiv Hmod].
  assert (Hp : 0 < 2 ^ k) by (apply Z.pow_pos_nonneg; lia).
  pose proof (Z.mod_pos_bound N (2 ^ k) Hp) as Hrem.
  assert (Hq : 0 <= N / 2 ^ k) by (apply Z.div_pos; lia).
  unfold shifted. rewrite Hdiv, Hmod.
  rewrite Z.pow_add_r, Z.pow_1_r by lia.
  set (q := N / 2 ^ k) in *.
  set (rem := N mod 2 ^ k) in *. set (u := 2 ^ k) in *.
  clearbody rem u q.
  destruct mrs as [m r s]. simpl in Hm. subst m.
  assert (Hrs : orb r s = negb (rem =? 0)).
  { unfold locationOf in Hl. simpl in Hl.
    destruct (Z.eqb_spec rem 0), r, s; simpl; try reflexivity;
      discriminate Hl. }
  clear Hl.
  assert (Hshape : q = 2 * (q / 2) + q mod 2 /\ (q mod 2 = 0 \/ q mod 2 = 1)).
  { pose proof (Z.div_mod q 2 ltac:(lia)).
    pose proof (Z.mod_pos_bound q 2 ltac:(lia)). lia. }
  destruct Hshape as [Hshape Hpar].
  assert (Hres : shr_m (shr_1 {| shr_m := q; shr_r := r; shr_s := s |})
                 = q / 2
                 /\ shr_r (shr_1 {| shr_m := q; shr_r := r; shr_s := s |})
                    = (q mod 2 =? 1)
                 /\ shr_s (shr_1 {| shr_m := q; shr_r := r; shr_s := s |})
                    = orb r s).
  { destruct q as [|[p|p|]|p]; try lia; simpl shr_1; cbn [shr_m shr_r shr_s].
    - auto.
    - assert (Z.pos p~1 / 2 = Z.pos p /\ Z.pos p~1 mod 2 = 1) as [-> ->].
      { rewrite Pos2Z.inj_xI. split.
        - symmetry. apply (Z.div_unique _ 2 _ 1); lia.
        - symmetry. apply (Z.mod_unique _ 2 (Z.pos p) 1); lia. }
      auto.
    - assert (Z.pos p~0 / 2 = Z.pos p /\ Z.pos p~0 mod 2 = 0) as [-> ->].
      { rewrite Pos2Z.inj_xO. split.
        - symmetry. apply (Z.div_unique _ 2 _ 0); lia.
        - symmetry. apply (Z.mod_unique _ 2 (Z.pos p) 0); lia. }
      auto.
    - split; [vm_compute; reflexivity|].
      split; [vm_compute; reflexivity|reflexivity]. }
  destruct Hres as (R1 & R2 & R3).
  destruct (shr_1 _) as [m' r' s']. cbn [shr_m shr_r shr_s] in *.
  subst m' r' s'. split; [reflexivity|].
  rewrite Hrs. unfold locationOf. simpl loc_of_shr_record.
  destruct Hpar as [Hpar|Hpar]; rewrite Hpar; simpl Z.eqb.
  - rewrite Z.mul_0_r, Z.add_0_r.
    destruct (Z.eqb_spec rem 0) as [->|Hne]; simpl; [reflexivity|].
    f_equal. symmetry. apply Z.compare_lt_iff. lia.
  - rewrite Z.mul_1_r.
    destruct (Z.eqb_spec (rem + u) 0) as [Habs|_]; [lia|].
    destruct (Z.eqb_spec rem 0) as [->|Hne]; simpl; f_equal; symmetry.
    + apply Z.compare_eq_iff. lia.
    + apply Z.compare_gt_iff. lia.
Qed.

Lemma shifted_iter_pos (p : positive) (N k : Z) (mrs : shr_record) :
  0 <= N -> 0 <= k -> shifted N k mrs ->
  shifted N (k + Z.pos p) (SpecFloat.iter_pos shr_1 p mrs).
Proof.
  intros HN. revert k mrs.
  induction p as [p IH|p IH|]; intros k mrs Hk H; simpl SpecFloat.iter_pos.
  - replace (k + Z.pos p~1) with (k + 1 + Z.pos p + Z.pos p) by lia.
    apply IH; [lia|]. apply IH; [lia|]. now apply shifted_shr_1.
  - replace (k + Z.pos p~0) with (k + Z.pos p + Z.pos p) by lia.
    apply IH; [lia|]. now apply IH.
  - now apply shifted_shr_1.
Qed.

(** Rounding to nearest: the rounded quotient is within half a unit of the
    integer that was shifted. *)
Lemma shifted_nearest (N k : Z) (mrs : shr_record) :
  0 <= N -> 0 <= k -> shifted N k mrs ->
  2 * Z.abs (round_nearest_even (shr_m mrs) (loc_of_shr_record mrs) * 2 ^ k
             - N) <= 2 ^ k.
Proof.
  intros HN Hk [Hm Hl]. rewrite Hm, Hl.
  assert (Hp : 0 < 2 ^ k) by (apply Z.pow_pos_nonneg; lia).
  pose proof (Z.mod_pos_bound N (2 ^ k) Hp) as Hrem.
  pose proof (Z.div_mod N (2 ^ k) ltac:(lia)) as Hdm.
  set (q := N / 2 ^ k) in *.
  set (rem := N mod 2 ^ k) in *. set (u := 2 ^ k) in *.
  clearbody rem u q.
  unfold locationOf. destruct (Z.eqb_spec rem 0) as [->|Hne]; simpl.
  - lia.
  - destruct (Z.compare_spec (2 * rem) u); simpl;
      [destruct (Z.even q)|..]; nia.
Qed.

(** The first shift of [binary_round_aux], from an exact mantissa. *)
Lemma shr_fexp_shifted (mx ex : Z) :
  0 < mx ->
  let e0 := Z.max ex (fexp prec emax (Zdigits2 mx + ex)) in
  exists mrs,
    shr_fexp prec emax mx ex loc_Exact = (mrs, e0)
    /\ shifted mx (e0 - ex) mrs.
Proof.
  intros Hmx e0. unfold shr_fexp, shr.
  destruct (fexp prec emax (Zdigits2 mx + ex) - ex) as [|n|n] eqn:En.
  - eexists. split; [f_equal; unfold e0; lia|].
    replace (e0 - ex) with 0 by (unfold e0; lia). apply shifted_start.
  - eexists. split; [f_equal; unfold e0; lia|].
    replace (e0 - ex) with (0 + Z.pos n) by (unfold e0; lia).
    apply shifted_iter_pos; [lia|lia|apply shifted_start].
  - eexists. split; [f_equal; unfold e0; lia|].
    replace (e0 - ex) with 0 by (unfold e0; lia). apply shifted_start.
Qed.

Lemma loc_of_shr_record_of_loc (m : Z) (l : location) :
  loc_of_shr_record (shr_record_of_loc m l) = l.
Proof. destruct l as [|[]]; reflexivity. Qed.

(** The second shift of [binary_round_aux]: a mantissa of [prec] bits at
    most is left as it is; [2^prec] loses its last bit. *)
Lemma shr_fexp_rounded (r e0 : Z) :
  0 <= r <= 2 ^ prec -> fexp prec emax (Z.min prec (Zdigits2 r) + e0) <= e0 ->
  shr_m (fst (shr_fexp prec emax r e0 loc_Exact))
  = (if r =? 2 ^ prec then 2 ^ (prec - 1) else r)
  /\ snd (shr_fexp prec emax r e0 loc_Exact)
     = (if r =? 2 ^ prec then e0 + 1 else e0).
Proof.
  intros Hr He0. destruct r as [|p|p]; try lia.
  - change (Z.min prec (Zdigits2 0)) with 0 in He0.
    unfold shr_fexp, shr. simpl Zdigits2. simpl Z.eqb.
    destruct (fexp prec emax (0 + e0) - e0) as [|n|n] eqn:En; simpl; auto.
    lia.
  - pose proof (digits2_pos_bounds p) as [Dlo Dhi].
    destruct (Z.eqb_spec (Z.pos p) (2 ^ prec)) as [Heq|Hne].
    + assert (Hd : Z.pos (digits2_pos p) = prec + 1).
      { apply digits2_pos_eq. rewrite Heq.
        replace (prec + 1 - 1) with prec by lia. split; [lia|].
        apply Z.pow_lt_mono_r; unfold prec; lia. }
      unfold shr_fexp, shr. cbn [Zdigits2] in *. rewrite Hd in *.
      rewrite Z.min_l in He0 by lia.
      replace (fexp prec emax (prec + 1 + e0) - e0) with 1
        by (unfold fexp, emin, prec, emax in *; lia).
      assert (Hp : p = (2 ^ 53)%positive)
        by (apply Pos2Z.inj; rewrite Heq; reflexivity).
      subst p. simpl. auto.
    + assert (Hd : Z.pos (digits2_pos p) <= prec).
      { assert (Z.pos (digits2_pos p) - 1 < prec); [|lia].
        apply (Z.pow_lt_mono_r_iff 2); first [lia|unfold prec; lia]. }
      unfold shr_fexp, shr. cbn [Zdigits2] in *.
      rewrite Z.min_r in He0 by lia.
      destruct (fexp prec emax (Z.pos (digits2_pos p) + e0) - e0)
        as [|n|n] eqn:En; simpl; auto. lia.
Qed.

(** The first shift of [binary_round_aux] truncates the mantissa to the
    target exponent. *)
Lemma shr_fexp_truncates (mx ex : Z) (lx : location) :
  0 < mx ->
  let e0 := Z.max ex (fexp prec emax (Zdigits2 mx + ex)) in
  snd (shr_fexp prec emax mx ex lx) = e0
  /\ shr_m (fst (shr_fexp prec emax mx ex lx)) = mx / 2 ^ (e0 - ex)
  /\ (e0 = ex ->
      loc_of_shr_record (fst (shr_fexp prec emax mx ex lx)) = lx).
Proof.
  intros Hmx e0. unfold shr_fexp, shr.
  destruct (fexp prec emax (Zdigits2 mx + ex) - ex) as [|n|n] eqn:En;
    cbn [fst snd].
  - split; [unfold e0; lia|]. rewrite shr_record_of_loc_m.
    replace (e0 - ex) with 0 by (unfold e0; lia).
    rewrite Z.div_1_r. split; [reflexivity|].
    intros _. apply loc_of_shr_record_of_loc.
  - split; [unfold e0; lia|].
    rewrite iter_pos_shr_1 by (rewrite shr_record_of_loc_m; lia).
    rewrite shr_record_of_loc_m, Z.shiftr_div_pow2 by lia.
    split; [f_equal; f_equal; unfold e0; lia|].
    unfold e0. lia.
  - split; [unfold e0; lia|]. rewrite shr_record_of_loc_m.
    replace (e0 - ex) with 0 by (unfold e0; lia).
    rewrite Z.div_1_r. split; [reflexivity|].
    intros _. apply loc_of_shr_record_of_loc.
Qed.

(** What [binary_round_aux] returns, by the rounded mantissa [r]: zero, a
    float of mantissa [r], or, when the rounding carried to [2^prec], a float
    of mantissa [2^(prec-1)] one exponent up; infinity past the largest
    exponent. *)
Lemma binary_round_aux_cases (sx : bool) (mx ex : Z) (lx : location) :
  0 < mx ->
  let e0 := Z.max ex (fexp prec emax (Zdigits2 mx + ex)) in
  let m0 := mx / 2 ^ (e0 - ex) in
  let r := round_nearest_even m0
             (loc_of_shr_record (fst (shr_fexp prec emax mx ex lx))) in
  m0 <= r <= m0 + 1 /\ 0 <= m0 < 2 ^ prec
  /\ binary_round_aux prec emax sx mx ex lx
     = if r =? 0 then S754_zero sx
       else if r =? 2 ^ prec
            then if e0 + 1 <=? emax - prec
                 then S754_finite sx (2 ^ 52)%positive (e0 + 1)
                 else S754_infinity sx
            else if e0 <=? emax - prec
                 then S754_finite sx (Z.to_pos r) e0
                 else S754_infinity sx.
Proof.
  intros Hmx e0 m0 r.
  destruct (shr_fexp_truncates mx ex lx Hmx) as (Hsnd & Hfst & _).
  fold e0 in Hsnd, Hfst. fold m0 in Hfst.
  assert (Hemin : emin <= e0) by (unfold e0, fexp; fold emin; lia).
  assert (Hm0 : 0 <= m0 < 2 ^ prec).
  { unfold m0. split; [apply Z.div_pos; [lia|apply Z.pow_pos_nonneg; lia]|].
    destruct mx as [|p|p]; try lia.
    pose proof (digits2_pos_bounds p) as [Dlo Dhi]. simpl Zdigits2 in *.
    apply Z.div_lt_upper_bound; [apply Z.pow_pos_nonneg; lia|].
    rewrite <- Z.pow_add_r by (unfold prec; lia).
    eapply Z.lt_le_trans; [exact Dhi|].
    apply Z.pow_le_mono_r; [lia|]. unfold e0, fexp. lia. }
  pose proof (round_nearest_even_bounds m0
                (loc_of_shr_record (fst (shr_fexp prec emax mx ex lx))))
    as Hr.
  fold r in Hr.
  split; [exact Hr|]. split; [exact Hm0|].
  unfold binary_round_aux.
  destruct (shr_fexp prec emax mx ex lx) as [mrs' e'] eqn:E1.
  cbn [fst snd] in *. subst e'. rewrite Hfst. fold r.
  destruct (shr_fexp_rounded r e0) as [Hm2 He2].
  { lia. }
  { assert (Z.min prec (Zdigits2 r) <= prec) by lia.
    unfold fexp in *. fold emin in *. lia. }
  destruct (shr_fexp prec emax r e0 loc_Exact) as [mrs'' e''].
  cbn [fst snd] in *. rewrite Hm2, He2.
  destruct (Z.eqb_spec r 0) as [->|Hr0].
  - reflexivity.
  - destruct (Z.eqb_spec r (2 ^ prec)) as [Hc|Hc].
    + reflexivity.
    + destruct r as [|pr|pr]; try lia. reflexivity.
Qed.

(** From an exact mantissa, the rounded mantissa is the nearest one. *)
Lemma binary_round_aux_nearest (mx ex : Z) :
  0 < mx ->
  let e0 := Z.max ex (fexp prec emax (Zdigits2 mx + ex)) in
  let m0 := mx / 2 ^ (e0 - ex) in
  let r := round_nearest_even m0
             (loc_of_shr_record (fst (shr_fexp prec emax mx ex loc_Exact))) in
  2 * Z.abs (r * 2 ^ (e0 - ex) - mx) <= 2 ^ (e0 - ex).
Proof.
  intros Hmx e0 m0 r.
  destruct (shr_fexp_shifted mx ex Hmx) as (mrs & Hs & Hsh). fold e0 in Hs, Hsh.
  pose proof (shifted_nearest mx (e0 - ex) mrs ltac:(lia)
                ltac:(unfold e0; lia) Hsh) as H.
  destruct Hsh as [Hm _]. unfold r, m0. rewrite Hs. cbn [fst].
  rewrite <- Hm. exact H.
Qed.

End Rounding.

(** ** The rounding error of the self-similarity *)

Module RoundingError.
Import Reals Lra Dyadic.
Local Open Scope R_scope.

Lemma powerRZ_2_pos (e : Z) : 0 < powerRZ 2 e.
Proof. apply powerRZ_lt. lra. Qed.

Lemma powerRZ_2_add (a b : Z) :
  powerRZ 2 (a + b) = powerRZ 2 a * powerRZ 2 b.
Proof. apply powerRZ_add. lra. Qed.

Lemma powerRZ_2_nonneg (k : Z) : (0 <= k)%Z -> powerRZ 2 k = IZR (2 ^ k).
Proof.
  intros Hk. rewrite <- (Z2Nat.id k Hk) at 1.
  rewrite <- pow_powerRZ, pow_IZR. now rewrite Z2Nat.id.
Qed.

Lemma F2R_shift (m e k : Z) :
  (0 <= k)%Z -> F2R (m * 2 ^ k) e = F2R m (e + k).
Proof.
  intros Hk. unfold F2R.
  rewrite mult_IZR, <- powerRZ_2_nonneg by exact Hk.
  rewrite powerRZ_2_add. ring.
Qed.

Lemma F2R_le (m1 m2 e : Z) : (m1 <= m2)%Z -> F2R m1 e <= F2R m2 e.
Proof.
  intros H. unfold F2R. apply Rmult_le_compat_r.
  - left. apply powerRZ_2_pos.
  - now apply IZR_le.
Qed.

Lemma F2R_lt (m1 m2 e : Z) : (m1 < m2)%Z -> F2R m1 e < F2R m2 e.
Proof.
  intros H. unfold F2R. apply Rmult_lt_compat_r.
  - apply powerRZ_2_pos.
  - now apply IZR_lt.
Qed.

Lemma F2R_le_inv (m1 m2 e : Z) : F2R m1 e <= F2R m2 e -> (m1 <= m2)%Z.
Proof.
  intros H. destruct (Z.le_gt_cases m1 m2) as [Hle|Hgt]; [exact Hle|].
  apply (F2R_lt _ _ e) in Hgt. lra.
Qed.

Lemma F2R_mul (m1 e1 m2 e2 : Z) :
  F2R m1 e1 * F2R m2 e2 = F2R (m1 * m2) (e1 + e2).
Proof. unfold F2R. rewrite mult_IZR, powerRZ_2_add. ring. Qed.

Lemma F2R_pos (m e : Z) : (0 < m)%Z -> 0 < F2R m e.
Proof.
  intros H. unfold F2R. apply Rmult_lt_0_compat.
  - now apply (IZR_lt 0).
  - apply powerRZ_2_pos.
Qed.

Lemma eps_bounds : 0 < eps <= / 1000.
Proof.
  unfold eps. split; [apply powerRZ_2_pos|].
  change (-52)%Z with (- (52))%Z. rewrite powerRZ_neg', powerRZ_2_nonneg by lia.
  apply Rinv_le_contravar; [lra|]. apply IZR_le. lia.
Qed.

(** A mantissa of 53 bits is at least [1 / eps] units. *)
Lemma unit_le_eps (r e : Z) :
  (2 ^ 52 <= r)%Z -> powerRZ 2 e <= eps * F2R r e.
Proof.
  intros Hr. unfold F2R, eps.
  assert (H : 1 <= powerRZ 2 (-52) * IZR r).
  { apply IZR_le in Hr. rewrite <- powerRZ_2_nonneg in Hr by lia.
    pose proof (powerRZ_2_pos (-52)) as Hp.
    replace 1 with (powerRZ 2 (-52) * powerRZ 2 52).
    - apply Rmult_le_compat_l; lra.
    - rewrite <- powerRZ_2_add. reflexivity. }
  pose proof (powerRZ_2_pos e) as Hu.
  replace (powerRZ 2 (-52) * (IZR r * powerRZ 2 e))
    with ((powerRZ 2 (-52) * IZR r) * powerRZ 2 e) by ring.
  rewrite <- (Rmult_1_l (powerRZ 2 e)) at 1.
  apply Rmult_le_compat_r; lra.
Qed.

(** Three roundings of relative error [eps] leave [x / (sqrt x * sqrt x)]
    within [8 * eps] of 1. *)
Lemma quotient_near_one (S X P Q : R) :
  0 < S ->
  ((1 - eps) * S) * ((1 - eps) * S) <= X <= ((1 + eps) * S) * ((1 + eps) * S) ->
  (1 - eps) * (S * S) <= P <= (1 + eps) * (S * S) ->
  (1 - eps) * X <= Q * P <= (1 + eps) * X ->
  1 - 8 * eps <= Q <= 1 + 8 * eps.
Proof.
  pose proof eps_bounds as [He0 He1].
  generalize dependent eps. intros e He0 He1 HS [HX1 HX2] [HP1 HP2] [HQ1 HQ2].
  assert (HT : 0 < S * S) by nra.
  set (T := S * S) in *.
  replace ((1 - e) * S * ((1 - e) * S)) with ((1 - e) * (1 - e) * T) in HX1
    by (unfold T; ring).
  replace ((1 + e) * S * ((1 + e) * S)) with ((1 + e) * (1 + e) * T) in HX2
    by (unfold T; ring).
  clearbody T. clear HS S.
  assert (HPpos : 0 < P) by nra.
  assert (HXpos : 0 < X) by nra.
  split.
  - destruct (Rle_or_lt (1 - 8 * e) Q) as [H|H]; [exact H|exfalso].
    assert (HQpos : 0 < Q) by nra.
    assert (H1 : Q * P <= Q * ((1 + e) * T)) by nra.
    assert (H2 : Q * ((1 + e) * T) < (1 - 8 * e) * ((1 + e) * T)) by nra.
    assert (H3 : (1 - e) * ((1 - e) * (1 - e) * T) <= Q * P) by nra.
    assert (H4 : (1 - 8 * e) * (1 + e) < (1 - e) * ((1 - e) * (1 - e))) by nra.
    nra.
  - destruct (Rle_or_lt Q (1 + 8 * e)) as [H|H]; [exact H|exfalso].
    assert (H1 : (1 + 8 * e) * ((1 - e) * T) < Q * P) by nra.
    assert (H3 : Q * P <= (1 + e) * ((1 + e) * (1 + e) * T)) by nra.
    assert (H4 : (1 + e) * ((1 + e) * (1 + e)) < (1 + 8 * e) * (1 - e)) by nra.
    nra.
Qed.

(** The value of a rounded float over the exponent the rounding aimed at. *)
Lemma F2R_result (m : positive) (e e0 r : Z) :
  (e0 <= e)%Z -> (Z.pos m * 2 ^ (e - e0) = r)%Z ->
  F2R (Z.pos m) e = F2R r e0.
Proof.
  intros He <-. rewrite F2R_shift by lia. f_equal. lia.
Qed.

Lemma square_le (a b : R) : 0 <= a -> a <= b -> a * a <= b * b.
Proof. intros. nra. Qed.

Lemma digits2_pos_range (p : positive) (lo hi : Z) :
  (2 ^ lo <= Z.pos p < 2 ^ hi)%Z -> (0 <= lo)%Z ->
  (lo < Z.pos (digits2_pos p) <= hi)%Z.
Proof.
  intros [Hlo Hhi] H0. pose proof (digits2_pos_bounds p) as [Dlo Dhi].
  assert (Hhi0 : (0 <= hi)%Z).
  { destruct (Z.le_gt_cases 0 hi) as [H|H]; [exact H|].
    rewrite Z.pow_neg_r in Hhi by lia. lia. }
  split.
  - apply (Z.pow_lt_mono_r_iff 2); lia.
  - assert (Z.pos (digits2_pos p) - 1 < hi)%Z; [|lia].
    apply (Z.pow_lt_mono_r_iff 2); lia.
Qed.

(** The rounded value over the truncated one: both in the same unit
    interval, in the normal range. *)
Lemma rounded_close (mx m0 r n e0 ex : Z) :
  (0 <= n)%Z -> (e0 = ex + n)%Z -> (m0 = mx / 2 ^ n)%Z ->
  (2 ^ 52 <= m0)%Z -> (m0 <= r <= m0 + 1)%Z ->
  F2R m0 e0 <= F2R mx ex
  /\ F2R (mx + 1) ex <= F2R (m0 + 1) e0
  /\ F2R m0 e0 <= F2R r e0 <= F2R (m0 + 1) e0
  /\ F2R (m0 + 1) e0 - F2R m0 e0 <= eps * F2R m0 e0.
Proof.
  intros Hn He0 Hm0 Hnorm Hr.
  assert (Hpow : (0 < 2 ^ n)%Z) by (apply Z.pow_pos_nonneg; lia).
  pose proof (Z.div_mod mx (2 ^ n) ltac:(lia)) as Hdm.
  pose proof (Z.mod_pos_bound mx (2 ^ n) Hpow) as Hmod.
  rewrite <- Hm0 in Hdm.
  assert (E1 : F2R m0 e0 = F2R (m0 * 2 ^ n) ex)
    by (rewrite F2R_shift by lia; now subst e0).
  assert (E2 : F2R (m0 + 1) e0 = F2R ((m0 + 1) * 2 ^ n) ex)
    by (rewrite F2R_shift by lia; now subst e0).
  split; [rewrite E1; apply F2R_le; lia|].
  split; [rewrite E2; apply F2R_le; lia|].
  split; [split; apply F2R_le; lia|].
  pose proof (unit_le_eps m0 e0 Hnorm) as Hu.
  unfold F2R in *. rewrite plus_IZR. lra.
Qed.

(** The order of two positive floats is the order of their values. *)
Lemma SFleb_F2R (m1 m2 : positive) (e1 e2 : Z) :
  SpecFloat.bounded prec emax m1 e1 = true ->
  SpecFloat.bounded prec emax m2 e2 = true ->
  F2R (Z.pos m1) e1 <= F2R (Z.pos m2) e2 ->
  SFleb (S754_finite false m1 e1) (S754_finite false m2 e2) = true.
Proof.
  intros B1 B2 H. unfold SFleb.
  rewrite (SFcompare_finite false false m1 m2 e1 e2 B1 B2).
  unfold alignedValue. simpl cond_Zopp.
  rewrite !shl_align_fst by lia.
  set (ez := Z.min e1 e2) in *.
  assert (E1 : F2R (Z.pos m1) e1 = F2R (Z.pos m1 * 2 ^ (e1 - ez)) ez)
    by (rewrite F2R_shift by lia; f_equal; lia).
  assert (E2 : F2R (Z.pos m2) e2 = F2R (Z.pos m2 * 2 ^ (e2 - ez)) ez)
    by (rewrite F2R_shift by lia; f_equal; lia).
  rewrite E1, E2 in H. apply F2R_le_inv in H.
  destruct (Z.compare_spec (Z.pos m1 * 2 ^ (e1 - ez))
              (Z.pos m2 * 2 ^ (e2 - ez))); try reflexivity; lia.
Qed.

Lemma tolerance_values :
  F2R 9007199254740976 (-53) = 1 - 8 * eps
  /\ F2R 4503599627370504 (-52) = 1 + 8 * eps.
Proof.
  unfold F2R, eps.
  assert (H : IZR (2 ^ 52) * powerRZ 2 (-52) = 1).
  { rewrite <- powerRZ_2_nonneg by lia. rewrite <- powerRZ_2_add.
    reflexivity. }
  assert (H' : powerRZ 2 (-52) = 2 * powerRZ 2 (-53)).
  { replace (-52)%Z with (1 + -53)%Z by lia. rewrite powerRZ_2_add.
    simpl. ring. }
  change (2 ^ 52)%Z with 4503599627370496%Z in H.
  split; lra.
Qed.

(** The square root of a positive float, normal or not: a normal float,
    within one unit in the last place of the root. *)
Lemma SFsqrt_any (md : positive) (ed : Z) :
  (Z.pos md < 2 ^ 53)%Z -> (-1074 <= ed <= 971)%Z ->
  exists ms es,
    SFsqrt prec emax (S754_finite false md ed) = S754_finite false ms es
    /\ (2 ^ 52 <= Z.pos ms < 2 ^ 53)%Z
    /\ (es = Z.div2 (Z.pos (digits2_pos md) + ed + 1) - 53)%Z
    /\ 0 < F2R (Z.pos ms) es
    /\ ((1 - eps) * F2R (Z.pos ms) es) * ((1 - eps) * F2R (Z.pos ms) es)
       <= F2R (Z.pos md) ed
       <= ((1 + eps) * F2R (Z.pos ms) es) * ((1 + eps) * F2R (Z.pos ms) es).
Proof.
  intros Hmd Hed. unfold SFsqrt, SFsqrt_core_binary. simpl Zdigits2.
  pose proof (digits2_pos_bounds md) as [Dlo Dhi].
  set (D := Z.pos (digits2_pos md)) in *.
  assert (HD : (1 <= D <= 53)%Z).
  { split; [unfold D; lia|].
    assert (D - 1 < 53)%Z; [|lia]. apply (Z.pow_lt_mono_r_iff 2); lia. }
  set (e' := Z.min (fexp prec emax (Z.div2 (D + ed + 1))) (Z.div2 ed)).
  assert (He' : (e' = Z.div2 (D + ed + 1) - 53
                 /\ 105 - D <= ed - 2 * e' <= 106 - D
                 /\ -589 <= e' <= 459)%Z).
  { unfold e', fexp. rewrite !Z.div2_div. unfold emin, prec, emax.
    pose proof (Z.div_mod ed 2 ltac:(lia)).
    pose proof (Z.mod_pos_bound ed 2 ltac:(lia)).
    pose proof (Z.div_mod (D + ed + 1) 2 ltac:(lia)).
    pose proof (Z.mod_pos_bound (D + ed + 1) 2 ltac:(lia)).
    lia. }
  destruct He' as (He' & Hshift & Hrange).
  set (s := (ed - 2 * e')%Z) in *.
  set (m' := match s with
             | 0%Z => Z.pos md
             | Z.pos _ => Z.shiftl (Z.pos md) s
             | Z.neg _ => 0%Z
             end).
  assert (Hm' : (m' = Z.pos md * 2 ^ s)%Z).
  { unfold m'. destruct s as [|p|p] eqn:Es; try lia.
    rewrite Z.shiftl_mul_pow2 by lia. reflexivity. }
  assert (Hm'range : (2 ^ 104 <= m' <= 2 ^ 106 - 2 ^ 53)%Z).
  { rewrite Hm'.
    assert (Hlo : (2 ^ 104 <= 2 ^ (D - 1) * 2 ^ s)%Z).
    { rewrite <- Z.pow_add_r by lia. apply Z.pow_le_mono_r; lia. }
    assert (Hhi : (2 ^ D * 2 ^ s <= 2 ^ 106)%Z).
    { rewrite <- Z.pow_add_r by lia. apply Z.pow_le_mono_r; lia. }
    assert (Hs : (2 ^ 53 <= 2 ^ s \/ 2 ^ D * 2 ^ s <= 2 ^ 105)%Z).
    { destruct (Z.le_gt_cases 53 s) as [H|H].
      - left. apply Z.pow_le_mono_r; lia.
      - right. rewrite <- Z.pow_add_r by lia. apply Z.pow_le_mono_r; lia. }
    assert (0 < 2 ^ s)%Z by (apply Z.pow_pos_nonneg; lia).
    change (2 ^ 105)%Z with (2 ^ 106 - 2 ^ 105)%Z in Hs.
    split; [nia|]. destruct Hs as [Hs|Hs]; [nia|].
    assert (2 ^ 53 <= 2 ^ 105)%Z by (apply Z.pow_le_mono_r; lia). nia. }
  pose proof (Z.sqrtrem_spec m' ltac:(lia)) as Hsq.
  destruct (Z.sqrtrem m') as [q rem]. destruct Hsq as [Hq Hrem].
  assert (Hqrange : (2 ^ 52 <= q < 2 ^ 53)%Z).
  { change (2 ^ 104)%Z with (2 ^ 52 * 2 ^ 52)%Z in Hm'range.
    change (2 ^ 106)%Z with (2 ^ 53 * 2 ^ 53)%Z in Hm'range.
    split; nia. }
  set (l := if (rem =? 0)%Z then loc_Exact
            else loc_Inexact (if (rem <=? q)%Z then Lt else Gt)).
  destruct q as [|pq|pq]; try lia.
  assert (Hdq : Z.pos (digits2_pos pq) = 53%Z)
    by (apply digits2_pos_eq; simpl; lia).
  pose proof (binary_round_aux_cases false (Z.pos pq) e' l ltac:(lia))
    as Hcases.
  destruct (shr_fexp_truncates (Z.pos pq) e' l ltac:(lia)) as (_ & _ & Hloc).
  cbv zeta in Hcases, Hloc.
  simpl Zdigits2 in Hcases, Hloc. rewrite Hdq in Hcases, Hloc.
  replace (Z.max e' (fexp prec emax (53 + e'))) with e' in Hcases, Hloc
    by (unfold fexp, emin, prec, emax; lia).
  rewrite Z.sub_diag, Z.div_1_r in Hcases.
  rewrite (Hloc eq_refl) in Hcases.
  set (r := round_nearest_even (Z.pos pq) l) in *.
  destruct Hcases as (Hr & _ & Hres).
  assert (Hrlt : (r < 2 ^ 53)%Z).
  { destruct (Z.eq_dec (Z.pos pq) (2 ^ 53 - 1)) as [Htop|Htop]; [|lia].
    assert (Hle : (rem <= Z.pos pq)%Z).
    { rewrite Htop in *.
      change (2 ^ 106)%Z with ((2 ^ 53 - 1) * (2 ^ 53 - 1) + 2 ^ 54 - 1)%Z
        in Hm'range.
      change (2 ^ 54)%Z with (2 * 2 ^ 53)%Z in Hm'range. lia. }
    unfold r, l. destruct (Z.eqb_spec rem 0); simpl; [lia|].
    destruct (Z.leb_spec rem (Z.pos pq)); simpl; lia. }
  rewrite Hres.
  destruct (Z.eqb_spec r 0) as [Hz|_]; [lia|].
  destruct (Z.eqb_spec r (2 ^ prec)) as [Hc|_];
    [unfold prec in Hc; lia|].
  destruct (Z.leb_spec e' (emax - prec)) as [_|Hbig];
    [|unfold emax, prec in Hbig; lia].
  exists (Z.to_pos r), e'.
  assert (Hpos : Z.pos (Z.to_pos r) = r) by (apply Z2Pos.id; lia).
  rewrite Hpos.
  split; [reflexivity|]. split; [lia|]. split; [fold D; lia|].
  assert (HX : F2R (Z.pos md) ed = F2R m' (e' + e')).
  { rewrite Hm', F2R_shift by lia. f_equal. unfold s. lia. }
  rewrite HX.
  pose proof (unit_le_eps r e' ltac:(lia)) as Hu.
  pose proof (powerRZ_2_pos e') as Hupos.
  assert (HS : F2R r e' = IZR r * powerRZ 2 e') by reflexivity.
  assert (Hlow : F2R ((r - 1) * (r - 1)) (e' + e') <= F2R m' (e' + e'))
    by (apply F2R_le; nia).
  assert (Hupp : F2R m' (e' + e') <= F2R ((r + 1) * (r + 1)) (e' + e'))
    by (apply F2R_le; nia).
  rewrite <- F2R_mul in Hlow, Hupp.
  assert (Hm1 : F2R (r - 1) e' = F2R r e' - powerRZ 2 e')
    by (unfold F2R; rewrite minus_IZR; ring).
  assert (Hp1 : F2R (r + 1) e' = F2R r e' + powerRZ 2 e')
    by (unfold F2R; rewrite plus_IZR; ring).
  assert (Hrpos : 0 < F2R r e') by (apply F2R_pos; lia).
  assert (Hm1pos : 0 <= F2R (r - 1) e').
  { unfold F2R. apply Rmult_le_pos; [apply (IZR_le 0); lia|lra]. }
  pose proof eps_bounds as [He0 He1].
  split; [exact Hrpos|]. split.
  - etransitivity; [|exact Hlow].
    apply square_le; [nra|]. rewrite Hm1. nra.
  - etransitivity; [exact Hupp|].
    apply square_le; [rewrite Hp1; lra|]. rewrite Hp1. nra.
Qed.

(** The square of a normal float, when it is a normal float too: it does
    not overflow below [2^512]. *)
Lemma SFmul_square_normal (ms : positive) (es : Z) :
  (2 ^ 52 <= Z.pos ms < 2 ^ 53)%Z -> (-563 <= es <= 459)%Z ->
  exists mp ep,
    SFmul prec emax (S754_finite false ms es) (S754_finite false ms es)
    = S754_finite false mp ep
    /\ (2 ^ 52 <= Z.pos mp < 2 ^ 53)%Z
    /\ (2 * es + 52 <= ep <= 2 * es + 54)%Z
    /\ (1 - eps) * (F2R (Z.pos ms) es * F2R (Z.pos ms) es)
       <= F2R (Z.pos mp) ep
       <= (1 + eps) * (F2R (Z.pos ms) es * F2R (Z.pos ms) es).
Proof.
  intros Hms Hes. simpl SFmul.
  assert (Hsq : (2 ^ 104 <= Z.pos (ms * ms) < 2 ^ 106)%Z).
  { rewrite Pos2Z.inj_mul.
    change (2 ^ 104)%Z with (2 ^ 52 * 2 ^ 52)%Z.
    change (2 ^ 106)%Z with (2 ^ 53 * 2 ^ 53)%Z. nia. }
  pose proof (digits2_pos_range (ms * ms) 104 106 Hsq ltac:(lia)) as HD.
  pose proof (digits2_pos_bounds (ms * ms)) as [Dlo Dhi].
  pose proof (binary_round_aux_cases false (Z.pos (ms * ms)) (es + es)
                loc_Exact ltac:(lia)) as Hcases.
  cbv zeta in Hcases. simpl Zdigits2 in Hcases.
  set (D := Z.pos (digits2_pos (ms * ms))) in *.
  set (e0 := Z.max (es + es) (fexp prec emax (D + (es + es)))) in *.
  assert (He0 : (e0 = es + es + (D - 53))%Z)
    by (unfold e0, fexp, emin, prec, emax; lia).
  set (m0 := (Z.pos (ms * ms) / 2 ^ (e0 - (es + es)))%Z) in *.
  assert (Hm0 : (2 ^ 52 <= m0)%Z).
  { unfold m0. replace (e0 - (es + es))%Z with (D - 53)%Z by lia.
    apply Z.div_le_lower_bound; [apply Z.pow_pos_nonneg; lia|].
    rewrite <- Z.pow_add_r by lia.
    replace (D - 53 + 52)%Z with (D - 1)%Z by lia. exact Dlo. }
  set (r := round_nearest_even m0 _) in *.
  destruct Hcases as (Hr & Hm0hi & Hres).
  assert (Hcarry : (r = 2 ^ 53 -> D = 105)%Z).
  { intros Hc. destruct (Z.eq_dec D 105) as [H|H]; [exact H|exfalso].
    assert (HD106 : D = 106%Z) by lia.
    assert (Hm0top : (m0 = 2 ^ 53 - 1)%Z) by (unfold prec in Hm0hi; lia).
    assert (Hle : (m0 * 2 ^ 53 <= Z.pos (ms * ms))%Z).
    { unfold m0. replace (e0 - (es + es))%Z with 53%Z by lia.
      rewrite Z.mul_comm. apply Z.mul_div_le. lia. }
    rewrite Hm0top, Pos2Z.inj_mul in Hle.
    change (2 ^ 53)%Z with 9007199254740992%Z in *. nia. }
  assert (Hfinite :
    exists mp ep,
      binary_round_aux prec emax false (Z.pos (ms * ms)) (es + es) loc_Exact
      = S754_finite false mp ep
      /\ (e0 <= ep <= e0 + 1)%Z /\ (Z.pos mp * 2 ^ (ep - e0) = r)%Z
      /\ (2 ^ 52 <= Z.pos mp < 2 ^ 53)%Z).
  { rewrite Hres. destruct (Z.eqb_spec r 0) as [Hz|_]; [lia|].
    destruct (Z.eqb_spec r (2 ^ prec)) as [Hc|Hc].
    - specialize (Hcarry Hc).
      destruct (Z.leb_spec (e0 + 1) (emax - prec)) as [_|Hbig];
        [|unfold emax, prec in Hbig; lia].
      exists (2 ^ 52)%positive, (e0 + 1)%Z. split; [reflexivity|].
      split; [lia|]. replace (e0 + 1 - e0)%Z with 1%Z by lia.
      split; [rewrite Hc; reflexivity|]. simpl. lia.
    - destruct (Z.leb_spec e0 (emax - prec)) as [_|Hbig].
      + exists (Z.to_pos r), e0. split; [reflexivity|].
        rewrite Z2Pos.id by lia. rewrite Z.sub_diag.
        split; [lia|]. split; [lia|]. unfold prec in *. lia.
      + exfalso. unfold emax, prec in Hbig.
        assert (D = 106 /\ es = 459)%Z as [HD106 Hes459] by lia.
        lia. }
  destruct Hfinite as (mp & ep & Heq & Hep & Hval & Hmp).
  exists mp, ep. split; [exact Heq|]. split; [exact Hmp|].
  split; [lia|].
  rewrite (F2R_result mp ep e0 r) by lia.
  rewrite F2R_mul. rewrite <- Pos2Z.inj_mul.
  destruct (rounded_close (Z.pos (ms * ms)) m0 r (D - 53) e0 (es + es))
    as (H1 & H2 & H3 & H4); try lia.
  { unfold m0. f_equal. f_equal. lia. }
  assert (H5 : F2R (Z.pos (ms * ms)) (es + es)
               <= F2R (Z.pos (ms * ms) + 1) (es + es))
    by (apply F2R_le; lia).
  pose proof eps_bounds as [He1 He2].
  assert (H6 : 0 < F2R m0 e0) by (apply F2R_pos; lia).
  split; nra.
Qed.

(** The square of a normal float below [2^-511]: the multiple of [2^-1074]
    nearest to the exact square. *)
Lemma SFmul_square_small (ms : positive) (es : Z) :
  (2 ^ 52 <= Z.pos ms < 2 ^ 53)%Z -> (-589 <= es <= -564)%Z ->
  exists r,
    (0 <= r <= 2 ^ 52)%Z
    /\ (2 * Z.abs (r * 2 ^ (-1074 - 2 * es) - Z.pos ms * Z.pos ms)
        <= 2 ^ (-1074 - 2 * es))%Z
    /\ SFmul prec emax (S754_finite false ms es) (S754_finite false ms es)
       = if (r =? 0)%Z then S754_zero false
         else S754_finite false (Z.to_pos r) (-1074).
Proof.
  intros Hms Hes. simpl SFmul.
  assert (Hsq : (2 ^ 104 <= Z.pos (ms * ms) < 2 ^ 106)%Z).
  { rewrite Pos2Z.inj_mul.
    change (2 ^ 104)%Z with (2 ^ 52 * 2 ^ 52)%Z.
    change (2 ^ 106)%Z with (2 ^ 53 * 2 ^ 53)%Z. nia. }
  pose proof (digits2_pos_range (ms * ms) 104 106 Hsq ltac:(lia)) as HD.
  pose proof (binary_round_aux_cases false (Z.pos (ms * ms)) (es + es)
                loc_Exact ltac:(lia)) as Hcases.
  pose proof (binary_round_aux_nearest (Z.pos (ms * ms)) (es + es)
                ltac:(lia)) as Hnear.
  cbv zeta in Hcases, Hnear. simpl Zdigits2 in Hcases, Hnear.
  set (D := Z.pos (digits2_pos (ms * ms))) in *.
  replace (Z.max (es + es) (fexp prec emax (D + (es + es)))) with (-1074)%Z
    in Hcases, Hnear by (unfold fexp, emin, prec, emax; lia).
  replace (-1074 - (es + es))%Z with (-1074 - 2 * es)%Z in Hcases, Hnear
    by lia.
  set (k := (-1074 - 2 * es)%Z) in *.
  set (m0 := (Z.pos (ms * ms) / 2 ^ k)%Z) in *.
  set (r := round_nearest_even m0 _) in *.
  destruct Hcases as (Hr & Hm0 & Hres).
  assert (Hk : (54 <= k)%Z) by (unfold k; lia).
  assert (Hm0hi : (m0 < 2 ^ 52)%Z).
  { unfold m0. apply Z.div_lt_upper_bound; [apply Z.pow_pos_nonneg; lia|].
    assert (H54 : (2 ^ 54 <= 2 ^ k)%Z) by (apply Z.pow_le_mono_r; lia).
    change (2 ^ 106)%Z with (2 ^ 52 * 2 ^ 54)%Z in Hsq.
    assert (0 < 2 ^ 52)%Z by lia. nia. }
  exists r. split; [lia|].
  split; [rewrite <- Pos2Z.inj_mul; exact Hnear|].
  rewrite Hres. destruct (Z.eqb_spec r 0) as [Hz|Hnz]; [reflexivity|].
  destruct (Z.eqb_spec r (2 ^ prec)) as [Hc|_]; [unfold prec in Hc; lia|].
  reflexivity.
Qed.

(** The quotient of two positive floats of about the same magnitude,
    normal or not. *)
Lemma SFdiv_any (md mp : positive) (ed ep : Z) :
  (Z.pos md < 2 ^ 53)%Z -> (Z.pos mp < 2 ^ 53)%Z ->
  (-10 <= Z.pos (digits2_pos md) + ed - (Z.pos (digits2_pos mp) + ep) <= 10)%Z ->
  exists mq eq,
    SFdiv prec emax (S754_finite false md ed) (S754_finite false mp ep)
    = S754_finite false mq eq
    /\ (1 - eps) * F2R (Z.pos md) ed
       <= F2R (Z.pos mq) eq * F2R (Z.pos mp) ep
       <= (1 + eps) * F2R (Z.pos md) ed.
Proof.
  intros Hmd Hmp Hexp. unfold SFdiv, SFdiv_core_binary. simpl Zdigits2.
  pose proof (digits2_pos_bounds md) as [D1lo D1hi].
  pose proof (digits2_pos_bounds mp) as [D2lo D2hi].
  set (D1 := Z.pos (digits2_pos md)) in *.
  set (D2 := Z.pos (digits2_pos mp)) in *.
  assert (HD1 : (1 <= D1 <= 53)%Z).
  { split; [unfold D1; lia|].
    assert (D1 - 1 < 53)%Z; [|lia]. apply (Z.pow_lt_mono_r_iff 2); lia. }
  assert (HD2 : (1 <= D2 <= 53)%Z).
  { split; [unfold D2; lia|].
    assert (D2 - 1 < 53)%Z; [|lia]. apply (Z.pow_lt_mono_r_iff 2); lia. }
  set (e' := Z.min (fexp prec emax (D1 + ed - (D2 + ep))) (ed - ep)).
  assert (He' : (e' = D1 + ed - (D2 + ep) - 53)%Z)
    by (unfold e', fexp, emin, prec, emax; lia).
  set (s := (ed - ep - e')%Z).
  assert (Hs : (s = 53 - D1 + D2 /\ 1 <= s)%Z) by (unfold s; lia).
  destruct Hs as [Hs Hs1].
  assert (Hm' : (match s with
                 | 0 => Z.pos md
                 | Z.pos _ => Z.shiftl (Z.pos md) s
                 | Z.neg _ => 0
                 end = Z.pos md * 2 ^ s)%Z).
  { destruct s as [|p|p] eqn:Es; try lia.
    rewrite Z.shiftl_mul_pow2 by lia. reflexivity. }
  rewrite Hm'.
  set (a := (2 ^ (D2 - 1))%Z) in *.
  assert (Ha : (0 < a)%Z) by (apply Z.pow_pos_nonneg; lia).
  assert (HD2hi : (Z.pos mp < 2 * a)%Z).
  { unfold a. rewrite <- Z.pow_succ_r by lia.
    replace (Z.succ (D2 - 1)) with D2 by lia. exact D2hi. }
  assert (Hm'range : (2 ^ 53 * a <= Z.pos md * 2 ^ s < 2 ^ 54 * a)%Z).
  { unfold a. rewrite <- !Z.pow_add_r by lia.
    replace (53 + (D2 - 1))%Z with ((D1 - 1) + s)%Z by lia.
    replace (54 + (D2 - 1))%Z with (D1 + s)%Z by lia.
    rewrite !Z.pow_add_r by lia.
    assert (0 < 2 ^ s)%Z by (apply Z.pow_pos_nonneg; lia). nia. }
  destruct (Z.div_eucl (Z.pos md * 2 ^ s) (Z.pos mp)) as [qd rem] eqn:Eq.
  assert (Hdm : (Z.pos md * 2 ^ s = Z.pos mp * qd + rem
                 /\ 0 <= rem < Z.pos mp)%Z).
  { pose proof (Z_div_mod (Z.pos md * 2 ^ s) (Z.pos mp) ltac:(lia)) as H.
    rewrite Eq in H. exact H. }
  destruct Hdm as [Hqd Hrem].
  assert (Hqrange : (2 ^ 52 <= qd < 2 ^ 54)%Z).
  { change (2 ^ 54)%Z with (2 * 2 ^ 53)%Z in *.
    change (2 ^ 53)%Z with (2 * 2 ^ 52)%Z in *. split; nia. }
  destruct qd as [|pq|pq]; try lia.
  pose proof (digits2_pos_range pq 52 54 Hqrange ltac:(lia)) as HD.
  pose proof (digits2_pos_bounds pq) as [Dlo Dhi].
  set (l := new_location (Z.pos mp) rem).
  destruct (binary_round_aux_value false (Z.pos pq) e' l ltac:(lia))
    as [[_ Hover]|(mq & eq & r & Hres & Hr & Heq & Hval & _)];
    simpl Zdigits2 in *; set (D := Z.pos (digits2_pos pq)) in *;
    set (e0 := Z.max e' (fexp prec emax (D + e'))) in *;
    assert (He0 : (e0 = e' + (D - 53))%Z)
      by (unfold e0, fexp, emin, prec, emax; lia);
    set (m0 := (Z.pos pq / 2 ^ (e0 - e'))%Z) in *;
    assert (Hm0 : (2 ^ 52 <= m0)%Z)
      by (unfold m0; replace (e0 - e')%Z with (D - 53)%Z by lia;
          apply Z.div_le_lower_bound; [apply Z.pow_pos_nonneg; lia|];
          rewrite <- Z.pow_add_r by lia;
          replace (D - 53 + 52)%Z with (D - 1)%Z by lia; exact Dlo).
  - lia.
  - exfalso. unfold emax, prec in Hover. lia.
  - exists mq, eq. split; [exact Hres|].
    rewrite (F2R_result mq eq e0 r) by lia.
    destruct (rounded_close (Z.pos pq) m0 r (D - 53) e0 e')
      as (H1 & H2 & H3 & H4); try lia.
    { unfold m0. f_equal. f_equal. lia. }
    assert (HX : F2R (Z.pos md) ed = F2R (Z.pos md * 2 ^ s) (e' + ep)).
    { rewrite F2R_shift by lia. f_equal. unfold s. lia. }
    assert (HL : F2R (Z.pos pq) e' * F2R (Z.pos mp) ep <= F2R (Z.pos md) ed).
    { rewrite HX, F2R_mul. apply F2R_le. nia. }
    assert (HU : F2R (Z.pos md) ed
                 <= F2R (Z.pos pq + 1) e' * F2R (Z.pos mp) ep).
    { rewrite HX, F2R_mul. apply F2R_le. nia. }
    assert (HP : 0 < F2R (Z.pos mp) ep) by (apply F2R_pos; lia).
    assert (H6 : 0 < F2R m0 e0) by (apply F2R_pos; lia).
    pose proof eps_bounds as [He1 He2].
    set (P := F2R (Z.pos mp) ep) in *. set (X := F2R (Z.pos md) ed) in *.
    set (va := F2R m0 e0) in *. set (vb := F2R (m0 + 1) e0) in *.
    set (Q := F2R r e0) in *.
    set (lo := F2R (Z.pos pq) e') in *.
    set (hi := F2R (Z.pos pq + 1) e') in *.
    assert (A1 : va * P <= X) by nra.
    assert (A2 : X <= vb * P) by nra.
    assert (A3 : (vb - va) * P <= eps * (va * P)) by nra.
    split; nra.
Qed.

Lemma eps_unit : IZR (2 ^ 52) * eps = 1.
Proof.
  unfold eps. rewrite <- powerRZ_2_nonneg by lia.
  rewrite <- powerRZ_2_add. reflexivity.
Qed.

(** A nearest integer multiple in real terms. *)
Lemma nearest_real (r N k e : Z) :
  (0 <= k)%Z -> (2 * Z.abs (r * 2 ^ k - N) <= 2 ^ k)%Z ->
  - powerRZ 2 (e + k) / 2 <= F2R r (e + k) - F2R N e
  <= powerRZ 2 (e + k) / 2.
Proof.
  intros Hk H.
  assert (H1 : (- 2 ^ k <= 2 * (r * 2 ^ k - N))%Z) by lia.
  assert (H2 : (2 * (r * 2 ^ k - N) <= 2 ^ k)%Z) by lia.
  apply IZR_le in H1, H2.
  rewrite opp_IZR in H1. rewrite mult_IZR, minus_IZR in H1, H2.
  rewrite <- F2R_shift by exact Hk.
  rewrite (Z.add_comm e k), powerRZ_2_add, (powerRZ_2_nonneg k) by exact Hk.
  pose proof (powerRZ_2_pos e) as He. unfold F2R.
  set (w := powerRZ 2 e) in *. set (K := IZR (2 ^ k)) in *.
  set (a := IZR (r * 2 ^ k)) in *. set (b := IZR N) in *.
  split; nra.
Qed.

(** The square root of a subnormal number, squared and rounded, is the
    number itself or at most two units in the last place away. *)
Lemma square_of_root_close (e m rho S2 u : R) :
  0 < e <= / 1000 -> 0 <= m -> 0 <= S2 -> 0 < u ->
  (1 - e) * (1 - e) * S2 <= m * u <= (1 + e) * (1 + e) * S2 ->
  - u / 2 <= rho * u - S2 <= u / 2 ->
  - (/ 2 + 2 * e * m) <= rho - m <= / 2 + (2 * e + 4 * e * e) * m.
Proof.
  intros [He0 He1] Hm HS Hu [H1 H2] [H3 H4].
  assert (Hk1 : 1 <= (1 + 2 * e + 4 * e * e) * ((1 - e) * (1 - e))) by nra.
  assert (Hk2 : (1 - 2 * e) * ((1 + e) * (1 + e)) <= 1) by nra.
  assert (Hup : S2 <= (1 + 2 * e + 4 * e * e) * (m * u)).
  { assert (S2 <= (1 + 2 * e + 4 * e * e) * ((1 - e) * (1 - e) * S2))
      by nra.
    assert (0 <= 1 + 2 * e + 4 * e * e) by nra. nra. }
  assert (Hlo : (1 - 2 * e) * (m * u) <= S2).
  { assert ((1 - 2 * e) * ((1 + e) * (1 + e) * S2) <= S2) by nra.
    assert (0 <= 1 - 2 * e) by nra. nra. }
  split.
  - apply (Rmult_le_reg_r u); [exact Hu|]. nra.
  - apply (Rmult_le_reg_r u); [exact Hu|]. nra.
Qed.

(** The quotient [x / p] of a subnormal number by the rounded square of its
    rounded square root. *)
Lemma subnormal_quotient_close (m rho Q : R) :
  1 <= m <= IZR (2 ^ 52) - 1 ->
  (rho = m \/ (IZR (2 ^ 50) <= m /\ - 2 <= rho - m <= 2)) ->
  0 <= Q ->
  (1 - eps) * m <= Q * rho <= (1 + eps) * m ->
  1 - 16 * eps <= Q <= 1 + 16 * eps.
Proof.
  pose proof eps_unit as Hu. pose proof eps_bounds as [He0 He1].
  change (IZR (2 ^ 52)) with 4503599627370496 in *.
  change (IZR (2 ^ 50)) with 1125899906842624.
  generalize dependent eps. intros e Hu He0 He1 Hm Hrho HQ [H1 H2].
  destruct Hrho as [->|[Hbig [Hr1 Hr2]]].
  - split; nra.
  - assert (He : e * 1125899906842624 = / 4) by lra.
    assert (Hem : / 4 <= e * m) by nra.
    split.
    + destruct (Rle_or_lt (1 - 16 * e) Q) as [H|H]; [exact H|exfalso].
      assert (Q * rho <= Q * (m + 2)) by nra.
      assert (Q * (m + 2) < (1 - 16 * e) * (m + 2)) by nra.
      nra.
    + destruct (Rle_or_lt Q (1 + 16 * e)) as [H|H]; [exact H|exfalso].
      assert (Q * (m - 2) <= Q * rho) by nra.
      assert ((1 + 16 * e) * (m - 2) < Q * (m - 2)) by nra.
      nra.
Qed.

(** [x / (sqrt x * sqrt x)] for a normal [x]. *)
Lemma self_quotient_normal (md : positive) (ed : Z) :
  (2 ^ 52 <= Z.pos md < 2 ^ 53)%Z -> (-1074 <= ed <= 971)%Z ->
  exists ms es mq eq,
    SFsqrt prec emax (S754_finite false md ed) = S754_finite false ms es
    /\ SFdiv prec emax (S754_finite false md ed)
         (SFmul prec emax (S754_finite false ms es) (S754_finite false ms es))
       = S754_finite false mq eq
    /\ 1 - 8 * eps <= F2R (Z.pos mq) eq <= 1 + 8 * eps.
Proof.
  intros Hmd Hed.
  destruct (SFsqrt_any md ed ltac:(lia) Hed)
    as (ms & es & Hs & Hms & Hes & HSpos & HX).
  rewrite (digits2_pos_eq md 53) in Hes by (simpl; lia).
  assert (Hes' : (-563 <= es <= 459 /\ ed - 53 <= 2 * es <= ed - 52)%Z).
  { rewrite Z.div2_div in Hes.
    pose proof (Z.div_mod (53 + ed + 1) 2 ltac:(lia)).
    pose proof (Z.mod_pos_bound (53 + ed + 1) 2 ltac:(lia)). lia. }
  destruct Hes' as [Hrange Hpar].
  destruct (SFmul_square_normal ms es Hms Hrange)
    as (mp & ep & Hp & Hmp & Hep & HP).
  destruct (SFdiv_any md mp ed ep ltac:(lia) ltac:(lia)) as (mq & eq & Hq & HQ).
  { rewrite (digits2_pos_eq md 53), (digits2_pos_eq mp 53) by (simpl; lia).
    lia. }
  exists ms, es, mq, eq. split; [exact Hs|]. rewrite Hp.
  split; [exact Hq|].
  exact (quotient_near_one _ _ _ _ HSpos HX HP HQ).
Qed.

(** [x / (sqrt x * sqrt x)] for a subnormal [x]. *)
Lemma self_quotient_subnormal (md : positive) :
  (Z.pos md < 2 ^ 52)%Z ->
  exists ms es mq eq,
    SFsqrt prec emax (S754_finite false md (-1074)) = S754_finite false ms es
    /\ SFdiv prec emax (S754_finite false md (-1074))
         (SFmul prec emax (S754_finite false ms es) (S754_finite false ms es))
       = S754_finite false mq eq
    /\ 1 - 16 * eps <= F2R (Z.pos mq) eq <= 1 + 16 * eps.
Proof.
  intros Hmd.
  destruct (SFsqrt_any md (-1074) ltac:(lia) ltac:(lia))
    as (ms & es & Hs & Hms & Hes & HSpos & HX).
  pose proof (digits2_pos_bounds md) as [Dlo Dhi].
  set (D := Z.pos (digits2_pos md)) in *.
  assert (HD : (1 <= D <= 52)%Z).
  { split; [unfold D; lia|].
    assert (D - 1 < 52)%Z; [|lia]. apply (Z.pow_lt_mono_r_iff 2); lia. }
  assert (Hrange : (-589 <= es <= -564)%Z).
  { rewrite Z.div2_div in Hes.
    pose proof (Z.div_mod (D + -1074 + 1) 2 ltac:(lia)).
    pose proof (Z.mod_pos_bound (D + -1074 + 1) 2 ltac:(lia)). lia. }
  destruct (SFmul_square_small ms es Hms Hrange) as (r & Hr & Hnear & Hp).
  set (k := (-1074 - 2 * es)%Z) in *.
  pose proof (nearest_real r (Z.pos ms * Z.pos ms) k (es + es) ltac:(lia)
                Hnear) as HN.
  replace (es + es + k)%Z with (-1074)%Z in HN by (unfold k; lia).
  rewrite <- F2R_mul in HN.
  set (S := F2R (Z.pos ms) es) in *.
  set (u := powerRZ 2 (-1074)) in *.
  assert (Hu : 0 < u) by apply powerRZ_2_pos.
  assert (HXu : F2R (Z.pos md) (-1074) = IZR (Z.pos md) * u) by reflexivity.
  assert (HPu : F2R r (-1074) = IZR r * u) by reflexivity.
  rewrite HXu in HX. rewrite HPu in HN.
  pose proof eps_bounds as Heps. pose proof eps_unit as Hunit.
  assert (Hm1 : 1 <= IZR (Z.pos md)) by (apply IZR_le; lia).
  assert (Hm2 : IZR (Z.pos md) <= IZR (2 ^ 52) - 1).
  { rewrite <- minus_IZR. apply IZR_le. lia. }
  destruct (square_of_root_close eps (IZR (Z.pos md)) (IZR r) (S * S) u
              Heps ltac:(lra) ltac:(nra) Hu)
    as [Hlow Hupp].
  { split; [replace ((1 - eps) * (1 - eps) * (S * S))
              with ((1 - eps) * S * ((1 - eps) * S)) by ring; apply HX|].
    replace ((1 + eps) * (1 + eps) * (S * S))
      with ((1 + eps) * S * ((1 + eps) * S)) by ring. apply HX. }
  { exact HN. }
  assert (Hclose : (Z.abs (r - Z.pos md) <= 2)%Z).
  { assert (H1 : IZR r - IZR (Z.pos md) < 3) by (destruct Heps; nra).
    assert (H2 : -3 < IZR r - IZR (Z.pos md)) by (destruct Heps; nra).
    rewrite <- minus_IZR in H1, H2.
    apply lt_IZR in H1, H2. lia. }
  assert (Hsame : (Z.pos md < 2 ^ 50 -> r = Z.pos md)%Z).
  { intros Hsmall.
    assert (Hm3 : IZR (Z.pos md) <= IZR (2 ^ 50) - 1).
    { rewrite <- minus_IZR. apply IZR_le. lia. }
    assert (H4 : IZR (2 ^ 52) = 4 * IZR (2 ^ 50)).
    { change (2 ^ 52)%Z with (4 * 2 ^ 50)%Z. rewrite mult_IZR. reflexivity. }
    assert (H1 : IZR r - IZR (Z.pos md) < 1) by (destruct Heps; nra).
    assert (H2 : -1 < IZR r - IZR (Z.pos md)) by (destruct Heps; nra).
    rewrite <- minus_IZR in H1, H2.
    apply lt_IZR in H1, H2. lia. }
  assert (Hrpos : (0 < r)%Z).
  { destruct (Z.lt_ge_cases (Z.pos md) (2 ^ 50)) as [H|H].
    - rewrite (Hsame H). lia.
    - change (2 ^ 50)%Z with 1125899906842624%Z in H. lia. }
  destruct (Z.eqb_spec r 0) as [Hz|_]; [lia|].
  set (mp := Z.to_pos r) in *.
  assert (Hmp : Z.pos mp = r) by (apply Z2Pos.id; lia).
  assert (Hdigits : (-10 <= D + -1074 - (Z.pos (digits2_pos mp) + -1074)
                     <= 10)%Z).
  { destruct (Z.lt_ge_cases (Z.pos md) (2 ^ 50)) as [H|H].
    - assert (mp = md) by (apply Pos2Z.inj; rewrite Hmp; auto).
      subst mp. fold D. replace (digits2_pos (Z.to_pos r)) with (digits2_pos md)
        by congruence. fold D. lia.
    - assert (H50 : (50 < D)%Z).
      { apply (Z.pow_lt_mono_r_iff 2); lia. }
      assert (Hr49 : (2 ^ 49 <= Z.pos mp < 2 ^ 53)%Z).
      { rewrite Hmp. change (2 ^ 50)%Z with (2 * 2 ^ 49)%Z in H.
        change (2 ^ 53)%Z with (2 * 2 ^ 52)%Z.
        change (2 ^ 49)%Z with 562949953421312%Z in *.
        change (2 ^ 52)%Z with 4503599627370496%Z in *. lia. }
      pose proof (digits2_pos_range mp 49 53 Hr49 ltac:(lia)). lia. }
  destruct (SFdiv_any md mp (-1074) (-1074) ltac:(lia)
              ltac:(rewrite Hmp; change (2 ^ 53)%Z with (2 * 2 ^ 52)%Z; lia)
              Hdigits) as (mq & eq & Hq & HQ).
  exists ms, es, mq, eq. split; [exact Hs|]. rewrite Hp.
  split; [exact Hq|].
  assert (HPp : F2R (Z.pos mp) (-1074) = IZR r * u)
    by (rewrite Hmp; reflexivity).
  rewrite HXu, HPp in HQ.
  assert (HQpos : 0 <= F2R (Z.pos mq) eq)
    by (left; apply F2R_pos; lia).
  apply (subnormal_quotient_close (IZR (Z.pos md)) (IZR r)).
  - split; assumption.
  - destruct (Z.lt_ge_cases (Z.pos md) (2 ^ 50)) as [H|H].
    + left. now rewrite (Hsame H).
    + right. split; [apply IZR_le; exact H|].
      rewrite <- minus_IZR. split.
      * apply (IZR_le (-2)). lia.
      * apply (IZR_le _ 2). lia.
  - exact HQpos.
  - set (Q := F2R (Z.pos mq) eq) in *.
    split; apply (Rmult_le_reg_r u); try exact Hu; nra.
Qed.

(** A float above zero and below infinity. *)
Lemma positive_finite (d : float) :
  PrimFloat.ltb 0 d = true -> PrimFloat.ltb d infinity = true ->
  exists md ed,
    Prim2SF d = S754_finite false md ed
    /\ SpecFloat.bounded prec emax md ed = true.
Proof.
  rewrite !ltb_spec. intros Hlo Hhi.
  pose proof (Prim2SF_valid d) as V.
  change (Prim2SF 0) with (S754_zero false) in Hlo.
  rewrite SFltb_zero in Hlo.
  change (Prim2SF infinity) with (S754_infinity false) in Hhi.
  destruct (Prim2SF d) as [s|s| |s m e]; try discriminate Hlo.
  - destruct s; discriminate.
  - destruct s; [discriminate Hlo|]. exists m, e. split; [reflexivity|exact V].
Qed.

Lemma wide_tolerance_values :
  F2R 9007199254740960 (-53) = 1 - 16 * eps
  /\ F2R 4503599627370512 (-52) = 1 + 16 * eps.
Proof.
  unfold F2R, eps.
  assert (H : IZR (2 ^ 52) * powerRZ 2 (-52) = 1).
  { rewrite <- powerRZ_2_nonneg by lia. rewrite <- powerRZ_2_add.
    reflexivity. }
  assert (H' : powerRZ 2 (-52) = 2 * powerRZ 2 (-53)).
  { replace (-52)%Z with (1 + -53)%Z by lia. rewrite powerRZ_2_add.
    simpl. ring. }
  change (2 ^ 52)%Z with 4503599627370496%Z in H.
  split; lra.
Qed.

(** The quotient [d / (sqrt d * sqrt d)], whose divisor is not zero, is 1 up
    to [2^-48] for every [d] above zero and below infinity, and up to
    [2^-49] for every such [d] that is a normal number. *)
Lemma self_quotient_close (d : float) :
  PrimFloat.ltb 0 d = true -> PrimFloat.ltb d infinity = true ->
  let q := (d / (PrimFloat.sqrt d * PrimFloat.sqrt d))%float in
  PrimFloat.eqb (PrimFloat.sqrt d) 0 = false
  /\ PrimFloat.leb (1 - 0x1p-48) q = true
  /\ PrimFloat.leb q (1 + 0x1p-48) = true
  /\ (PrimFloat.leb 0x1p-1022 d = true ->
      PrimFloat.leb (1 - 0x1p-49) q = true
      /\ PrimFloat.leb q (1 + 0x1p-49) = true).
Proof.
  intros Hlo Hhi q.
  destruct (positive_finite d Hlo Hhi) as (md & ed & Hd & B).
  destruct (bounded_canonical md ed B) as (Hemin & Hdig & Hnorm).
  destruct (rank_finite md ed B) as (_ & Hm & _).
  assert (Hemax : (ed <= 971)%Z).
  { unfold SpecFloat.bounded in B. apply andb_true_iff in B as [_ B].
    apply Z.leb_le in B. unfold emax, prec in B. lia. }
  pose proof (digits2_pos_bounds md) as [Dlo Dhi].
  assert (Hcases :
    exists ms es mq eq,
      SFsqrt prec emax (S754_finite false md ed) = S754_finite false ms es
      /\ SFdiv prec emax (S754_finite false md ed)
           (SFmul prec emax (S754_finite false ms es)
              (S754_finite false ms es))
         = S754_finite false mq eq
      /\ 1 - 16 * eps <= F2R (Z.pos mq) eq <= 1 + 16 * eps
      /\ ((2 ^ 52 <= Z.pos md)%Z ->
          1 - 8 * eps <= F2R (Z.pos mq) eq <= 1 + 8 * eps)).
  { pose proof eps_bounds as [He0 He1].
    destruct (Z.le_gt_cases (2 ^ 52) (Z.pos md)) as [Hn|Hs].
    - destruct (self_quotient_normal md ed) as (ms & es & mq & eq & H1 & H2 & H3).
      { unfold prec in Hm. lia. }
      { unfold emin, emax, prec in Hemin. lia. }
      exists ms, es, mq, eq.
      split; [exact H1|]. split; [exact H2|]. split; [lra|intros _; exact H3].
    - assert (He : ed = (-1074)%Z).
      { destruct (Z.eq_dec ed emin) as [H|H];
          [unfold emin, emax, prec in H; lia|exfalso].
        rewrite Hnorm in Dlo by lia. unfold prec in Dlo. simpl in Dlo. lia. }
      subst ed.
      destruct (self_quotient_subnormal md Hs)
        as (ms & es & mq & eq & H1 & H2 & H3).
      exists ms, es, mq, eq.
      split; [exact H1|]. split; [exact H2|]. split; [exact H3|intros; lia]. }
  destruct Hcases as (ms & es & mq & eq & Hs & Hq & Hwide & Hnarrow).
  assert (Hquot : Prim2SF q = S754_finite false mq eq).
  { unfold q. rewrite div_spec, mul_spec, sqrt_spec, Hd.
    unfold SF64div, SF64mul, SF64sqrt. now rewrite Hs, Hq. }
  pose proof (Prim2SF_valid q) as V. rewrite Hquot in V. simpl in V.
  destruct tolerance_values as [T1 T2].
  destruct wide_tolerance_values as [W1 W2].
  split.
  { rewrite FloatAxioms.eqb_spec, sqrt_spec, Hd. unfold SF64sqrt.
    rewrite Hs. reflexivity. }
  rewrite !leb_spec, Hquot.
  change (Prim2SF (1 - 0x1p-48))
    with (S754_finite false 9007199254740960 (-53)).
  change (Prim2SF (1 + 0x1p-48))
    with (S754_finite false 4503599627370512 (-52)).
  change (Prim2SF (1 - 0x1p-49))
    with (S754_finite false 9007199254740976 (-53)).
  change (Prim2SF (1 + 0x1p-49))
    with (S754_finite false 4503599627370504 (-52)).
  split; [apply SFleb_F2R; try exact V; try reflexivity; lra|].
  split; [apply SFleb_F2R; try exact V; try reflexivity; lra|].
  intros Hnormal.
  assert (Hn : (2 ^ 52 <= Z.pos md)%Z).
  { rewrite Hd in Hnormal.
    apply SFleb_rank in Hnormal; [|reflexivity|exact B].
    destruct Hnormal as (_ & _ & Hrank).
    change (rank (Prim2SF 0x1p-1022)) with (2 ^ 52)%Z in Hrank.
    simpl rank in Hrank. simpl cond_Zopp in Hrank.
    destruct (Z.eq_dec ed emin) as [->|Hne].
    - rewrite Z.sub_diag in Hrank. lia.
    - rewrite Hnorm in Dlo by lia. exact Dlo. }
  specialize (Hnarrow Hn).
  split; apply SFleb_F2R; try exact V; try reflexivity; lra.
Qed.

End RoundingError.

(** ** Cosine similarity *)

Section CosineProperties.
Local Open Scope float_scope.

Lemma accumulate_swap (a b : list number) (d na nb : number) :
  accumulate b a d nb na =
  let '(d', na', nb') := accumulate a b d na nb in (d', nb', na').
Proof.
  revert b d na nb. induction a as [|x a IH]; intros [|y b] d na nb;
    simpl; try reflexivity.
  rewrite IH, (float_mul_comm y x). reflexivity.
Qed.

Lemma accumulate_zero_l (a b : list number) (d nb : number) :
  allZero a = true ->
  snd (fst (accumulate a b d 0 nb)) = 0.
Proof.
  revert b d nb. induction a as [|x a IH]; intros [|y b] d nb H;
    simpl; try reflexivity.
  simpl in H. apply andb_true_iff in H as [Hx Ha].
  rewrite (float_zero_square x Hx). apply IH, Ha.
Qed.

Lemma accumulate_self (a : list number) (d n : number) :
  accumulate a a d n n =
  (fold_left (fun norm x => norm + x * x) a d,
   fold_left (fun norm x => norm + x * x) a n,
   fold_left (fun norm x => norm + x * x) a n).
Proof.
  revert d n. induction a as [|x a IH]; intros d n; simpl; [reflexivity|].
  apply IH.
Qed.

Lemma cosineValue_comm (a b : list number) : cosineValue a b = cosineValue b a.
Proof.
  unfold cosineValue. rewrite (accumulate_swap a b).
  destruct (accumulate a b 0 0 0) as [[d na] nb].
  rewrite orb_comm, (float_mul_comm (sqrt nb) (sqrt na)). reflexivity.
Qed.

Lemma cosineValue_zero_l (a b : list number) :
  allZero a = true -> cosineValue a b = 0.
Proof.
  intros H. unfold cosineValue.
  pose proof (accumulate_zero_l a b 0 0 H) as Hz.
  destruct (accumulate a b 0 0 0) as [[d na] nb]. simpl in Hz. subst na.
  reflexivity.
Qed.

(** C4, as stated, fails: for the nonzero vector [1, 1] the similarity of
    the vector with itself is 0.99999999999999978, not 1; the square root of
    2 times itself is 2.0000000000000004. *)
Lemma self_similarity_is_not_exactly_one :
  allZero [1; 1] = false
  /\ sqrt 2 * sqrt 2 = 2.0000000000000004
  /\ calculateCosineSimilarity [1; 1] [1; 1] = Ok 0.99999999999999978
  /\ calculateCosineSimilarity [1; 1] [1; 1] <> Ok 1.
Proof.
  repeat split; try (vm_compute; reflexivity).
  intros H.
  apply (f_equal (fun o => match o with
                           | Ok x => PrimFloat.eqb x 1
                           | Throw _ => true
                           end)) in H.
  vm_compute in H. discriminate H.
Qed.

(** Outside the range of the sums of squares that binary64 represents, the
    similarity of a nonzero vector with itself is not even close to 1: the
    square of [1e200] overflows to infinity and the similarity is [NaN]; the
    square of [1e-200] underflows to 0 and the similarity is 0. *)
Lemma self_similarity_outside_the_range :
  sumOfSquares [1e200] = infinity
  /\ calculateCosineSimilarity [1e200] [1e200] = Ok nan
  /\ allZero [1e-200] = false
  /\ sumOfSquares [1e-200] = 0
  /\ calculateCosineSimilarity [1e-200] [1e-200] = Ok 0.
Proof. repeat split; vm_compute; reflexivity. Qed.

(** For vectors of equal length the loop accumulates the two sums of
    squares. *)
Lemma accumulate_norms (a b : list number) (d na nb : number) :
  length a = length b ->
  accumulate a b d na nb =
  (fst (fst (accumulate a b d na nb)),
   fold_left (fun norm x => norm + x * x) a na,
   fold_left (fun norm x => norm + x * x) b nb).
Proof.
  revert b d na nb. induction a as [|x a IH]; intros [|y b] d na nb H;
    simpl in *; try reflexivity; try discriminate H.
  apply IH. congruence.
Qed.

(** What is computed for two vectors of equal length. *)
Lemma cosineValue_equal_length (a b : list number) :
  length a = length b ->
  cosineValue a b =
  if PrimFloat.eqb (sqrt (sumOfSquares a)) 0
     || PrimFloat.eqb (sqrt (sumOfSquares b)) 0
  then 0
  else dotProduct a b / (sqrt (sumOfSquares a) * sqrt (sumOfSquares b)).
Proof.
  intros H. unfold cosineValue, dotProduct, sumOfSquares.
  rewrite (accumulate_norms a b 0 0 0 H). reflexivity.
Qed.

(** C4 (amended): the cosine similarity is symmetric, never raises for
    vectors of equal length (it raises exactly for unequal lengths), and is
    exactly 0 whenever either vector is all-zero. It never divides by zero:
    for vectors of equal length it either returns 0 without dividing, one of
    the two norms being zero, or divides the dot product by the product of
    the two norms, which is then not zero. For a vector with itself it
    returns [d / (sqrt d * sqrt d)], [d] being the accumulated sum of squares
    (0 when [sqrt d] is 0). This is 1 up to a tolerance of [2^-48]
    (about 3.6e-15) whenever [d] is above zero and finite, and up to [2^-49]
    when [d] is moreover a normal number ([2^-1022] at least); it is [NaN]
    when [d] has overflowed to infinity or is [NaN], and 0 when [d] is 0,
    which an underflow makes possible for a nonzero vector. *)
Theorem cosine_similarity_properties (a b : list number) :
  calculateCosineSimilarity a b = calculateCosineSimilarity b a
  /\ (length a = length b ->
      exists similarity, calculateCosineSimilarity a b = Ok similarity)
  /\ (length a <> length b ->
      calculateCosineSimilarity a b = Throw lengthError)
  /\ (length a = length b -> allZero a = true \/ allZero b = true ->
      calculateCosineSimilarity a b = Ok 0)
  /\ (length a = length b ->
      let normA := sqrt (sumOfSquares a) in
      let normB := sqrt (sumOfSquares b) in
      (calculateCosineSimilarity a b = Ok 0
       /\ (PrimFloat.eqb normA 0 = true \/ PrimFloat.eqb normB 0 = true))
      \/ (calculateCosineSimilarity a b
          = Ok (dotProduct a b / (normA * normB))
          /\ PrimFloat.eqb normA 0 = false
          /\ PrimFloat.eqb normB 0 = false
          /\ PrimFloat.eqb (normA * normB) 0 = false))
  /\ calculateCosineSimilarity a a =
     Ok (let d := sumOfSquares a in
         if PrimFloat.eqb (sqrt d) 0 then 0 else d / (sqrt d * sqrt d))
  /\ (PrimFloat.ltb 0 (sumOfSquares a) = true ->
      PrimFloat.ltb (sumOfSquares a) infinity = true ->
      exists similarity,
        calculateCosineSimilarity a a = Ok similarity
        /\ PrimFloat.leb (1 - 0x1p-48) similarity = true
        /\ PrimFloat.leb similarity (1 + 0x1p-48) = true
        /\ (PrimFloat.leb 0x1p-1022 (sumOfSquares a) = true ->
            PrimFloat.leb (1 - 0x1p-49) similarity = true
            /\ PrimFloat.leb similarity (1 + 0x1p-49) = true))
  /\ (sumOfSquares a = infinity \/ sumOfSquares a = nan ->
      calculateCosineSimilarity a a = Ok nan)
  /\ (PrimFloat.eqb (sumOfSquares a) 0 = true ->
      calculateCosineSimilarity a a = Ok 0).
Proof.
  assert (Hself : calculateCosineSimilarity a a =
                  Ok (let d := sumOfSquares a in
                      if PrimFloat.eqb (sqrt d) 0 then 0
                      else d / (sqrt d * sqrt d))).
  { rewrite calculateCosineSimilarity_eq, Nat.eqb_refl. simpl. f_equal.
    unfold cosineValue, sumOfSquares.
    rewrite accumulate_self. simpl. rewrite orb_diag. reflexivity. }
  split; [|split; [|split; [|split; [|split; [|split; [|split]]]]]].
  - rewrite !calculateCosineSimilarity_eq.
    rewrite (Nat.eqb_sym (length b)), cosineValue_comm. reflexivity.
  - rewrite calculateCosineSimilarity_eq.
    intros ->. rewrite Nat.eqb_refl. simpl. eauto.
  - rewrite calculateCosineSimilarity_eq.
    intros H. apply Nat.eqb_neq in H. rewrite H. reflexivity.
  - rewrite calculateCosineSimilarity_eq.
    intros -> [H|H]; rewrite Nat.eqb_refl; simpl; f_equal.
    + now apply cosineValue_zero_l.
    + rewrite cosineValue_comm. now apply cosineValue_zero_l.
  - intros Hlen normA normB.
    rewrite calculateCosineSimilarity_eq, Hlen, Nat.eqb_refl. simpl.
    rewrite (cosineValue_equal_length a b Hlen). fold normA normB.
    destruct (PrimFloat.eqb normA 0) eqn:EA; [left; auto|].
    destruct (PrimFloat.eqb normB 0) eqn:EB; [left; auto|].
    right. simpl. repeat split.
    apply sqrt_product_nonzero; assumption.
  - exact Hself.
  - intros Hlo Hhi. rewrite Hself. cbv zeta.
    destruct (RoundingError.self_quotient_close _ Hlo Hhi)
      as (Hnz & H1 & H2 & H3).
    rewrite Hnz. eauto.
  - split.
    + intros [Hd|Hd]; rewrite Hself, Hd; vm_compute; reflexivity.
    + intros Hd. rewrite Hself.
      destruct (float_eqb_zero _ Hd) as [-> | ->]; vm_compute; reflexivity.
Qed.

Lemma cosine_similarity_properties_witness :
  exists similarity,
    calculateCosineSimilarity [1; 1] [1; 1] = Ok similarity
    /\ PrimFloat.leb (1 - 0x1p-48) similarity = true
    /\ PrimFloat.leb similarity (1 + 0x1p-48) = true
    /\ (PrimFloat.leb 0x1p-1022 (sumOfSquares [1; 1]) = true ->
        PrimFloat.leb (1 - 0x1p-49) similarity = true
        /\ PrimFloat.leb similarity (1 + 0x1p-49) = true).
Proof.
  destruct (cosine_similarity_properties [1; 1] [1; 1])
    as (_ & _ & _ & _ & _ & _ & H & _).
  apply H; vm_compute; reflexivity.
Defined.

End CosineProperties.

(** ** Levenshtein distance *)

Section Levenshtein.
Import Cache.

Lemma lev_nil_r (s : string) : lev s EmptyString = String.length s.
Proof. destruct s; reflexivity. Qed.

Lemma lev_cons_cons (a b : ascii) (s t : string) :
  lev (String a s) (String b t) =
  Nat.min (Nat.min (lev s (String b t) + 1) (lev (String a s) t + 1))
          (lev s t + (if Ascii.eqb a b then 0 else 1)).
Proof. reflexivity. Qed.

Lemma lev_achieved (s t : string) : edits s t (lev s t).
Proof.
  revert t. induction s as [|a s IHs]; intros t.
  - induction t as [|b t IHt]; simpl; [constructor|].
    apply edits_insert. exact IHt.
  - induction t as [|b t IHt].
    + rewrite lev_nil_r. simpl. apply edits_delete.
      specialize (IHs EmptyString). rewrite lev_nil_r in IHs. exact IHs.
    + rewrite lev_cons_cons.
      destruct (Nat.min_spec (Nat.min (lev s (String b t) + 1)
                                      (lev (String a s) t + 1))
                             (lev s t + (if Ascii.eqb a b then 0 else 1)))
        as [[_ ->]|[_ ->]].
      * destruct (Nat.min_spec (lev s (String b t) + 1)
                               (lev (String a s) t + 1)) as [[_ ->]|[_ ->]];
          rewrite Nat.add_1_r.
        -- apply edits_delete, IHs.
        -- apply edits_insert, IHt.
      * destruct (Ascii.eqb_spec a b) as [<-|_].
        -- rewrite Nat.add_0_r. apply edits_keep, IHs.
        -- rewrite Nat.add_1_r. apply edits_substitute, IHs.
Qed.

Lemma lev_lower (s t : string) (n : nat) : edits s t n -> (lev s t <= n)%nat.
Proof.
  induction 1 as [|a s t n _ IH|b s t n _ IH|a s t n _ IH|a b s t n _ IH].
  - simpl. lia.
  - destruct t as [|b t].
    + rewrite lev_nil_r in *. simpl. lia.
    + rewrite lev_cons_cons. lia.
  - destruct s as [|a s].
    + simpl in *. lia.
    + rewrite lev_cons_cons. lia.
  - rewrite lev_cons_cons, Ascii.eqb_refl. lia.
  - rewrite lev_cons_cons. destruct (Ascii.eqb a b); lia.
Qed.

Lemma edits_reverseOnto (s t : string) (n : nat) :
  edits s t n ->
  forall s0 t0 m, edits s0 t0 m ->
  edits (reverseOnto s s0) (reverseOnto t t0) (n + m).
Proof.
  induction 1 as [|a s t n _ IH|b s t n _ IH|a s t n _ IH|a b s t n _ IH];
    intros s0 t0 m Hm; simpl.
  - exact Hm.
  - replace (S (n + m)) with (n + S m)%nat by lia. apply IH.
    now apply edits_delete.
  - replace (S (n + m)) with (n + S m)%nat by lia. apply IH.
    now apply edits_insert.
  - apply IH. now apply edits_keep.
  - replace (S (n + m)) with (n + S m)%nat by lia. apply IH.
    now apply edits_substitute.
Qed.

Lemma edits_reverse (s t : string) (n : nat) :
  edits s t n -> edits (reverse s) (reverse t) n.
Proof.
  intros H. replace n with (n + 0)%nat by lia.
  apply (edits_reverseOnto s t n H). constructor.
Qed.

Lemma append_nil_r (s : string) : s +:+ EmptyString = s.
Proof.
  induction s as [|c s IH]; [reflexivity|].
  change (String c (s +:+ EmptyString) = String c s). congruence.
Qed.

Lemma reverseOnto_reverseOnto (s a b : string) :
  reverseOnto (reverseOnto s a) b = reverseOnto a (s +:+ b).
Proof.
  revert a b. induction s as [|c s IH]; intros a b; simpl; [reflexivity|].
  rewrite IH. reflexivity.
Qed.

Lemma reverse_involutive (s : string) : reverse (reverse s) = s.
Proof.
  unfold reverse. rewrite reverseOnto_reverseOnto. simpl. apply append_nil_r.
Qed.

Lemma edits_symmetric (s t : string) (n : nat) : edits s t n -> edits t s n.
Proof. induction 1; constructor; assumption. Qed.

Lemma edits_length_bound (s t : string) :
  edits s t (Nat.max (String.length s) (String.length t)).
Proof.
  revert t. induction s as [|a s IH]; intros t.
  - simpl. induction t as [|b t IHt]; simpl; constructor. exact IHt.
  - destruct t as [|b t]; simpl.
    + apply edits_delete. specialize (IH EmptyString).
      rewrite Nat.max_0_r in IH. exact IH.
    + apply edits_substitute, IH.
Qed.

(** The rows of the matrix. *)
Lemma specRow_nil (s acc : string) :
  specRow s acc EmptyString = seq (String.length acc) (S (String.length s)).
Proof.
  revert acc. induction s as [|c s IH]; intros acc; simpl;
    rewrite lev_nil_r; [reflexivity|].
  f_equal. rewrite IH. reflexivity.
Qed.

Lemma specRow_head (s acc p2 : string) :
  specRow s acc p2 = lev acc p2 :: tl (specRow s acc p2).
Proof. destruct s; reflexivity. Qed.

Lemma fillRow_spec (c2 : ascii) (s acc p2 : string) :
  fillRow c2 s (lev acc p2) (tl (specRow s acc p2)) (lev acc (String c2 p2))
  = tl (specRow s acc (String c2 p2)).
Proof.
  revert acc. induction s as [|c1 s IH]; intros acc; [reflexivity|].
  cbn [specRow tl fillRow].
  rewrite (specRow_head s (String c1 acc) p2).
  rewrite (specRow_head s (String c1 acc) (String c2 p2)).
  rewrite <- lev_cons_cons. f_equal. apply IH.
Qed.

Lemma nextRow_spec (c2 : ascii) (s p2 : string) :
  nextRow c2 s (specRow s EmptyString p2) (S (String.length p2))
  = specRow s EmptyString (String c2 p2).
Proof.
  pose proof (fillRow_spec c2 s EmptyString p2) as H.
  destruct s as [|c1 s]; [reflexivity|].
  unfold nextRow. simpl in *. f_equal. exact H.
Qed.

Lemma lastRow_spec (s t p2 : string) :
  lastRow s t (specRow s EmptyString p2) (S (String.length p2))
  = specRow s EmptyString (reverseOnto t p2).
Proof.
  revert p2. induction t as [|c2 t IH]; intros p2; simpl; [reflexivity|].
  rewrite nextRow_spec. apply (IH (String c2 p2)).
Qed.

Lemma last_specRow (s acc p2 : string) :
  List.last (specRow s acc p2) 0%nat = lev (reverseOnto s acc) p2.
Proof.
  revert acc. induction s as [|c s IH]; intros acc; [reflexivity|].
  simpl. rewrite <- IH. destruct s; reflexivity.
Qed.

Lemma calculateLevenshteinDistance_lev (str1 str2 : string) :
  calculateLevenshteinDistance str1 str2 = lev (reverse str1) (reverse str2).
Proof.
  unfold calculateLevenshteinDistance.
  pose proof (lastRow_spec str1 str2 EmptyString) as H.
  rewrite specRow_nil in H.
  change (String.length EmptyString) with 0%nat in H.
  rewrite H. apply last_specRow.
Qed.

(** The matrix computes the Levenshtein distance. *)
Lemma calculateLevenshteinDistance_correct (str1 str2 : string) :
  levenshteinDistance str1 str2 (calculateLevenshteinDistance str1 str2).
Proof.
  rewrite calculateLevenshteinDistance_lev. split.
  - rewrite <- (reverse_involutive str1) at 1.
    rewrite <- (reverse_involutive str2) at 1.
    apply edits_reverse, lev_achieved.
  - intros n H. apply lev_lower, edits_reverse, H.
Qed.

End Levenshtein.

(** ** Approximate key lookup *)

Section SimilarKeys.
Import Cache.

Lemma levenshteinDistance_unique (s t : string) (d d' : nat) :
  levenshteinDistance s t d -> levenshteinDistance s t d' -> d = d'.
Proof.
  intros [H1 L1] [H2 L2]. apply Nat.le_antisymm; auto.
Qed.

Lemma levenshteinDistance_symmetric (s t : string) (d : nat) :
  levenshteinDistance s t d -> levenshteinDistance t s d.
Proof.
  intros [H L]. split; [now apply edits_symmetric|].
  intros n Hn. apply L. now apply edits_symmetric.
Qed.

Lemma longerOf_length (str1 str2 : string) :
  String.length (longerOf str1 str2)
  = Nat.max (String.length str1) (String.length str2).
Proof.
  unfold longerOf.
  destruct (Nat.ltb_spec (String.length str2) (String.length str1)); lia.
Qed.

(** The similarity of two keys in terms of their Levenshtein distance. *)
Lemma calculateStringSimilarity_spec (str1 str2 : string) :
  let maxLen := Nat.max (String.length str1) (String.length str2) in
  exists d,
    levenshteinDistance str1 str2 d
    /\ (d <= maxLen)%nat
    /\ calculateStringSimilarity str1 str2
       = if (maxLen =? 0)%nat then 1%float
         else ((ofNat maxLen - ofNat d) / ofNat maxLen)%float.
Proof.
  intros maxLen.
  exists (calculateLevenshteinDistance (longerOf str1 str2) (shorterOf str1 str2)).
  assert (Hd : levenshteinDistance str1 str2
                 (calculateLevenshteinDistance (longerOf str1 str2)
                    (shorterOf str1 str2))).
  { unfold longerOf, shorterOf.
    destruct (String.length str2 <? String.length str1)%nat.
    - apply calculateLevenshteinDistance_correct.
    - apply levenshteinDistance_symmetric, calculateLevenshteinDistance_correct. }
  split; [exact Hd|]. split.
  - destruct Hd as [_ L]. apply L, edits_length_bound.
  - unfold calculateStringSimilarity. rewrite longerOf_length. reflexivity.
Qed.

Lemma keys_alive (c : CacheService) (k : string) :
  In k (keys c) <-> is_Some (store c !! k).
Proof.
  unfold keys. rewrite <- list_elem_of_In, list_elem_of_fmap. split.
  - intros [[k' e] [-> H]]. apply elem_of_map_to_list in H. simpl. eauto.
  - intros [e H]. exists (k, e). split; [reflexivity|].
    now apply elem_of_map_to_list.
Qed.

(** C7, as stated, fails twice over: a live key of another operation is
    returned (the candidate "a:x" finds "b:x" of operation "b"), and a live
    key equal to the candidate is left out although its similarity is 1. *)
Lemma similar_keys_ignore_the_operation_prefix :
  let c := snd (Cache.set "b:x" (VText "v") 60 (Cache.create None)) in
  let c' := snd (Cache.set "a:x" (VText "v") 60 (Cache.create None)) in
  (findSimilarKeys "a:x" (Some 0.5%float) c = ["b:x"]
   /\ operationPrefix "b:x" <> operationPrefix "a:x")
  /\ (findSimilarKeys "a:x" (Some 0.5%float) c' = []
      /\ Cache.keys c' = ["a:x"]
      /\ calculateStringSimilarity "a:x" "a:x" = 1%float).
Proof.
  repeat split; try (vm_compute; reflexivity).
  vm_compute. discriminate.
Qed.

(** C7 (amended): for every candidate key and threshold (0.8 when none is
    given), [findSimilarKeys] returns, each once, exactly the live keys
    other than the candidate itself whose similarity to the candidate is
    greater than or equal to the threshold, whatever their operation
    prefix. The similarity is [(maxLen - d) / maxLen], [d] being the
    Levenshtein distance of the two keys and [maxLen] the length of the
    longer one (1 when both are empty); [0 <= d <= maxLen]. *)
Theorem findSimilarKeys_spec (key : string) (threshold : option number)
        (c : CacheService) :
  NoDup (findSimilarKeys key threshold c)
  /\ forall k,
       In k (findSimilarKeys key threshold c) <->
       is_Some (store c !! k)
       /\ k <> key
       /\ exists d,
            let maxLen := Nat.max (String.length key) (String.length k) in
            levenshteinDistance key k d
            /\ (d <= maxLen)%nat
            /\ geb (if (maxLen =? 0)%nat then 1%float
                    else ((ofNat maxLen - ofNat d) / ofNat maxLen)%float)
                   (default 0.8%float threshold) = true.
Proof.
  split.
  - unfold findSimilarKeys. apply NoDup_ListNoDup, List.NoDup_filter.
    apply NoDup_ListNoDup. unfold keys. apply NoDup_fst_map_to_list.
  - intros k. unfold findSimilarKeys. rewrite filter_In, keys_alive.
    rewrite andb_true_iff, negb_true_iff.
    destruct (calculateStringSimilarity_spec key k) as (d & Hd & Hle & Hsim).
    rewrite Hsim. split.
    + intros (Hlive & Hgeb & Hne). split; [exact Hlive|]. split.
      * apply String.eqb_neq. exact Hne.
      * exists d. auto.
    + intros (Hlive & Hne & d' & Hd' & _ & Hgeb).
      rewrite (levenshteinDistance_unique key k d d' Hd Hd').
      split; [exact Hlive|]. split; [exact Hgeb|].
      apply String.eqb_neq. exact Hne.
Qed.

End SimilarKeys.

(** ** The order of numbers *)

Section NumberOrder.
Local Open Scope float_scope.

Lemma float_sub_positive (x y : float) :
  isNumber x -> isNumber y -> PrimFloat.ltb 0 (y - x) = PrimFloat.ltb x y.
Proof.
  intros Hx Hy. rewrite !ltb_spec, sub_spec.
  change (Prim2SF 0) with (S754_zero false). rewrite SFltb_zero.
  apply SFsub_positive; auto using Prim2SF_valid.
Qed.

Lemma leb_isNumber (t x : float) : PrimFloat.leb t x = true -> isNumber x.
Proof.
  rewrite leb_spec. unfold isNumber. intros H E. rewrite E in H.
  destruct (Prim2SF t); discriminate H.
Qed.

Lemma SFcompare_antisym (x y : spec_float) :
  SFcompare y x = option_map CompOpp (SFcompare x y).
Proof.
  destruct x as [sx|sx| |sx mx ex], y as [sy|sy| |sy my ey]; simpl;
    try reflexivity; try (destruct sx; reflexivity);
    try (destruct sy; reflexivity); try (destruct sx, sy; reflexivity).
  f_equal. rewrite (Z.compare_antisym ex ey).
  destruct sx, sy; try reflexivity; destruct (ex ?= ey)%Z; simpl;
    try reflexivity.
  - rewrite <- (Pos.compare_cont_antisym _ _ Eq), CompOpp_involutive.
    reflexivity.
  - rewrite <- (Pos.compare_cont_antisym _ _ Eq). reflexivity.
Qed.

Lemma float_not_lt_le (x y : float) :
  isNumber x -> isNumber y ->
  PrimFloat.ltb x y = false -> PrimFloat.leb y x = true.
Proof.
  unfold isNumber. rewrite ltb_spec, leb_spec. unfold SFltb, SFleb.
  rewrite (SFcompare_antisym (Prim2SF x) (Prim2SF y)). intros Hx Hy.
  destruct (SFcompare (Prim2SF x) (Prim2SF y)) as [[]|] eqn:E; simpl;
    try reflexivity; try discriminate.
  destruct (Prim2SF x) as [| | |], (Prim2SF y) as [| | |];
    try contradiction; discriminate E.
Qed.

Lemma float_lt_le (x y : float) :
  PrimFloat.ltb x y = true -> PrimFloat.leb x y = true.
Proof.
  rewrite ltb_spec, leb_spec. unfold SFltb, SFleb.
  destruct (SFcompare (Prim2SF x) (Prim2SF y)) as [[]|]; congruence.
Qed.

Lemma float_leb_trans (x y z : float) :
  PrimFloat.leb x y = true -> PrimFloat.leb y z = true ->
  PrimFloat.leb x z = true.
Proof.
  rewrite !leb_spec, !SFleb_rank by apply Prim2SF_valid.
  intros (Nx & Ny & H1) (_ & Nz & H2). repeat split; try assumption. lia.
Qed.

(** For a limit that is not negative, [slice(0, limit)] keeps at most
    [limit] elements. *)
Lemma slice0_atMost {A} (xs : list A) (limit : number) :
  PrimFloat.leb 0 limit = true -> slice0 xs limit = atMost limit xs.
Proof.
  rewrite leb_spec. change (Prim2SF 0) with (S754_zero false).
  unfold slice0, atMost, toIntegerOrInfinity.
  destruct (Prim2SF limit) as [s|s| |s m e]; try reflexivity.
  - destruct s; [discriminate|reflexivity].
  - destruct s; [discriminate|]. intros _.
    assert (H : (0 <= match e with
                      | Z.neg p => Z.pos m / 2 ^ Z.pos p
                      | _ => Z.pos m * 2 ^ e
                      end)%Z).
    { destruct e as [|p|p].
      - lia.
      - apply Z.mul_nonneg_nonneg; [lia|]. apply Z.pow_nonneg. lia.
      - apply Z.div_pos; [lia|]. apply Z.pow_pos_nonneg; lia. }
    destruct (Z.ltb_spec (match e with
                          | Z.neg p => Z.pos m / 2 ^ Z.pos p
                          | _ => Z.pos m * 2 ^ e
                          end) 0)%Z; [lia|reflexivity].
Qed.

End NumberOrder.

(** ** The brute-force search against its reference pipeline *)

Section ReferencePipeline.
Import Embedding.
Local Open Scope float_scope.

Lemma insertDescending_numbered (x : SemanticSearchResult)
      (l : list SemanticSearchResult) :
  numbered x -> Forall numbered l -> Forall numbered (insertDescending x l).
Proof.
  intros Hx Hl. induction Hl as [|y ys Hy Hys IH]; simpl.
  - repeat constructor. exact Hx.
  - destruct (PrimFloat.ltb _ _); repeat constructor; auto.
Qed.

Lemma sortDescending_numbered (l : list SemanticSearchResult) :
  Forall numbered l -> Forall numbered (sortDescending l).
Proof.
  induction 1 as [|x xs Hx Hxs IH]; simpl; [constructor|].
  now apply insertDescending_numbered.
Qed.

Lemma insertSorted_insertDescending (x : SemanticSearchResult)
      (l : list SemanticSearchResult) :
  numbered x -> Forall numbered l ->
  insertSorted bySimilarityDesc x l = insertDescending x l.
Proof.
  intros Hx Hl. induction Hl as [|y ys Hy Hys IH]; simpl; [reflexivity|].
  unfold gtb, bySimilarityDesc at 1.
  rewrite (float_sub_positive _ _ Hx Hy), IH. reflexivity.
Qed.

(** The comparator [b.similarity - a.similarity] sorts numbers in descending
    order. *)
Lemma sort_sortDescending (l : list SemanticSearchResult) :
  Forall numbered l -> sort bySimilarityDesc l = sortDescending l.
Proof.
  induction 1 as [|x xs Hx Hxs IH]; simpl; [reflexivity|].
  rewrite IH. apply insertSorted_insertDescending; [exact Hx|].
  now apply sortDescending_numbered.
Qed.

Lemma kept_numbered (threshold : number) (l : list SemanticSearchResult) :
  Forall numbered
    (List.filter (fun r => PrimFloat.leb threshold (ssr_similarity r)) l).
Proof.
  apply List.Forall_forall. intros r Hr. apply filter_In in Hr as [_ Hr].
  exact (leb_isNumber _ _ Hr).
Qed.

Lemma insertDescending_perm (x : SemanticSearchResult)
      (l : list SemanticSearchResult) :
  Permutation (insertDescending x l) (x :: l).
Proof.
  induction l as [|y ys IH]; simpl; [reflexivity|].
  destruct (PrimFloat.ltb _ _); [|reflexivity].
  rewrite IH. apply perm_swap.
Qed.

Lemma sortDescending_perm (l : list SemanticSearchResult) :
  Permutation (sortDescending l) l.
Proof.
  induction l as [|x xs IH]; simpl; [reflexivity|].
  rewrite insertDescending_perm. now constructor.
Qed.

Lemma insertDescending_sorted (x : SemanticSearchResult)
      (l : list SemanticSearchResult) :
  numbered x -> Forall numbered l ->
  Sorted atLeastAsSimilar l -> Sorted atLeastAsSimilar (insertDescending x l).
Proof.
  intros Hx Hl Hs. induction Hs as [|y ys Hys IH Hhd]; simpl.
  - repeat constructor.
  - apply Forall_cons_iff in Hl as [Hy Hl].
    destruct (PrimFloat.ltb (ssr_similarity x) (ssr_similarity y)) eqn:E.
    + constructor; [auto|].
      destruct ys as [|z zs]; simpl.
      * constructor. now apply float_lt_le.
      * destruct (PrimFloat.ltb (ssr_similarity x) (ssr_similarity z));
          constructor; [now inversion Hhd|now apply float_lt_le].
    + constructor; [now constructor|]. constructor.
      now apply float_not_lt_le.
Qed.

Lemma sortDescending_sorted (l : list SemanticSearchResult) :
  Forall numbered l -> Sorted atLeastAsSimilar (sortDescending l).
Proof.
  induction 1 as [|x xs Hx Hxs IH]; simpl; [constructor|].
  apply insertDescending_sorted; auto using sortDescending_numbered.
Qed.

Lemma atLeastAsSimilar_trans : Relations_1.Transitive atLeastAsSimilar.
Proof.
  intros a b c Hab Hbc. unfold atLeastAsSimilar in *.
  exact (float_leb_trans _ _ _ Hbc Hab).
Qed.

Lemma referenceSearch_eq (queryEmbedding : list number) (model : string)
      (limit threshold : number) (rows : list WordEmbedding) :
  referenceSearch queryEmbedding model limit threshold rows =
  obind (mapThrowing (score queryEmbedding) (findMany model rows))
    (fun scoredRows =>
       Ok (atMost limit
             (sortDescending
                (List.filter
                   (fun r => geb (ssr_similarity r) threshold) scoredRows)))).
Proof. reflexivity. Qed.

Lemma atMost_firstn {A} (limit : number) (xs : list A) :
  exists n, atMost limit xs = firstn n xs
            /\ match toIntegerOrInfinity limit with
               | Finite k => (0 <= k)%Z -> (Z.of_nat n <= k)%Z
               | _ => True
               end.
Proof.
  unfold atMost. destruct (toIntegerOrInfinity limit) as [|k|].
  - exists 0%nat. split; [reflexivity|exact I].
  - exists (Z.to_nat k). split; [reflexivity|intros Hk; lia].
  - exists (length xs). split; [symmetry; apply firstn_all|exact I].
Qed.

Lemma Sorted_firstn {A} (R : A -> A -> Prop) (n : nat) (l : list A) :
  Sorted R l -> Sorted R (firstn n l).
Proof.
  revert n. induction l as [|x xs IH]; intros [|n] H; simpl; try constructor.
  - apply IH. now inversion H.
  - inversion H as [|? ? _ Hhd]; subst.
    destruct xs as [|y ys]; destruct n; simpl; constructor.
    now inversion Hhd.
Qed.

Lemma In_firstn {A} (n : nat) (l : list A) (x : A) :
  In x (firstn n l) -> In x l.
Proof.
  revert n. induction l as [|y ys IH]; intros [|n]; simpl; try tauto.
  intros [->|H]; [now left|right; eauto].
Qed.

(** C3 (amended): for every query vector, model, threshold and every limit
    that is not negative, the brute-force search equals the reference
    pipeline: the stored vectors of the model, 1000 at most; the cosine
    similarity of the query against each; exactly those of similarity at
    least the threshold; in descending order of similarity; at most [limit]
    of them. What it returns is accordingly in descending order of
    similarity (every entry at least as similar as all that follow), at or
    above the threshold, drawn from the scored rows of the model, and no
    longer than the limit. *)
Theorem fallback_equals_reference (queryEmbedding : list number)
        (model : string) (limit threshold : number)
        (rows : list WordEmbedding) :
  PrimFloat.leb 0 limit = true ->
  fallbackSimilaritySearch queryEmbedding model limit threshold rows
  = referenceSearch queryEmbedding model limit threshold rows
  /\ (length (findMany model rows) <= 1000)%nat
  /\ forall results,
       fallbackSimilaritySearch queryEmbedding model limit threshold rows
       = Ok results ->
       StronglySorted atLeastAsSimilar results
       /\ Forall (fun r => geb (ssr_similarity r) threshold = true) results
       /\ (forall r, In r results ->
                     In r (List.map (scored queryEmbedding)
                             (findMany model rows)))
       /\ match toIntegerOrInfinity limit with
          | Finite k => (Z.of_nat (length results) <= k)%Z
          | _ => True
          end.
Proof.
  intros Hlimit.
  assert (Heq : fallbackSimilaritySearch queryEmbedding model limit threshold rows
                = referenceSearch queryEmbedding model limit threshold rows).
  { rewrite referenceSearch_eq. unfold fallbackSimilaritySearch.
    destruct (mapThrowing _ _) as [scoredRows|e]; simpl; [|reflexivity].
    rewrite slice0_atMost by exact Hlimit.
    rewrite sort_sortDescending by apply kept_numbered. reflexivity. }
  split; [exact Heq|]. split; [apply firstn_le_length|].
  intros results. rewrite Heq, referenceSearch_eq, mapThrowing_score.
  destruct (existsb _ _); simpl; [discriminate|].
  intros H. injection H as <-.
  set (kept := List.filter _ _).
  destruct (atMost_firstn limit (sortDescending kept)) as (n & -> & Hn).
  assert (Hin : forall r, In r (firstn n (sortDescending kept)) -> In r kept).
  { intros r Hr. apply In_firstn in Hr.
    eapply Permutation_in; [apply sortDescending_perm|exact Hr]. }
  repeat split.
  - apply Sorted_StronglySorted; [exact atLeastAsSimilar_trans|].
    apply Sorted_firstn, sortDescending_sorted, kept_numbered.
  - apply List.Forall_forall. intros r Hr. apply Hin in Hr.
    apply filter_In in Hr as [_ Hr]. exact Hr.
  - intros r Hr. apply Hin in Hr. apply filter_In in Hr as [Hr _]. exact Hr.
  - destruct (toIntegerOrInfinity limit) as [|k|] eqn:Ek; try exact I.
    assert (Hk : (0 <= k)%Z).
    { revert Ek. unfold toIntegerOrInfinity. revert Hlimit. rewrite leb_spec.
      change (Prim2SF 0) with (S754_zero false).
      destruct (Prim2SF limit) as [s|s| |s m e]; try discriminate.
      - intros _ H. injection H as <-. lia.
      - destruct s; discriminate.
      - destruct s; [discriminate|]. intros _ H. injection H as <-.
        destruct e as [|p|p].
        + lia.
        + apply Z.mul_nonneg_nonneg; [lia|]. apply Z.pow_nonneg. lia.
        + apply Z.div_pos; [lia|]. apply Z.pow_pos_nonneg; lia. }
    pose proof (firstn_le_length n (sortDescending kept)).
    rewrite length_firstn. lia.
Qed.

End ReferencePipeline.

(** The theorem for two stored vectors and the limit 10. *)
Lemma fallback_equals_reference_witness :
  let rows :=
    [ Embedding.mkWordEmbedding 1 "nomic-embed-text" [3%float; 4%float] 2
        "engine" None None;
      Embedding.mkWordEmbedding 2 "nomic-embed-text" [1%float; 0%float] 2
        "feline" None None ] in
  PrimFloat.leb 0 10 = true
  /\ Embedding.fallbackSimilaritySearch [1%float; 0%float] "nomic-embed-text"
       10%float 0.5%float rows
     = referenceSearch [1%float; 0%float] "nomic-embed-text" 10%float
         0.5%float rows.
Proof.
  intros rows. split; [reflexivity|].
  exact (proj1 (fallback_equals_reference [1%float; 0%float]
                  "nomic-embed-text" 10%float 0.5%float rows eq_refl)).
Defined.

(** C3, as stated for every limit, fails: for the limit -1 the brute-force
    search returns one of the two matches ([slice(0, -1)] drops the last
    element), where at most -1 elements are none. *)
Lemma negative_limit_drops_the_last_match :
  let rows :=
    [ Embedding.mkWordEmbedding 1 "nomic-embed-text" [3%float; 4%float] 2
        "engine" None None;
      Embedding.mkWordEmbedding 2 "nomic-embed-text" [1%float; 0%float] 2
        "feline" None None ] in
  Embedding.fallbackSimilaritySearch [1%float; 0%float] "nomic-embed-text"
    (-1)%float 0.5%float rows
  = Ok [ mkSemanticSearchResult "feline" 1%float None None ]
  /\ referenceSearch [1%float; 0%float] "nomic-embed-text" (-1)%float
       0.5%float rows = Ok []
  /\ Embedding.fallbackSimilaritySearch [1%float; 0%float] "nomic-embed-text"
       (-1)%float 0.5%float rows
     <> referenceSearch [1%float; 0%float] "nomic-embed-text" (-1)%float
          0.5%float rows.
Proof.
  intros rows.
  assert (H1 : Embedding.fallbackSimilaritySearch [1%float; 0%float]
                 "nomic-embed-text" (-1)%float 0.5%float rows
               = Ok [ mkSemanticSearchResult "feline" 1%float None None ])
    by (vm_compute; reflexivity).
  assert (H2 : referenceSearch [1%float; 0%float] "nomic-embed-text"
                 (-1)%float 0.5%float rows = Ok [])
    by (vm_compute; reflexivity).
  split; [exact H1|]. split; [exact H2|].
  rewrite H1, H2. discriminate.
Qed.

(** ** The operations of the cache *)

Section CacheOperations.
Import Cache.

Lemma has_lookup (key : string) (c : CacheService) :
  has key c = true <-> is_Some (store c !! key).
Proof.
  unfold has. destruct (store c !! key); split; intros H;
    try reflexivity; try discriminate; eauto.
  destruct H as [x H]. discriminate H.
Qed.

Lemma keys_held (c : CacheService) (k : string) :
  In k (keys c) <-> has k c = true.
Proof.
  rewrite has_lookup.
  unfold keys. rewrite <- list_elem_of_In, list_elem_of_fmap. split.
  - intros [[k' e] [-> H]]. apply elem_of_map_to_list in H. simpl. eauto.
  - intros [e H]. exists (k, e). split; [reflexivity|].
    now apply elem_of_map_to_list.
Qed.

Lemma keys_NoDup (c : CacheService) : List.NoDup (keys c).
Proof. apply NoDup_ListNoDup, NoDup_fst_map_to_list. Qed.

(** X1: a [set] below the limit of 10000 entries returns [true], and the
    value is read back by [get] under the key, with the given time to live
    (the default one when none or 0 is given); no other key changes, and the
    number of entries grows by one exactly when the key was not held. At the
    limit the [set] returns [false] and changes nothing, also for a key that
    is held. *)
Theorem set_then_get (key : string) (v : CacheValue) (t : Z)
        (c : CacheService) :
  let c' := snd (Cache.set key v t c) in
  ((size (store c) < maxKeys)%nat ->
   fst (Cache.set key v t c) = true
   /\ Cache.get key c' = Some v
   /\ has key c' = true
   /\ store c' !! key
      = Some (mkEntry v (if (t =? 0)%Z then defaultTTL c else t))
   /\ (forall k, k <> key -> store c' !! k = store c !! k)
   /\ (size (store c')
       = if has key c then size (store c) else S (size (store c)))%nat)
  /\ ((maxKeys <= size (store c))%nat ->
      Cache.set key v t c = (false, c)).
Proof.
  intros c'. subst c'. unfold Cache.set, Cache.get, has.
  destruct (Nat.leb_spec maxKeys (size (store c))) as [Hfull|Hroom]; simpl.
  - split; [lia|]. reflexivity.
  - split; [|lia]. intros _.
    rewrite lookup_insert_eq. simpl.
    split; [reflexivity|]. split; [reflexivity|]. split; [reflexivity|].
    split; [reflexivity|].
    split.
    + intros k Hk. apply lookup_insert_ne. congruence.
    + destruct (store c !! key) as [e|] eqn:He.
      * apply map_size_insert_Some. eauto.
      * now apply map_size_insert_None.
Qed.

Lemma del_lookup (key k : string) (c : CacheService) :
  store (snd (del key c)) !! k
  = if String.eqb k key then None else store c !! k.
Proof.
  unfold del. destruct (store c !! key) eqn:E; simpl.
  - destruct (String.eqb_spec k key) as [->|Hne].
    + apply lookup_delete_eq.
    + apply lookup_delete_ne. congruence.
  - destruct (String.eqb_spec k key) as [->|Hne]; [exact E|reflexivity].
Qed.

Lemma del_count (key : string) (c : CacheService) :
  fst (del key c) = if has key c then 1%nat else 0%nat.
Proof. unfold del, has. destruct (store c !! key); reflexivity. Qed.

Lemma del_size (key : string) (c : CacheService) :
  (size (store (snd (del key c))) + fst (del key c) = size (store c))%nat.
Proof.
  unfold del. destruct (store c !! key) as [e|] eqn:E; simpl; [|lia].
  rewrite map_size_delete_Some by eauto.
  assert (size (store c) <> 0%nat); [|lia].
  intros H0. apply map_size_empty_inv in H0. rewrite H0 in E.
  rewrite lookup_empty in E. discriminate E.
Qed.

Lemma del_defaultTTL (key : string) (c : CacheService) :
  defaultTTL (snd (del key c)) = defaultTTL c.
Proof. unfold del. destruct (store c !! key); reflexivity. Qed.

(** X2: [del] returns the number of entries it removed, 1 for a key that
    was held and 0 otherwise; the key is then absent, the other keys are as
    they were, and a [set] of the key is accepted again. After [flush] no key
    is held and every [set] is accepted. *)
Theorem del_and_flush (key : string) (c : CacheService) :
  let c' := snd (del key c) in
  fst (del key c) = (if has key c then 1 else 0)%nat
  /\ has key c' = false
  /\ Cache.get key c' = None
  /\ (forall k, k <> key -> store c' !! k = store c !! k)
  /\ (size (store c') + fst (del key c) = size (store c))%nat
  /\ (forall v t, (size (store c) <= maxKeys)%nat -> has key c = true ->
        fst (Cache.set key v t c') = true)
  /\ keys (flush c) = []
  /\ (forall k, has k (flush c) = false /\ Cache.get k (flush c) = None)
  /\ (forall k v t, fst (Cache.set k v t (flush c)) = true).
Proof.
  intros c'. subst c'.
  pose proof (del_lookup key key c) as Hk. rewrite String.eqb_refl in Hk.
  split; [apply del_count|].
  split; [unfold has; now rewrite Hk|].
  split; [unfold Cache.get; now rewrite Hk|].
  split.
  { intros k Hne. rewrite del_lookup.
    destruct (String.eqb_spec k key); [contradiction|reflexivity]. }
  split; [apply del_size|].
  split.
  { intros v t Hmax Hhas. pose proof (del_size key c) as Hs.
    rewrite del_count, Hhas in Hs.
    unfold Cache.set.
    destruct (Nat.leb_spec maxKeys (size (store (snd (del key c)))))
      as [Hfull|Hroom]; [lia|reflexivity]. }
  split; [unfold keys, flush; simpl; now rewrite map_to_list_empty|].
  split.
  { intros k. unfold has, Cache.get, flush; simpl.
    rewrite lookup_empty. split; reflexivity. }
  intros k v t. unfold Cache.set, flush; simpl. rewrite map_size_empty.
  reflexivity.
Qed.

Lemma delMany_lookup (ks : list string) (c : CacheService) (k : string) :
  store (snd (delMany ks c)) !! k
  = if existsb (String.eqb k) ks then None else store c !! k.
Proof.
  revert c. induction ks as [|key ks IH]; intros c; simpl; [reflexivity|].
  pose proof (del_lookup key k c) as Hd.
  destruct (del key c) as [n c1]. simpl in Hd.
  specialize (IH c1). destruct (delMany ks c1) as [m c2]. simpl in *.
  rewrite IH, Hd. destruct (String.eqb k key), (existsb _ ks); reflexivity.
Qed.

Lemma delMany_count (ks : list string) (c : CacheService) :
  List.NoDup ks -> (forall k, In k ks -> has k c = true) ->
  fst (delMany ks c) = length ks.
Proof.
  revert c. induction ks as [|key ks IH]; intros c Hnd Hall; simpl;
    [reflexivity|].
  inversion Hnd as [|? ? Hnotin Hnd']; subst.
  pose proof (del_count key c) as Hc.
  rewrite (Hall key (or_introl eq_refl)) in Hc.
  assert (Hrest : forall k, In k ks -> has k (snd (del key c)) = true).
  { intros k Hk. unfold has. rewrite del_lookup.
    destruct (String.eqb_spec k key) as [->|_]; [contradiction|].
    apply (Hall k). now right. }
  destruct (del key c) as [n c1]. simpl in *. subst n.
  specialize (IH c1 Hnd' Hrest). destruct (delMany ks c1) as [m c2].
  simpl in *. now rewrite IH.
Qed.

Lemma delMany_defaultTTL (ks : list string) (c : CacheService) :
  defaultTTL (snd (delMany ks c)) = defaultTTL c.
Proof.
  revert c. induction ks as [|key ks IH]; intros c; simpl; [reflexivity|].
  pose proof (del_defaultTTL key c) as Hd.
  destruct (del key c) as [n c1]. specialize (IH c1).
  destruct (delMany ks c1) as [m c2]. simpl in *. congruence.
Qed.

Lemma existsb_eqb_In (k : string) (ks : list string) :
  existsb (String.eqb k) ks = true <-> In k ks.
Proof.
  rewrite existsb_exists. split.
  - intros [x [Hin Hx]]. apply String.eqb_eq in Hx. now subst.
  - intros Hin. exists k. split; [exact Hin|apply String.eqb_refl].
Qed.

Section DeletePattern.
Variable regExp : string -> option (string -> bool).

(** X3: [deletePattern] removes exactly the held keys that the pattern
    matches and returns their number; the other entries are as they were. A
    pattern that [RegExp] rejects removes nothing and gives 0. *)
Theorem deletePattern_spec (pattern : string) (c : CacheService) :
  match regExp pattern with
  | Some regex =>
      let c' := snd (deletePattern regExp pattern c) in
      fst (deletePattern regExp pattern c)
      = length (List.filter regex (keys c))
      /\ (forall k, store c' !! k = if regex k then None else store c !! k)
      /\ (forall k, In k (keys c') <-> In k (keys c) /\ regex k = false)
  | None => deletePattern regExp pattern c = (0%nat, c)
  end.
Proof.
  unfold deletePattern. destruct (regExp pattern) as [regex|]; [|reflexivity].
  remember (List.filter regex (keys c)) as matching eqn:Hm.
  assert (Hlookup : forall k,
    store (snd (if (0 <? length matching)%nat then delMany matching c
                else (0%nat, c))) !! k
    = if regex k then None else store c !! k).
  { intros k.
    assert (Hin : existsb (String.eqb k) matching = true
                  <-> has k c = true /\ regex k = true).
    { rewrite existsb_eqb_In. subst matching.
      rewrite filter_In, keys_held. reflexivity. }
    destruct (Nat.ltb_spec 0 (length matching)) as [Hpos|Hzero].
    - rewrite delMany_lookup.
      destruct (existsb (String.eqb k) matching) eqn:E.
      + destruct (proj1 Hin eq_refl) as [_ ->]. reflexivity.
      + destruct (regex k) eqn:Er; [|reflexivity].
        destruct (store c !! k) as [e|] eqn:Ek; [|reflexivity].
        assert (has k c = true) by (apply has_lookup; eauto).
        assert (Habs : false = true) by (apply Hin; auto).
        discriminate Habs.
    - simpl. destruct (regex k) eqn:Er; [|reflexivity].
      destruct (store c !! k) as [e|] eqn:Ek; [|reflexivity].
      assert (Hk : In k matching).
      { apply existsb_eqb_In, Hin. split; [|reflexivity].
        apply has_lookup. eauto. }
      clear Hm Hin. destruct matching; [destruct Hk|simpl in Hzero; lia]. }
  simpl. split; [|split].
  - destruct (Nat.ltb_spec 0 (length matching)) as [Hpos|Hzero].
    + apply delMany_count.
      * subst matching. apply List.NoDup_filter, keys_NoDup.
      * intros k Hk. subst matching. apply filter_In in Hk.
        now apply keys_held.
    + simpl. lia.
  - exact Hlookup.
  - intros k. rewrite !keys_held. unfold has at 1. rewrite Hlookup.
    unfold has. destruct (regex k), (store c !! k); intuition congruence.
Qed.
End DeletePattern.

Section Warmup.
Variable dataLoader : string -> outcome CacheValue.

Lemma set_defaultTTL (key : string) (v : CacheValue) (t : Z)
      (c : CacheService) :
  defaultTTL (snd (Cache.set key v t c)) = defaultTTL c.
Proof. unfold Cache.set. destruct (_ <=? _)%nat; reflexivity. Qed.

Lemma loads_defaultTTL (l : list string) (c : CacheService) :
  defaultTTL (fold_left (warmStep dataLoader) l c) = defaultTTL c.
Proof.
  revert c. induction l as [|key l IH]; intros c; simpl; [reflexivity|].
  rewrite IH. unfold warmStep. destruct (dataLoader key); [|reflexivity].
  apply set_defaultTTL.
Qed.

Lemma loads_frame (l : list string) (c : CacheService) (k : string) :
  ~ In k l -> store (fold_left (warmStep dataLoader) l c) !! k = store c !! k.
Proof.
  revert c. induction l as [|key l IH]; intros c Hk; simpl; [reflexivity|].
  rewrite IH by (intros H; apply Hk; now right).
  unfold warmStep. destruct (dataLoader key); [|reflexivity].
  apply set_other. intros ->. apply Hk. now left.
Qed.

Lemma loads_lookup (l : list string) (c : CacheService) (k : string) :
  (size (store c) + length l <= maxKeys)%nat ->
  store (fold_left (warmStep dataLoader) l c) !! k
  = if existsb (String.eqb k) l
    then match loadedEntry dataLoader (defaultTTL c) k with
         | Some e => Some e
         | None => store c !! k
         end
    else store c !! k.
Proof.
  revert c. induction l as [|key l IH]; intros c Hroom; simpl;
    [reflexivity|].
  simpl in Hroom.
  assert (Hsize : (size (store (warmStep dataLoader c key))
                   <= S (size (store c)))%nat).
  { unfold warmStep. destruct (dataLoader key); [apply set_size|lia]. }
  assert (Httl : defaultTTL (warmStep dataLoader c key) = defaultTTL c).
  { unfold warmStep.
    destruct (dataLoader key); [apply set_defaultTTL|reflexivity]. }
  rewrite IH by lia. rewrite Httl.
  assert (Hstep : store (warmStep dataLoader c key) !! k
                  = if String.eqb k key
                    then match loadedEntry dataLoader (defaultTTL c) k with
                         | Some e => Some e
                         | None => store c !! k
                         end
                    else store c !! k).
  { unfold warmStep, loadedEntry.
    destruct (String.eqb_spec k key) as [->|Hne].
    - destruct (dataLoader key) as [data|e]; [|reflexivity].
      unfold Cache.set.
      destruct (Nat.leb_spec maxKeys (size (store c))); [lia|]. simpl.
      apply lookup_insert_eq.
    - destruct (dataLoader key) as [data|e]; [|reflexivity].
      apply set_other. congruence. }
  rewrite Hstep.
  destruct (String.eqb k key), (existsb (String.eqb k) l); simpl;
    try reflexivity.
  destruct (loadedEntry dataLoader (defaultTTL c) k); reflexivity.
Qed.

Lemma missing_In (keys_ : list string) (c : CacheService) (k : string) :
  In k (List.filter (fun key => negb (has key c)) keys_)
  <-> In k keys_ /\ store c !! k = None.
Proof.
  rewrite filter_In. unfold has.
  destruct (store c !! k); simpl; intuition congruence.
Qed.

Lemma filter_length_le {A} (f : A -> bool) (l : list A) :
  (length (List.filter f l) <= length l)%nat.
Proof.
  induction l as [|x l IH]; simpl; [lia|]. destruct (f x); simpl; lia.
Qed.

Lemma warmup_lookup (keys_ : list string) (c : CacheService) (k : string) :
  (size (store c) + length keys_ <= maxKeys)%nat ->
  store (warmup keys_ dataLoader c) !! k
  = match store c !! k with
    | Some e => Some e
    | None =>
        if existsb (String.eqb k) keys_
        then loadedEntry dataLoader (defaultTTL c) k
        else None
    end.
Proof.
  intros Hroom. unfold warmup. fold (warmStep dataLoader).
  set (missing := List.filter (fun key => negb (has key c)) keys_).
  pose proof (filter_length_le (fun key => negb (has key c)) keys_) as Hlen.
  fold missing in Hlen.
  rewrite loads_lookup by lia.
  destruct (existsb (String.eqb k) missing) eqn:E.
  - apply existsb_eqb_In, missing_In in E. destruct E as [Hin Hnone].
    rewrite Hnone. apply existsb_eqb_In in Hin. rewrite Hin.
    destruct (loadedEntry _ _ k); reflexivity.
  - destruct (store c !! k) as [e|] eqn:Ek; [reflexivity|].
    destruct (existsb (String.eqb k) keys_) eqn:E'; [|reflexivity].
    apply existsb_eqb_In in E'.
    assert (In k missing) by (apply missing_In; auto).
    apply existsb_eqb_In in H. congruence.
Qed.

Lemma cache_eq (c1 c2 : CacheService) :
  (forall k, store c1 !! k = store c2 !! k) ->
  defaultTTL c1 = defaultTTL c2 -> c1 = c2.
Proof.
  destruct c1 as [s1 d1], c2 as [s2 d2]. simpl. intros Hs ->.
  f_equal. apply map_eq. exact Hs.
Qed.

(** X4: with room for all the keys, [warmup] leaves every held entry as it
    is, stores what the loader returns for each listed key that was not
    held, with the default time to live, and stores nothing for a key whose
    load fails or that is not listed; the order of the keys does not
    matter. *)
Theorem warmup_spec (keys_ : list string) (c : CacheService) :
  (size (store c) + length keys_ <= maxKeys)%nat ->
  let c' := warmup keys_ dataLoader c in
  (forall k e, store c !! k = Some e -> store c' !! k = Some e)
  /\ (forall k data,
        In k keys_ -> store c !! k = None -> dataLoader k = Ok data ->
        store c' !! k = Some (mkEntry data (defaultTTL c)))
  /\ (forall k,
        store c !! k = None ->
        ~ In k keys_ \/ (exists error, dataLoader k = Throw error) ->
        store c' !! k = None)
  /\ (forall keys', Permutation keys_ keys' ->
        warmup keys' dataLoader c = c').
Proof.
  intros Hroom c'. subst c'.
  split; [|split; [|split]].
  - intros k e He. rewrite warmup_lookup by exact Hroom. now rewrite He.
  - intros k data Hin Hnone Hload. rewrite warmup_lookup by exact Hroom.
    rewrite Hnone. apply existsb_eqb_In in Hin. rewrite Hin.
    unfold loadedEntry. now rewrite Hload.
  - intros k Hnone Hk. rewrite warmup_lookup by exact Hroom.
    rewrite Hnone. destruct (existsb (String.eqb k) keys_) eqn:E;
      [|reflexivity].
    apply existsb_eqb_In in E. destruct Hk as [Hk|[error Hk]];
      [contradiction|].
    unfold loadedEntry. now rewrite Hk.
  - intros keys' Hperm. apply cache_eq.
    + intros k. rewrite !warmup_lookup;
        [|exact Hroom|rewrite <- (Permutation_length Hperm); exact Hroom].
      destruct (store c !! k); [reflexivity|].
      assert (Heq : existsb (String.eqb k) keys' = existsb (String.eqb k) keys_).
      { apply eq_true_iff_eq. rewrite !existsb_eqb_In. split; intros H.
        - eapply Permutation_in; [symmetry; exact Hperm|exact H].
        - eapply Permutation_in; [exact Hperm|exact H]. }
      now rewrite Heq.
    + unfold warmup. fold (warmStep dataLoader). now rewrite !loads_defaultTTL.
Qed.

(** Entries that are held when [warmup] is called are left as they are,
    whatever room the cache has. *)
Lemma warmup_keeps (keys_ : list string) (c : CacheService) (k : string) :
  has k c = true ->
  store (warmup keys_ dataLoader c) !! k = store c !! k.
Proof.
  intros Hhas. unfold warmup. fold (warmStep dataLoader). apply loads_frame.
  rewrite missing_In. intros [_ Hnone]. unfold has in Hhas.
  rewrite Hnone in Hhas. discriminate Hhas.
Qed.

End Warmup.
End CacheOperations.

Lemma warmup_spec_witness :
  let dataLoader := fun key : string =>
    if String.eqb key "b" then Throw (MkError "unavailable")
    else Ok (VText key) in
  let c := snd (Cache.set "a" (VText "kept") 60 (Cache.create None)) in
  let c' := Cache.warmup ["a"; "b"; "c"] dataLoader c in
  (size (Cache.store c) + length ["a"; "b"; "c"] <= Cache.maxKeys)%nat
  /\ Cache.store c' !! "a" = Some (Cache.mkEntry (VText "kept") 60)
  /\ Cache.store c' !! "b" = None
  /\ Cache.store c' !! "c" = Some (Cache.mkEntry (VText "c") 3600).
Proof.
  intros dataLoader c c'.
  assert (Hroom : (size (Cache.store c) + length ["a"; "b"; "c"]
                   <= Cache.maxKeys)%nat)
    by (apply Nat.leb_le; vm_compute; reflexivity).
  split; [exact Hroom|].
  destruct (warmup_spec dataLoader ["a"; "b"; "c"] c Hroom)
    as (Hkeep & Hload & Hnone & _).
  split; [apply Hkeep; vm_compute; reflexivity|].
  split.
  - apply Hnone; [vm_compute; reflexivity|].
    right. exists (MkError "unavailable"). reflexivity.
  - apply (Hload "c" (VText "c")); [simpl; auto|vm_compute; reflexivity|reflexivity].
Defined.

(** ** The hash of a context *)

Section HashString.
Import Ollama.
Local Open Scope Z_scope.

Lemma toInt32_mod (z : Z) : toInt32 z mod 2 ^ 32 = z mod 2 ^ 32.
Proof.
  unfold toInt32. destruct (2 ^ 31 <=? z mod 2 ^ 32).
  - rewrite <- (Z.mod_add (z mod 2 ^ 32 - 2 ^ 32) 1 (2 ^ 32)) by lia.
    replace (z mod 2 ^ 32 - 2 ^ 32 + 1 * 2 ^ 32) with (z mod 2 ^ 32) by lia.
    apply Z.mod_mod. lia.
  - apply Z.mod_mod. lia.
Qed.

Lemma toInt32_congr (a b : Z) :
  a mod 2 ^ 32 = b mod 2 ^ 32 -> toInt32 a = toInt32 b.
Proof. intros H. unfold toInt32. now rewrite H. Qed.

Lemma toInt32_range (z : Z) : - 2 ^ 31 <= toInt32 z < 2 ^ 31.
Proof.
  unfold toInt32. pose proof (Z.mod_pos_bound z (2 ^ 32) ltac:(lia)).
  destruct (Z.leb_spec (2 ^ 31) (z mod 2 ^ 32)); lia.
Qed.

Lemma hashStep_eq (hash : Z) (c : ascii) :
  hashStep hash c = toInt32 (31 * hash + Z.of_nat (charCode c)).
Proof.
  unfold hashStep. apply toInt32_congr.
  rewrite <- Z.add_mod_idemp_l by lia.
  rewrite <- Zminus_mod_idemp_l. rewrite toInt32_mod.
  rewrite Zminus_mod_idemp_l. rewrite Z.add_mod_idemp_l by lia.
  f_equal. lia.
Qed.

Lemma hashStep_toInt32 (x : Z) (c : ascii) :
  hashStep (toInt32 x) c = toInt32 (31 * x + Z.of_nat (charCode c)).
Proof.
  rewrite hashStep_eq. apply toInt32_congr.
  rewrite <- Z.add_mod_idemp_l by lia.
  rewrite <- Z.mul_mod_idemp_r by lia. rewrite toInt32_mod.
  rewrite Z.mul_mod_idemp_r by lia. rewrite Z.add_mod_idemp_l by lia.
  reflexivity.
Qed.

Lemma hashLoop_polynomial (str : string) (x : Z) :
  hashLoop str (toInt32 x) = toInt32 (polynomial31 str x).
Proof.
  revert x. induction str as [|c str IH]; intros x; simpl; [reflexivity|].
  rewrite hashStep_toInt32. apply IH.
Qed.

Lemma hashLoop_append (s t : string) (hash : Z) :
  hashLoop (s +:+ t) hash = hashLoop t (hashLoop s hash).
Proof.
  revert hash. induction s as [|c s IH]; intros hash; [reflexivity|].
  change (String c s +:+ t) with (String c (s +:+ t)). simpl. apply IH.
Qed.

Lemma charCode_ascii_of_nat (n : nat) :
  (n < 256)%nat -> charCode (ascii_of_nat n) = n.
Proof. apply nat_ascii_embedding. Qed.

Lemma digit36_value (d : Z) :
  0 <= d < 36 -> digitValue (digit36 d) = d /\ isBase36Digit (digit36 d) = true.
Proof.
  intros Hd. unfold digitValue, isBase36Digit, digit36.
  destruct (Z.ltb_spec d 10).
  - rewrite charCode_ascii_of_nat by lia.
    destruct (Z.ltb_spec (Z.of_nat (48 + Z.to_nat d)) 58); [|lia].
    split; [lia|].
    apply orb_true_iff. left. apply andb_true_iff.
    split; apply Nat.leb_le; lia.
  - rewrite charCode_ascii_of_nat by lia.
    destruct (Z.ltb_spec (Z.of_nat (87 + Z.to_nat d)) 58); [lia|].
    split; [lia|].
    apply orb_true_iff. right. apply andb_true_iff.
    split; apply Nat.leb_le; lia.
Qed.

Lemma fromBase36_append (s t : string) (acc : Z) :
  fromBase36 (s +:+ t) acc = fromBase36 t (fromBase36 s acc).
Proof.
  revert acc. induction s as [|c s IH]; intros acc; [reflexivity|].
  change (String c s +:+ t) with (String c (s +:+ t)). simpl. apply IH.
Qed.

Lemma allChars_append (p : ascii -> bool) (s t : string) :
  allChars p (s +:+ t) = allChars p s && allChars p t.
Proof.
  induction s as [|c s IH]; [reflexivity|].
  change (String c s +:+ t) with (String c (s +:+ t)). simpl.
  rewrite IH. apply andb_assoc.
Qed.

Lemma length_append (s t : string) :
  String.length (s +:+ t) = (String.length s + String.length t)%nat.
Proof.
  induction s as [|c s IH]; [reflexivity|].
  change (String c s +:+ t) with (String c (s +:+ t)). simpl. now rewrite IH.
Qed.

Lemma append_assoc (s t u : string) : (s +:+ t) +:+ u = s +:+ (t +:+ u).
Proof.
  induction s as [|c s IH]; [reflexivity|].
  change (String c ((s +:+ t) +:+ u) = String c (s +:+ (t +:+ u))).
  now rewrite IH.
Qed.

(** The digits [toBase36] puts in front of [acc] are those of [n]. *)
Lemma toBase36_digits (fuel k : nat) (n : Z) (acc : string) :
  (1 <= k <= fuel)%nat -> 0 <= n < 36 ^ Z.of_nat k ->
  exists ds,
    toBase36 fuel n acc = ds +:+ acc
    /\ (forall v, fromBase36 ds v = v * 36 ^ Z.of_nat (String.length ds) + n)
    /\ allChars isBase36Digit ds = true
    /\ (1 <= String.length ds <= k)%nat.
Proof.
  revert k n acc. induction fuel as [|fuel IH]; intros k n acc Hk Hn; [lia|].
  simpl. pose proof (Z.mod_pos_bound n 36 ltac:(lia)) as Hmod.
  destruct (digit36_value (n mod 36) Hmod) as [Hval Hdig].
  destruct (Z.eqb_spec (n / 36) 0) as [Hq|Hq].
  - exists (String (digit36 (n mod 36)) EmptyString).
    split; [reflexivity|]. split; [|split].
    + intros v. simpl. rewrite Hval.
      pose proof (Z.div_mod n 36 ltac:(lia)). change (36 ^ Z.of_nat 1) with 36.
      lia.
    + simpl. now rewrite Hdig.
    + simpl. lia.
  - assert (Hk2 : (2 <= k)%nat).
    { destruct k as [|[|k]]; [lia| |lia].
      change (36 ^ Z.of_nat 1) with 36 in Hn.
      rewrite Z.div_small in Hq by lia. contradiction. }
    assert (Hn' : 0 <= n / 36 < 36 ^ Z.of_nat (k - 1)).
    { split; [apply Z.div_pos; lia|].
      apply Z.div_lt_upper_bound; [lia|].
      replace (36 * 36 ^ Z.of_nat (k - 1)) with (36 ^ Z.of_nat k); [lia|].
      replace (Z.of_nat k) with (Z.succ (Z.of_nat (k - 1))) by lia.
      rewrite Z.pow_succ_r by lia. reflexivity. }
    destruct (IH (k - 1)%nat (n / 36)
                (String (digit36 (n mod 36)) acc) ltac:(lia) Hn')
      as (ds & Heq & Hdec & Hall & Hlen).
    exists (ds +:+ String (digit36 (n mod 36)) EmptyString).
    split; [|split; [|split]].
    + rewrite Heq, append_assoc. reflexivity.
    + intros v. rewrite fromBase36_append, Hdec. simpl. rewrite Hval.
      rewrite length_append. simpl.
      replace (Z.of_nat (String.length ds + 1))
        with (Z.succ (Z.of_nat (String.length ds))) by lia.
      rewrite Z.pow_succ_r by lia.
      pose proof (Z.div_mod n 36 ltac:(lia)). lia.
    + rewrite allChars_append, Hall. simpl. now rewrite Hdig.
    + rewrite length_append. simpl. lia.
Qed.

(** X5: [hashString] is the polynomial hash of the character codes with
    multiplier 31, wrapped to 32 bits after every character, its absolute
    value written in base 36: one to six digits out of [0-9a-z] that stand
    for that absolute value. Two texts get the same hash exactly when the
    absolute values of their wrapped polynomials agree. *)
Theorem hashString_spec (str : string) :
  let hash := toInt32 (polynomial31 str 0) in
  hashLoop str 0 = hash
  /\ - 2 ^ 31 <= hash < 2 ^ 31
  /\ fromBase36 (hashString str) 0 = Z.abs hash
  /\ allChars isBase36Digit (hashString str) = true
  /\ (1 <= String.length (hashString str) <= 6)%nat
  /\ (forall str',
        hashString str = hashString str'
        <-> Z.abs hash = Z.abs (toInt32 (polynomial31 str' 0))).
Proof.
  intros hash.
  assert (Hloop : forall s, hashLoop s 0 = toInt32 (polynomial31 s 0)).
  { intros s. apply (hashLoop_polynomial s 0). }
  assert (Hdigits : forall s, exists ds,
             hashString s = ds
             /\ fromBase36 ds 0 = Z.abs (toInt32 (polynomial31 s 0))
             /\ allChars isBase36Digit ds = true
             /\ (1 <= String.length ds <= 6)%nat).
  { intros s. unfold hashString. rewrite Hloop.
    pose proof (toInt32_range (polynomial31 s 0)) as Hr.
    destruct (toBase36_digits 7 6 (Z.abs (toInt32 (polynomial31 s 0)))
                EmptyString ltac:(lia)) as (ds & Heq & Hdec & Hall & Hlen).
    { change (36 ^ Z.of_nat 6) with 2176782336.
      change (2 ^ 31) with 2147483648 in Hr. lia. }
    exists ds. rewrite Heq, append_nil_r. split; [reflexivity|].
    split; [|split; assumption]. rewrite Hdec. lia. }
  split; [apply Hloop|]. split; [apply toInt32_range|].
  destruct (Hdigits str) as (ds & Heq & Hdec & Hall & Hlen).
  rewrite Heq. split; [exact Hdec|]. split; [exact Hall|].
  split; [exact Hlen|].
  intros str'. split.
  - intros H. destruct (Hdigits str') as (ds' & Heq' & Hdec' & _).
    fold hash in Hdec. rewrite <- Hdec, <- Hdec'. congruence.
  - intros H. rewrite <- Heq. unfold hashString. rewrite !Hloop.
    fold hash. now rewrite H.
Qed.

(** X6: the hash is not injective: replacing "Aa" by "BB" anywhere in a
    text does not change it. *)
Theorem hashString_collision (before after : string) :
  hashString (before +:+ "Aa" +:+ after)
  = hashString (before +:+ "BB" +:+ after).
Proof.
  unfold hashString. f_equal. f_equal.
  rewrite !hashLoop_append. f_equal.
  generalize (hashLoop before 0). intros hash.
  change (hashLoop "Aa" hash) with (hashStep (hashStep hash "A") "a").
  change (hashLoop "BB" hash) with (hashStep (hashStep hash "B") "B").
  rewrite (hashStep_eq hash "A"), (hashStep_eq hash "B").
  rewrite !hashStep_toInt32. f_equal.
  change (Z.of_nat (charCode "A")) with 65.
  change (Z.of_nat (charCode "a")) with 97.
  change (Z.of_nat (charCode "B")) with 66. lia.
Qed.

End HashString.

(** ** What the language-model service leaves in the cache *)

Section OllamaCaching.
Import Cache Ollama.
Variable languageModel : string.
Variable jsonParseItems : string -> option (list JsonItem).
Variable jsonParseContexts : string -> option (list ContextualMeaning).
(** The model as it answers the first call, and as it answers later. *)
Variables generate generate' : GenerateRequest -> outcome string.

Lemma set_reads_back (key : string) (v : CacheValue) (t : Z)
      (c : CacheService) :
  (size (store c) < maxKeys)%nat ->
  Cache.get key (snd (Cache.set key v t c)) = Some v.
Proof.
  intros Hroom. unfold Cache.set, Cache.get.
  destruct (Nat.leb_spec maxKeys (size (store c))); [lia|]. simpl.
  now rewrite lookup_insert_eq.
Qed.

(** X7: below the limit of the cache, synonyms (and antonyms) that were
    returned are answered again from the cache, whatever the model would
    answer now; on a miss they were parsed from the model's answer to the
    synonym (antonym) prompt and are stored for 1800 seconds. A failure of
    the model is rethrown as "Failed to find synonyms: ..." and stores
    nothing. *)
Theorem related_words_cached (word : string) (context : option string)
        (c : CacheService) :
  (size (store c) < maxKeys)%nat ->
  (forall words c1,
      findSynonyms languageModel generate jsonParseItems word context c
      = (Ok words, c1) ->
      findSynonyms languageModel generate' jsonParseItems word context c1
      = (Ok words, c1)
      /\ (cachedRelated (synonymsKey word context) c = None ->
          storedWith (synonymsKey word context) (VRelated words) 1800 c1
          /\ exists response,
               generate (synonymRequest languageModel word context)
               = Ok response
               /\ words = parseSynonyms jsonParseItems response))
  /\ (forall error c1,
        findSynonyms languageModel generate jsonParseItems word context c
        = (Throw error, c1) ->
        c1 = c
        /\ exists cause,
             generate (synonymRequest languageModel word context) = Throw cause
             /\ error = failureOf "find synonyms" cause)
  /\ (forall words c1,
        findAntonyms languageModel generate jsonParseItems word context c
        = (Ok words, c1) ->
        findAntonyms languageModel generate' jsonParseItems word context c1
        = (Ok words, c1)
        /\ (cachedRelated (antonymsKey word context) c = None ->
            storedWith (antonymsKey word context) (VRelated words) 1800 c1
            /\ exists response,
                 generate (antonymRequest languageModel word context)
                 = Ok response
                 /\ words = parseAntonyms jsonParseItems response))
  /\ (forall error c1,
        findAntonyms languageModel generate jsonParseItems word context c
        = (Throw error, c1) ->
        c1 = c
        /\ exists cause,
             generate (antonymRequest languageModel word context) = Throw cause
             /\ error = failureOf "find antonyms" cause).
Proof.
  intros Hroom.
  split; [|split; [|split]].
  - intros words c1. unfold findSynonyms.
    fold (synonymRequest languageModel word context).
    destruct (cachedRelated (synonymsKey word context) c) as [ws|] eqn:Hc.
    + intros H. injection H as <- <-. rewrite Hc. split; [reflexivity|].
      discriminate.
    + destruct (generate _) as [response|cause]; [|discriminate].
      intros H. injection H as <- <-.
      unfold cachedRelated at 1. rewrite set_reads_back by exact Hroom.
      split; [reflexivity|]. intros _.
      split; [apply set_stores; [exact Hroom|discriminate]|].
      exists response. split; reflexivity.
  - intros error c1. unfold findSynonyms.
    fold (synonymRequest languageModel word context).
    destruct (cachedRelated _ c); [discriminate|].
    destruct (generate _) as [response|cause]; [discriminate|].
    intros H. injection H as <- <-. split; [reflexivity|].
    exists cause. split; reflexivity.
  - intros words c1. unfold findAntonyms.
    fold (antonymRequest languageModel word context).
    destruct (cachedRelated (antonymsKey word context) c) as [ws|] eqn:Hc.
    + intros H. injection H as <- <-. rewrite Hc. split; [reflexivity|].
      discriminate.
    + destruct (generate _) as [response|cause]; [|discriminate].
      intros H. injection H as <- <-.
      unfold cachedRelated at 1. rewrite set_reads_back by exact Hroom.
      split; [reflexivity|]. intros _.
      split; [apply set_stores; [exact Hroom|discriminate]|].
      exists response. split; reflexivity.
  - intros error c1. unfold findAntonyms.
    fold (antonymRequest languageModel word context).
    destruct (cachedRelated _ c); [discriminate|].
    destruct (generate _) as [response|cause]; [discriminate|].
    intros H. injection H as <- <-. split; [reflexivity|].
    exists cause. split; reflexivity.
Qed.

(** X8: a definition is stored for 7200 seconds; a definition that is not
    empty is answered again from the cache, but an empty one, though stored,
    is never served: the next request asks the model again. *)
Theorem definition_cached_unless_empty (word : string)
        (partOfSpeech : option string) (c c1 : CacheService)
        (definition : string) :
  (size (store c) < maxKeys)%nat ->
  getDefinition languageModel generate word partOfSpeech c
  = (Ok definition, c1) ->
  (cachedText (definitionKey word partOfSpeech) c = None ->
   storedWith (definitionKey word partOfSpeech) (VText definition) 7200 c1)
  /\ (definition <> EmptyString ->
      getDefinition languageModel generate' word partOfSpeech c1
      = (Ok definition, c1))
  /\ (definition = EmptyString ->
      fst (getDefinition languageModel generate' word partOfSpeech c1)
      = match generate' (definitionRequest languageModel word partOfSpeech) with
        | Ok response => Ok (parseDefinition response)
        | Throw cause => Throw (failureOf "get definition" cause)
        end).
Proof.
  intros Hroom. unfold getDefinition.
  fold (definitionRequest languageModel word partOfSpeech).
  destruct (cachedText (definitionKey word partOfSpeech) c) as [d|] eqn:Hc.
  - intros H. injection H as <- <-. rewrite Hc.
    split; [discriminate|]. split; [reflexivity|].
    intros ->. unfold cachedText in Hc.
    destruct (Cache.get _ c) as [[]|]; try discriminate Hc.
    destruct s; discriminate Hc.
  - destruct (generate _) as [response|cause]; [|discriminate].
    intros H. injection H as <- <-.
    split; [intros _; apply set_stores; [exact Hroom|discriminate]|].
    unfold cachedText. rewrite set_reads_back by exact Hroom.
    split.
    + intros Hne. destruct (parseDefinition response); [contradiction|].
      reflexivity.
    + intros ->. simpl.
      destruct (generate' _); reflexivity.
Qed.

(** X9: the contextual meanings are stored for 2400 seconds under the word
    and the hash of the context, so a request for the same word with another
    context of the same hash is answered with the stored meanings. *)
Theorem contextual_meaning_cached_by_hash (word context context' : string)
        (c c1 : CacheService) (meanings : list ContextualMeaning) :
  (size (store c) < maxKeys)%nat ->
  hashString context = hashString context' ->
  analyzeContextualMeaning languageModel generate jsonParseContexts
    word context c = (Ok meanings, c1) ->
  analyzeContextualMeaning languageModel generate' jsonParseContexts
    word context' c1 = (Ok meanings, c1)
  /\ (cachedContexts (contextKey word context) c = None ->
      storedWith (contextKey word context) (VContexts meanings) 2400 c1).
Proof.
  intros Hroom Hhash. unfold analyzeContextualMeaning.
  assert (Hkey : contextKey word context' = contextKey word context)
    by (unfold contextKey; now rewrite Hhash).
  rewrite Hkey.
  destruct (cachedContexts (contextKey word context) c) as [ms|] eqn:Hc.
  - intros H. injection H as <- <-. rewrite Hc. split; [reflexivity|].
    discriminate.
  - destruct (generate _) as [response|cause]; [|discriminate].
    intros H. injection H as <- <-.
    unfold cachedContexts. rewrite set_reads_back by exact Hroom.
    split; [reflexivity|]. intros _.
    apply set_stores; [exact Hroom|discriminate].
Qed.

Local Abbreviation findSynonyms :=
  (findSynonyms languageModel generate jsonParseItems).
Local Abbreviation findAntonyms :=
  (findAntonyms languageModel generate jsonParseItems).
Local Abbreviation getDefinition := (getDefinition languageModel generate).
Local Abbreviation analyzeContextualMeaning :=
  (analyzeContextualMeaning languageModel generate jsonParseContexts).
Local Abbreviation contextual :=
  (contextualPart languageModel generate jsonParseContexts).
Local Abbreviation performComprehensiveAnalysis :=
  (performComprehensiveAnalysis languageModel generate jsonParseItems
     jsonParseContexts).

Lemma contextual_frame (word : string) (context : option string)
      (c : CacheService) (key : string) :
  (forall ctx, key <> contextKey word ctx) ->
  Cache.get key (snd (contextual word context c)) = Cache.get key c.
Proof.
  intros Hne. unfold contextualPart.
  destruct (truthy context); [|reflexivity].
  unfold Ollama.analyzeContextualMeaning.
  destruct (cachedContexts _ c); [reflexivity|].
  destruct (generate _); [|reflexivity].
  simpl. apply get_set_other. intros H. now apply (Hne (orElse context "")).
Qed.

Lemma findSynonyms_size (word : string) (context : option string)
      (c : CacheService) :
  (size (store (snd (findSynonyms word context c))) <= S (size (store c)))%nat.
Proof.
  unfold Ollama.findSynonyms. destruct (cachedRelated _ c); simpl; [lia|].
  destruct (generate _); simpl; [apply set_size|lia].
Qed.

Lemma findAntonyms_size (word : string) (context : option string)
      (c : CacheService) :
  (size (store (snd (findAntonyms word context c))) <= S (size (store c)))%nat.
Proof.
  unfold Ollama.findAntonyms. destruct (cachedRelated _ c); simpl; [lia|].
  destruct (generate _); simpl; [apply set_size|lia].
Qed.

Lemma getDefinition_size (word : string) (pos : option string)
      (c : CacheService) :
  (size (store (snd (getDefinition word pos c))) <= S (size (store c)))%nat.
Proof.
  unfold Ollama.getDefinition. destruct (cachedText _ c); simpl; [lia|].
  destruct (generate _); simpl; [apply set_size|lia].
Qed.

Lemma contextual_size (word : string) (context : option string)
      (c : CacheService) :
  (size (store (snd (contextual word context c))) <= S (size (store c)))%nat.
Proof.
  unfold contextualPart. destruct (truthy context); simpl; [|lia].
  unfold Ollama.analyzeContextualMeaning.
  destruct (cachedContexts _ c); simpl; [lia|].
  destruct (generate _); simpl; [apply set_size|lia].
Qed.

(** A sub-operation that succeeds leaves its result under its key. *)
Lemma findSynonyms_caches (word : string) (context : option string)
      (c : CacheService) (words : list RelatedWord) :
  (size (store c) < maxKeys)%nat ->
  fst (findSynonyms word context c) = Ok words ->
  Cache.get (synonymsKey word context) (snd (findSynonyms word context c))
  = Some (VRelated words).
Proof.
  intros Hroom. unfold Ollama.findSynonyms, cachedRelated.
  destruct (Cache.get (synonymsKey word context) c) as [[]|] eqn:Hc;
    try (destruct (generate _); simpl; [|discriminate];
         intros H; injection H as <-; now apply set_reads_back).
  simpl. intros H. injection H as <-. exact Hc.
Qed.

Lemma findAntonyms_caches (word : string) (context : option string)
      (c : CacheService) (words : list RelatedWord) :
  (size (store c) < maxKeys)%nat ->
  fst (findAntonyms word context c) = Ok words ->
  Cache.get (antonymsKey word context) (snd (findAntonyms word context c))
  = Some (VRelated words).
Proof.
  intros Hroom. unfold Ollama.findAntonyms, cachedRelated.
  destruct (Cache.get (antonymsKey word context) c) as [[]|] eqn:Hc;
    try (destruct (generate _); simpl; [|discriminate];
         intros H; injection H as <-; now apply set_reads_back).
  simpl. intros H. injection H as <-. exact Hc.
Qed.

Lemma getDefinition_caches (word : string) (pos : option string)
      (c : CacheService) (definition : string) :
  (size (store c) < maxKeys)%nat ->
  fst (getDefinition word pos c) = Ok definition ->
  Cache.get (definitionKey word pos) (snd (getDefinition word pos c))
  = Some (VText definition).
Proof.
  intros Hroom. unfold Ollama.getDefinition, cachedText.
  destruct (Cache.get (definitionKey word pos) c) as [[]|] eqn:Hc;
    try (destruct (generate _); simpl; [|discriminate];
         intros H; injection H as <-; now apply set_reads_back).
  destruct (isEmpty s).
  - destruct (generate _); simpl; [|discriminate].
    intros H; injection H as <-; now apply set_reads_back.
  - simpl. intros H. injection H as <-. exact Hc.
Qed.

Lemma contextual_caches (word context : string)
      (c : CacheService) (meanings : list ContextualMeaning) :
  (size (store c) < maxKeys)%nat ->
  fst (analyzeContextualMeaning word context c) = Ok meanings ->
  Cache.get (contextKey word context)
    (snd (analyzeContextualMeaning word context c))
  = Some (VContexts meanings).
Proof.
  intros Hroom. unfold Ollama.analyzeContextualMeaning, cachedContexts.
  destruct (Cache.get (contextKey word context) c) as [[]|] eqn:Hc;
    try (destruct (generate _); simpl; [|discriminate];
         intros H; injection H as <-; now apply set_reads_back).
  simpl. intros H. injection H as <-. exact Hc.
Qed.

(** The cache the analysis leaves behind on a miss of its own key. *)
Lemma analysis_cache (word : string) (context : option string)
      (c : CacheService) :
  cachedAnalysis (analysisKey word context) c = None ->
  let c1 := snd (findSynonyms word context c) in
  let c2 := snd (findAntonyms word context c1) in
  let c3 := snd (getDefinition word None c2) in
  let c4 := snd (contextual word context c3) in
  snd (performComprehensiveAnalysis word context c)
  = match fst (performComprehensiveAnalysis word context c) with
    | Ok analysis =>
        snd (Cache.set (analysisKey word context) (VAnalysis analysis) 1800 c4)
    | Throw _ => c4
    end.
Proof.
  intros Hmiss. unfold Ollama.performComprehensiveAnalysis.
  rewrite Hmiss. unfold contextualPart. simpl.
  destruct (Ollama.findSynonyms _ _ _ word context c) as [syn c1]. simpl.
  destruct (Ollama.findAntonyms _ _ _ word context c1) as [ant c2]. simpl.
  destruct (Ollama.getDefinition _ _ word None c2) as [def c3]. simpl.
  destruct (if truthy context
            then Ollama.analyzeContextualMeaning _ _ _ word
                   (orElse context "") c3
            else (Ok [], c3)) as [ctx c4]. simpl.
  destruct (promiseAll4 syn ant def ctx) as [[[[s0 a0] d0] m0]|e];
    reflexivity.
Qed.

Lemma analysisKey_other (word : string) (context : option string)
      (word' : string) (context' pos : option string) (ctx : string) :
  synonymsKey word' context' <> analysisKey word context
  /\ antonymsKey word' context' <> analysisKey word context
  /\ definitionKey word' pos <> analysisKey word context
  /\ contextKey word' ctx <> analysisKey word context.
Proof.
  unfold synonymsKey, antonymsKey, definitionKey, contextKey, analysisKey.
  repeat split; discriminate.
Qed.

(** X10: with room for five more entries, a comprehensive analysis that
    misses its own key leaves in the cache the result of every sub-operation
    that succeeded, each under its own key, whether or not the analysis as a
    whole succeeded; a successful analysis is itself stored for 1800 seconds
    and answered again from the cache. *)
Theorem analysis_caches_its_parts (word : string) (context : option string)
        (c : CacheService) :
  (size (store c) + 5 <= maxKeys)%nat ->
  cachedAnalysis (analysisKey word context) c = None ->
  let c' := snd (performComprehensiveAnalysis word context c) in
  (forall words,
      fst (findSynonyms word context c) = Ok words ->
      cachedRelated (synonymsKey word context) c' = Some words)
  /\ (forall words,
        fst (findAntonyms word context c) = Ok words ->
        cachedRelated (antonymsKey word context) c' = Some words)
  /\ (forall definition,
        fst (getDefinition word None c) = Ok definition ->
        Cache.get (definitionKey word None) c' = Some (VText definition))
  /\ (forall meanings,
        truthy context = true ->
        fst (analyzeContextualMeaning word (orElse context "") c)
        = Ok meanings ->
        cachedContexts (contextKey word (orElse context "")) c'
        = Some meanings)
  /\ (forall analysis,
        fst (performComprehensiveAnalysis word context c) = Ok analysis ->
        storedWith (analysisKey word context) (VAnalysis analysis) 1800 c'
        /\ Ollama.performComprehensiveAnalysis languageModel generate'
             jsonParseItems jsonParseContexts word context c'
           = (Ok analysis, c')).
Proof.
  intros Hroom Hmiss c'. subst c'.
  rewrite (analysis_cache word context c Hmiss).
  set (c1 := snd (findSynonyms word context c)).
  set (c2 := snd (findAntonyms word context c1)).
  set (c3 := snd (getDefinition word None c2)).
  set (c4 := snd (contextual word context c3)).
  pose proof (findSynonyms_size word context c) as S1. fold c1 in S1.
  pose proof (findAntonyms_size word context c1) as S2. fold c2 in S2.
  pose proof (getDefinition_size word None c2) as S3. fold c3 in S3.
  pose proof (contextual_size word context c3) as S4. fold c4 in S4.
  destruct (sub_keys_distinct word context word "" "")
    as (K1 & _ & K3 & _ & _ & K6 & _ & _).
  assert (F1 : forall key, key <> synonymsKey word context ->
                           Cache.get key c1 = Cache.get key c).
  { intros key Hk. now apply findSynonyms_frame. }
  assert (F2 : forall key, key <> antonymsKey word context ->
                           Cache.get key c2 = Cache.get key c1).
  { intros key Hk. now apply findAntonyms_frame. }
  assert (F3 : forall key, key <> definitionKey word None ->
                           Cache.get key c3 = Cache.get key c2).
  { intros key Hk. now apply getDefinition_frame. }
  assert (F4 : forall key, (forall ctx, key <> contextKey word ctx) ->
                           Cache.get key c4 = Cache.get key c3).
  { intros key Hk. now apply contextual_frame. }
  assert (KC : forall ctx,
             synonymsKey word context <> contextKey word ctx
             /\ antonymsKey word context <> contextKey word ctx
             /\ definitionKey word None <> contextKey word ctx).
  { intros ctx. destruct (sub_keys_distinct word context word "" ctx)
      as (_ & _ & _ & K4 & _ & _ & K7 & K8). auto. }
  assert (HA : fst (findAntonyms word context c1)
               = fst (findAntonyms word context c)).
  { apply findAntonyms_local, F1. congruence. }
  assert (HD : fst (getDefinition word None c2)
               = fst (getDefinition word None c)).
  { apply getDefinition_local. rewrite F2, F1; congruence. }
  assert (HX : forall ctx, Cache.get (contextKey word ctx) c3
                           = Cache.get (contextKey word ctx) c).
  { intros ctx. destruct (KC ctx) as (Ka & Kb & Kc).
    rewrite F3, F2, F1; congruence. }
  set (final := match fst (performComprehensiveAnalysis word context c) with
                | Ok analysis =>
                    snd (Cache.set (analysisKey word context)
                           (VAnalysis analysis) 1800 c4)
                | Throw _ => c4
                end).
  assert (FA : forall key, key <> analysisKey word context ->
                           Cache.get key final = Cache.get key c4).
  { intros key Hk. unfold final.
    destruct (fst (performComprehensiveAnalysis word context c));
      [|reflexivity].
    apply get_set_other. congruence. }
  destruct (analysisKey_other word context word context None "")
    as (A1 & A2 & A3 & _).
  split; [|split; [|split; [|split]]].
  - intros words Hs. unfold cachedRelated.
    rewrite FA by exact A1. rewrite F4 by (intros ctx; apply (KC ctx)).
    rewrite F3 by congruence. rewrite F2 by congruence.
    unfold c1. rewrite (findSynonyms_caches word context c words);
      [reflexivity|lia|exact Hs].
  - intros words Hs. unfold cachedRelated.
    rewrite FA by exact A2. rewrite F4 by (intros ctx; apply (KC ctx)).
    rewrite F3 by congruence.
    unfold c2. rewrite (findAntonyms_caches word context c1 words);
      [reflexivity|lia|congruence].
  - intros definition Hs.
    rewrite FA by exact A3. rewrite F4 by (intros ctx; apply (KC ctx)).
    unfold c3. rewrite (getDefinition_caches word None c2 definition);
      [reflexivity|lia|congruence].
  - intros meanings Htruthy Hs. unfold cachedContexts.
    rewrite FA
      by (apply (analysisKey_other word context word context None)).
    assert (Hc4 : c4 = snd (analyzeContextualMeaning word
                              (orElse context "") c3)).
    { unfold c4, contextualPart. now rewrite Htruthy. }
    rewrite Hc4.
    rewrite (contextual_caches word (orElse context "") c3 meanings);
      [reflexivity|lia|].
    rewrite <- Hs. unfold Ollama.analyzeContextualMeaning, cachedContexts.
    rewrite HX. destruct (Cache.get _ c) as [[]|]; try reflexivity;
      destruct (generate _); reflexivity.
  - intros analysis Hs.
    assert (Hfinal : final = snd (Cache.set (analysisKey word context)
                                    (VAnalysis analysis) 1800 c4)).
    { unfold final. now rewrite Hs. }
    assert (Hstored : storedWith (analysisKey word context)
                        (VAnalysis analysis) 1800 final).
    { rewrite Hfinal. apply set_stores; [lia|discriminate]. }
    split; [exact Hstored|].
    unfold Ollama.performComprehensiveAnalysis, cachedAnalysis, Cache.get.
    unfold storedWith in Hstored. rewrite Hstored. reflexivity.
Qed.

End OllamaCaching.

Lemma related_words_cached_witness :
  let generate := fun _ : Ollama.GenerateRequest => Ok "glad, joyful" in
  let generate' := fun _ : Ollama.GenerateRequest =>
    @Throw string (MkError "model not reachable") in
  let json := fun _ : string => @None (list Ollama.JsonItem) in
  let c := Cache.create None in
  let words :=
    [ mkRelatedWord "glad" 0.6%float; mkRelatedWord "joyful" 0.6%float ] in
  let c1 := snd (Ollama.findSynonyms "qwen2.5:14b" generate json "happy" None
                   c) in
  (size (Cache.store c) < Cache.maxKeys)%nat
  /\ Ollama.findSynonyms "qwen2.5:14b" generate' json "happy" None c1
     = (Ok words, c1).
Proof.
  intros generate generate' json c words c1.
  assert (Hroom : (size (Cache.store c) < Cache.maxKeys)%nat)
    by (apply Nat.ltb_lt; vm_compute; reflexivity).
  split; [exact Hroom|].
  destruct (related_words_cached "qwen2.5:14b" json generate generate'
              "happy" None c Hroom) as (H & _).
  apply (H words c1). vm_compute. reflexivity.
Defined.

Lemma definition_cached_unless_empty_witness :
  let generate := fun _ : Ollama.GenerateRequest => Ok "Feeling pleasure." in
  let generate' := fun _ : Ollama.GenerateRequest =>
    @Throw string (MkError "model not reachable") in
  let c := Cache.create None in
  let c1 := snd (Ollama.getDefinition "qwen2.5:14b" generate "happy" None c) in
  (size (Cache.store c) < Cache.maxKeys)%nat
  /\ Ollama.getDefinition "qwen2.5:14b" generate' "happy" None c1
     = (Ok "Feeling pleasure.", c1).
Proof.
  intros generate generate' c c1.
  assert (Hroom : (size (Cache.store c) < Cache.maxKeys)%nat)
    by (apply Nat.ltb_lt; vm_compute; reflexivity).
  split; [exact Hroom|].
  destruct (definition_cached_unless_empty "qwen2.5:14b" generate generate'
              "happy" None c c1 "Feeling pleasure." Hroom) as (_ & H & _).
  - vm_compute. reflexivity.
  - apply H. discriminate.
Defined.

Lemma contextual_meaning_cached_by_hash_witness :
  let generate := fun _ : Ollama.GenerateRequest => Ok "a river side" in
  let generate' := fun _ : Ollama.GenerateRequest =>
    @Throw string (MkError "model not reachable") in
  let jsonc := fun _ : string => @None (list ContextualMeaning) in
  let c := Cache.create None in
  let c1 := snd (Ollama.analyzeContextualMeaning "qwen2.5:14b" generate jsonc
                   "bank" "xAay" c) in
  ((size (Cache.store c) < Cache.maxKeys)%nat
   /\ Ollama.hashString "xAay" = Ollama.hashString "xBBy")
  /\ Ollama.analyzeContextualMeaning "qwen2.5:14b" generate' jsonc
       "bank" "xBBy" c1 = (Ok [], c1).
Proof.
  intros generate generate' jsonc c c1.
  assert (Hroom : (size (Cache.store c) < Cache.maxKeys)%nat)
    by (apply Nat.ltb_lt; vm_compute; reflexivity).
  assert (Hhash : Ollama.hashString "xAay" = Ollama.hashString "xBBy")
    by (vm_compute; reflexivity).
  split; [split; assumption|].
  destruct (contextual_meaning_cached_by_hash "qwen2.5:14b" jsonc generate
              generate' "bank" "xAay" "xBBy" c c1 [] Hroom Hhash) as (H & _).
  - vm_compute. reflexivity.
  - exact H.
Defined.

Lemma analysis_caches_its_parts_witness :
  let generate := fun _ : Ollama.GenerateRequest => Ok "glad, joyful" in
  let json := fun _ : string => @None (list Ollama.JsonItem) in
  let jsonc := fun _ : string => @None (list ContextualMeaning) in
  let c := Cache.create None in
  let c' := snd (Ollama.performComprehensiveAnalysis "qwen2.5:14b" generate
                   json jsonc "happy" None c) in
  ((size (Cache.store c) + 5 <= Cache.maxKeys)%nat
   /\ Ollama.cachedAnalysis (Ollama.analysisKey "happy" None) c = None)
  /\ Ollama.cachedRelated (Ollama.synonymsKey "happy" None) c'
     = Some [ mkRelatedWord "glad" 0.6%float;
              mkRelatedWord "joyful" 0.6%float ].
Proof.
  intros generate json jsonc c c'.
  assert (Hroom : (size (Cache.store c) + 5 <= Cache.maxKeys)%nat)
    by (apply Nat.leb_le; vm_compute; reflexivity).
  assert (Hmiss : Ollama.cachedAnalysis (Ollama.analysisKey "happy" None) c
                  = None) by reflexivity.
  split; [split; assumption|].
  destruct (analysis_caches_its_parts "qwen2.5:14b" json jsonc generate
              generate "happy" None c Hroom Hmiss) as (H & _).
  apply H. vm_compute. reflexivity.
Defined.

(** ** The language-model service at the limit of the cache *)

Section FullCache.
Import Cache Ollama.
Variable languageModel : string.
Variable embeddingModel : string.
Variable jsonParseItems : string -> option (list JsonItem).
Variable jsonParseContexts : string -> option (list ContextualMeaning).
Variable generate : GenerateRequest -> outcome string.
Variable embeddings : string -> string -> outcome (list number).

(** X11: at the limit of 10000 entries no operation of the language-model
    service stores anything: the cache is left as it was, the result is
    returned all the same, and the model is asked again at every request. *)
Theorem full_cache_stores_nothing (c : CacheService) :
  (maxKeys <= size (store c))%nat ->
  (forall word context,
      snd (findSynonyms languageModel generate jsonParseItems word context c) = c
      /\ snd (findAntonyms languageModel generate jsonParseItems word context c) = c
      /\ snd (performComprehensiveAnalysis languageModel generate
                jsonParseItems jsonParseContexts word context c) = c)
  /\ (forall word partOfSpeech,
        snd (getDefinition languageModel generate word partOfSpeech c) = c)
  /\ (forall word context,
        snd (analyzeContextualMeaning languageModel generate
               jsonParseContexts word context c) = c)
  /\ (forall text,
        snd (generateEmbedding embeddingModel embeddings text c) = c)
  /\ (forall word context response,
        cachedRelated (synonymsKey word context) c = None ->
        generate (synonymRequest languageModel word context) = Ok response ->
        findSynonyms languageModel generate jsonParseItems word context c
        = (Ok (parseSynonyms jsonParseItems response), c)).
Proof.
  intros Hfull.
  assert (Hsyn : forall word context,
    snd (findSynonyms languageModel generate jsonParseItems word context c) = c).
  { intros word context. unfold findSynonyms.
    destruct (cachedRelated _ c); [reflexivity|].
    destruct (generate _); [|reflexivity]. simpl. now apply set_refused. }
  assert (Hant : forall word context,
    snd (findAntonyms languageModel generate jsonParseItems word context c) = c).
  { intros word context. unfold findAntonyms.
    destruct (cachedRelated _ c); [reflexivity|].
    destruct (generate _); [|reflexivity]. simpl. now apply set_refused. }
  assert (Hdef : forall word partOfSpeech,
    snd (getDefinition languageModel generate word partOfSpeech c) = c).
  { intros word pos. unfold getDefinition.
    destruct (cachedText _ c); [reflexivity|].
    destruct (generate _); [|reflexivity]. simpl. now apply set_refused. }
  assert (Hctx : forall word context,
    snd (analyzeContextualMeaning languageModel generate jsonParseContexts
           word context c) = c).
  { intros word context. unfold analyzeContextualMeaning.
    destruct (cachedContexts _ c); [reflexivity|].
    destruct (generate _); [|reflexivity]. simpl. now apply set_refused. }
  split; [|split; [exact Hdef|split; [exact Hctx|split]]].
  - intros word context. split; [apply Hsyn|]. split; [apply Hant|].
    unfold performComprehensiveAnalysis.
    destruct (cachedAnalysis _ c); [reflexivity|].
    specialize (Hsyn word context). specialize (Hant word context).
    specialize (Hdef word None).
    specialize (Hctx word (orElse context "")).
    destruct (findSynonyms _ _ _ word context c) as [syn c1].
    simpl in Hsyn. subst c1.
    destruct (findAntonyms _ _ _ word context c) as [ant c2].
    simpl in Hant. subst c2.
    destruct (getDefinition _ _ word None c) as [def c3].
    simpl in Hdef. subst c3.
    destruct (truthy context).
    + destruct (analyzeContextualMeaning _ _ _ word _ c) as [ctx c4].
      simpl in Hctx. subst c4.
      destruct (promiseAll4 syn ant def ctx) as [[[[s0 a0] d0] m0]|e];
        [|reflexivity].
      simpl. now apply set_refused.
    + destruct (promiseAll4 syn ant def (Ok [])) as [[[[s0 a0] d0] m0]|e];
        [|reflexivity].
      simpl. now apply set_refused.
  - intros text. unfold generateEmbedding.
    destruct (cachedEmbedding _ c); [reflexivity|].
    destruct (embeddings _ _); [|reflexivity]. simpl. now apply set_refused.
  - intros word context response Hmiss Hgen. unfold findSynonyms.
    fold (synonymRequest languageModel word context).
    rewrite Hmiss, Hgen. f_equal. now apply set_refused.
Qed.

End FullCache.

Lemma unaryKey_inj (n m : nat) : unaryKey n = unaryKey m -> n = m.
Proof.
  revert m. induction n as [|n IH]; intros [|m] H; simpl in H;
    try discriminate; [reflexivity|].
  injection H as H. f_equal. now apply IH.
Qed.

Lemma fullCache_size : size (Cache.store fullCache) = Cache.maxKeys.
Proof.
  unfold fullCache. cbn [Cache.store].
  rewrite map_size_list_to_map.
  - now rewrite length_map, length_seq.
  - rewrite <- list_fmap_compose. apply NoDup_fmap_2.
    + intros n m H. now apply unaryKey_inj.
    + apply NoDup_ListNoDup, seq_NoDup.
Qed.

Lemma fullCache_is_full : (Cache.maxKeys <= size (Cache.store fullCache))%nat.
Proof. rewrite fullCache_size. apply Nat.le_refl. Qed.

Lemma fullCache_misses (word : string) (context : option string) :
  Cache.store fullCache !! Ollama.synonymsKey word context = None.
Proof.
  unfold fullCache. cbn [Cache.store].
  apply not_elem_of_list_to_map_1.
  rewrite <- list_fmap_compose. intros Hin.
  apply list_elem_of_fmap in Hin. destruct Hin as (n & Hn & _).
  destruct n; discriminate Hn.
Qed.

Lemma full_cache_stores_nothing_witness :
  let generate := fun _ : Ollama.GenerateRequest => Ok "glad, joyful" in
  let json := fun _ : string => @None (list Ollama.JsonItem) in
  (Cache.maxKeys <= size (Cache.store fullCache))%nat
  /\ Ollama.findSynonyms "qwen2.5:14b" generate json "happy" None fullCache
     = (Ok (Ollama.parseSynonyms json "glad, joyful"), fullCache).
Proof.
  intros generate json.
  split; [exact fullCache_is_full|].
  destruct (full_cache_stores_nothing "qwen2.5:14b" "nomic-embed-text" json
              (fun _ => None) generate (fun _ _ => Ok []) fullCache
              fullCache_is_full)
    as (_ & _ & _ & _ & H).
  apply (H "happy" None "glad, joyful").
  - unfold Ollama.cachedRelated, Cache.get.
    rewrite fullCache_misses. exact eq_refl.
  - exact eq_refl.
Defined.

(** ** Batches of words *)

Section Batches.
Import Embedding.
Context {A : Type}.

Lemma slice_batch (words : list A) (i : nat) :
  slice words i (i + batchSize) = firstn batchSize (skipn i words).
Proof. unfold slice. f_equal. lia. Qed.

Lemma batchesFrom_concat (fuel i : nat) (words : list A) :
  (length words <= i + fuel)%nat ->
  concat (batchesFrom fuel i words) = skipn i words.
Proof.
  revert i. induction fuel as [|fuel IH]; intros i H; simpl.
  - symmetry. apply skipn_all2. lia.
  - destruct (Nat.ltb_spec i (length words)) as [Hlt|Hge].
    + simpl. rewrite IH by (unfold batchSize; lia).
      rewrite slice_batch, Nat.add_comm, <- skipn_skipn.
      apply firstn_skipn.
    + symmetry. apply skipn_all2. lia.
Qed.

Lemma batchesFrom_sizes (fuel i : nat) (words : list A) :
  Forall (fun batch => (1 <= length batch <= batchSize)%nat)
    (batchesFrom fuel i words).
Proof.
  revert i. induction fuel as [|fuel IH]; intros i; simpl; [constructor|].
  destruct (Nat.ltb_spec i (length words)) as [Hlt|Hge]; [|constructor].
  constructor; [|apply IH].
  rewrite slice_batch, length_firstn, length_skipn. unfold batchSize. lia.
Qed.

Lemma batchesFrom_count (fuel i : nat) (words : list A) :
  (length words <= i + fuel)%nat ->
  length (batchesFrom fuel i words)
  = ((length words - i + 9) / 10)%nat.
Proof.
  revert i. induction fuel as [|fuel IH]; intros i H; cbn [batchesFrom].
  - replace (length words - i)%nat with 0%nat by lia. reflexivity.
  - destruct (Nat.ltb_spec i (length words)) as [Hlt|Hge].
    + cbn [length]. rewrite IH by (unfold batchSize; lia). unfold batchSize.
      destruct (Nat.le_gt_cases (length words) (i + 10)) as [Hle|Hgt].
      * replace (length words - (i + 10))%nat with 0%nat by lia.
        change ((0 + 9) / 10)%nat with 0%nat.
        apply (Nat.div_unique _ 10 1 (length words - i - 1)); lia.
      * replace (length words - i + 9)%nat
          with ((length words - (i + 10) + 9) + 1 * 10)%nat by lia.
        rewrite Nat.div_add by lia. lia.
    + replace (length words - i)%nat with 0%nat by lia. reflexivity.
Qed.

Lemma batchesFrom_nth (fuel i k : nat) (words : list A) (batch : list A) :
  nth_error (batchesFrom fuel i words) k = Some batch ->
  batch = slice words (i + k * batchSize) (i + k * batchSize + batchSize)
  /\ (i + k * batchSize < length words)%nat.
Proof.
  revert i k. induction fuel as [|fuel IH]; intros i k; cbn [batchesFrom].
  - destruct k; discriminate.
  - destruct (Nat.ltb_spec i (length words)) as [Hlt|Hge].
    + destruct k as [|k]; cbn [nth_error].
      * intros H. injection H as <-.
        replace (i + 0 * batchSize)%nat with i by lia. auto.
      * intros H. apply IH in H.
        replace (i + S k * batchSize)%nat
          with (i + batchSize + k * batchSize)%nat by lia. exact H.
    + destruct k; discriminate.
Qed.

End Batches.

(** X12: the batches of [batchGenerateEmbeddings] are the words in their
    order, cut into pieces of ten, the last piece holding what is left:
    their concatenation gives the words back, there are [ceil(n / 10)] of
    them, none is empty, and all but the last hold ten words. *)
Theorem batches_partition {A} (words : list A) :
  concat (Embedding.batches words) = words
  /\ Forall (fun batch => (1 <= length batch <= 10)%nat)
       (Embedding.batches words)
  /\ length (Embedding.batches words) = ((length words + 9) / 10)%nat
  /\ (forall k batch,
        nth_error (Embedding.batches words) k = Some batch ->
        batch = firstn 10 (skipn (10 * k) words)
        /\ (S k < length (Embedding.batches words) -> length batch = 10%nat))
  /\ (Embedding.batches words = [] <-> words = []).
Proof.
  unfold Embedding.batches.
  assert (Hcount : length (Embedding.batchesFrom (length words) 0 words)
                   = ((length words + 9) / 10)%nat).
  { rewrite batchesFrom_count by lia. rewrite Nat.sub_0_r. reflexivity. }
  split; [apply (batchesFrom_concat (length words) 0 words); lia|].
  split; [apply (batchesFrom_sizes (length words) 0 words)|].
  split; [exact Hcount|].
  split.
  - intros k batch H. apply batchesFrom_nth in H. destruct H as [-> Hk].
    simpl in Hk |- *. rewrite slice_batch.
    replace (k * Embedding.batchSize)%nat with (10 * k)%nat
      by (unfold Embedding.batchSize; lia).
    split; [reflexivity|]. intros Hnext. rewrite Hcount in Hnext.
    change Embedding.batchSize with 10%nat.
    rewrite length_firstn, length_skipn.
    assert (10 * S (S k) <= length words + 9)%nat; [|lia].
    pose proof (Nat.div_mod (length words + 9) 10 ltac:(lia)) as Hd.
    pose proof (Nat.mod_upper_bound (length words + 9) 10 ltac:(lia)).
    unfold Embedding.batchSize in *. lia.
  - split.
    + intros H. apply (f_equal (@length _)) in H. rewrite Hcount in H.
      destruct words as [|w words]; [reflexivity|].
      cbn [length] in H.
      assert (1 <= (S (length words) + 9) / 10)%nat; [|lia].
      apply Nat.div_le_lower_bound; lia.
    + intros ->. reflexivity.
Qed.

(** ** The document store *)

Section DocumentStore.
Local Open Scope float_scope.

Lemma insertSorted_In {A} (compareFn : A -> A -> number) (x y : A)
      (l : list A) :
  In y (insertSorted compareFn x l) <-> y = x \/ In y l.
Proof.
  induction l as [|z l IH]; simpl; [intuition auto|].
  destruct (gtb (compareFn x z) 0); simpl; rewrite ?IH; intuition auto.
Qed.

Lemma sort_In {A} (compareFn : A -> A -> number) (y : A) (l : list A) :
  In y (sort compareFn l) <-> In y l.
Proof.
  induction l as [|x l IH]; simpl; [reflexivity|].
  rewrite insertSorted_In, IH. intuition auto.
Qed.

Lemma slice0_In {A} (xs : list A) (limit : number) (x : A) :
  In x (slice0 xs limit) -> In x xs.
Proof.
  unfold slice0. destruct (toIntegerOrInfinity limit) as [|k|];
    [intros []| |auto].
  destruct (k <? 0)%Z; apply In_firstn.
Qed.

Lemma float_lt_not_ge (x y : float) :
  PrimFloat.ltb x y = true -> PrimFloat.leb y x = true -> False.
Proof.
  rewrite ltb_spec, leb_spec. unfold SFltb, SFleb.
  rewrite (SFcompare_antisym (Prim2SF x) (Prim2SF y)).
  destruct (SFcompare (Prim2SF x) (Prim2SF y)) as [[]|]; simpl; congruence.
Qed.

Lemma mongo_cosine_eq (u v : list number) :
  Mongo.calculateCosineSimilarity u v
  = if negb (Nat.eqb (length u) (length v)) then 0 else cosineValue u v.
Proof.
  unfold Mongo.calculateCosineSimilarity, cosineValue.
  destruct (negb _); [reflexivity|].
  destruct (accumulate u v 0 0 0) as [[d na] nb]. reflexivity.
Qed.

(** X13: the document store computes the same similarity as the embedding
    service for vectors of equal length, and 0 where the embedding service
    throws; it is symmetric. *)
Theorem mongo_cosine_similarity (a b : list number) :
  Mongo.calculateCosineSimilarity a b
  = match Cosine.calculateCosineSimilarity a b with
    | Ok similarity => similarity
    | Throw _ => 0
    end
  /\ (length a <> length b ->
      Mongo.calculateCosineSimilarity a b = 0
      /\ Cosine.calculateCosineSimilarity a b = Throw lengthError)
  /\ Mongo.calculateCosineSimilarity a b
     = Mongo.calculateCosineSimilarity b a.
Proof.
  pose proof mongo_cosine_eq as H.
  split; [|split].
  - rewrite H, calculateCosineSimilarity_eq.
    destruct (negb _); reflexivity.
  - intros Hne. rewrite H, calculateCosineSimilarity_eq.
    apply Nat.eqb_neq in Hne. rewrite Hne. auto.
  - rewrite !H, (Nat.eqb_sym (length b)), cosineValue_comm. reflexivity.
Qed.

(** X14: with a threshold above zero, the search of the document store leaves
    out the documents whose vector has another length than the query's:
    every returned row comes from a document of the model with a vector of
    the query's length, and carries its cosine similarity, which reaches the
    threshold. *)
Theorem mongo_search_skips_mismatch (queryEmbedding : list number)
        (model : string) (limit threshold : option number)
        (documents : list Mongo.WordEmbeddingDocument)
        (row : Mongo.SimilarWord) :
  PrimFloat.ltb 0 (default 0.7 threshold) = true ->
  In row (Mongo.findSimilarWords queryEmbedding model limit threshold
            documents) ->
  exists doc,
    In doc documents
    /\ Mongo.wed_model doc = model
    /\ Mongo.sw_word row = Mongo.wed_word doc
    /\ length (Mongo.wed_embedding doc) = length queryEmbedding
    /\ Mongo.sw_similarity row
       = cosineValue queryEmbedding (Mongo.wed_embedding doc)
    /\ PrimFloat.leb (default 0.7 threshold) (Mongo.sw_similarity row) = true.
Proof.
  intros Hpos Hin. unfold Mongo.findSimilarWords in Hin.
  apply slice0_In, sort_In, filter_In in Hin. destruct Hin as [Hin Hge].
  apply in_map_iff in Hin. destruct Hin as (doc & <- & Hdoc).
  apply In_firstn, filter_In in Hdoc. destruct Hdoc as [Hdoc Hmodel].
  apply String.eqb_eq in Hmodel.
  exists doc. simpl in *. unfold geb in Hge.
  split; [exact Hdoc|]. split; [exact Hmodel|]. split; [reflexivity|].
  rewrite mongo_cosine_eq in Hge |- *.
  destruct (Nat.eqb_spec (length queryEmbedding)
              (length (Mongo.wed_embedding doc))) as [Hlen|Hlen];
    simpl in Hge |- *.
  - auto.
  - destruct (float_lt_not_ge _ _ Hpos Hge).
Qed.

End DocumentStore.

Lemma mongo_search_skips_mismatch_witness :
  let documents :=
    [ Mongo.mkWordEmbeddingDocument "feline" "nomic-embed-text"
        [1%float; 0%float] 2;
      Mongo.mkWordEmbeddingDocument "engine" "nomic-embed-text"
        [1%float; 0%float; 0%float] 3 ] in
  let row := Mongo.mkSimilarWord "feline" 1%float in
  PrimFloat.ltb 0 (default 0.7%float None) = true
  /\ exists doc,
       In doc documents
       /\ Mongo.wed_model doc = "nomic-embed-text"
       /\ Mongo.sw_word row = Mongo.wed_word doc
       /\ length (Mongo.wed_embedding doc) = length [2%float; 0%float]
       /\ Mongo.sw_similarity row
          = cosineValue [2%float; 0%float] (Mongo.wed_embedding doc)
       /\ PrimFloat.leb (default 0.7%float None) (Mongo.sw_similarity row)
          = true.
Proof.
  intros documents row.
  assert (Hpos : PrimFloat.ltb 0 (default 0.7%float None) = true)
    by (vm_compute; reflexivity).
  split; [exact Hpos|].
  apply (mongo_search_skips_mismatch [2%float; 0%float] "nomic-embed-text"
           None None documents row Hpos).
  vm_compute. left. reflexivity.
Defined.

(** With a threshold of zero the document of another dimension is returned,
    with similarity 0. *)
Lemma mongo_mismatch_kept_at_zero_threshold :
  Mongo.findSimilarWords [2%float; 0%float] "nomic-embed-text" None
    (Some 0%float)
    [ Mongo.mkWordEmbeddingDocument "feline" "nomic-embed-text"
        [1%float; 0%float] 2;
      Mongo.mkWordEmbeddingDocument "engine" "nomic-embed-text"
        [1%float; 0%float; 0%float] 3 ]
  = [ Mongo.mkSimilarWord "feline" 1%float;
      Mongo.mkSimilarWord "engine" 0%float ].
Proof. vm_compute. reflexivity. Qed.
